(** * vector.h: RawMemory<T> and Vector<T>

    A shallow embedding of the two class templates of [vector.h] and the
    properties of the container established on it.

    Memory.  A block obtained from [operator new] is a list of slots, one
    per element it can hold; a slot is either raw (no object lives there)
    or holds a live object with its value.  Blocks carry the address
    [operator new] returned, so that iterators (raw pointers) can be told
    apart after a reallocation.  The algorithms of the standard library
    the source calls ([std::uninitialized_copy_n], [std::destroy_n],
    [std::move_backward], ...) are written out on slots as the C++ standard
    describes them.  The [assert]s of the source are compiled out.

    Counts.  Counts of elements ([size_t]) are natural numbers.  The
    byte count [n * sizeof(T)] that [Allocate] passes to [operator new] is
    computed in [size_t] and wraps around at [2 ^ 64] ([byte_count]); a
    count for which it does not wrap is [allocatable].  The blocks a
    container holds take their bytes of the address space, which keeps
    the counts it reaches by itself, [++size_] and [Size() * 2], far from
    the point where they or their byte counts would wrap around: for
    these, [Allocate n] gives a block of [n] slots.  A count that comes
    from the caller can be any number: [Allocate_wrapping] gives the block
    the room the wrapped byte count has, and the functions that take such
    a count are [Vector_sized_wrapping], [Reserve_wrapping] and
    [Resize_wrapping], which are [Vector_sized], [Reserve] and [Resize]
    for an allocatable count.  Where the source lets a count of elements
    wrap around, [--size_] in [PopBack] and [Erase] on an empty container,
    the wrap is written out.

    Failure.  The allocator, the constructors of [T] and, unless they are
    [noexcept], the assignment operators of [T] may throw.  Which call
    throws is fixed by a script carried in the [World]: every call that may
    throw consumes the head of the script, and a script that has run out
    means that nothing throws any more.  Destructors do not throw.  A
    constructor or an assignment of [T] that throws is taken to leave the
    objects it was given as they were.  A call returns [Ret] with its
    result, or [Exc] when it exits by an exception; both carry the state
    left behind.

    Arguments.  The argument of a constructor call [T(args...)] is either
    a value [x] held outside the container, or a reference to an element
    of the container the call works on ([Arg]); the functions that take
    such an argument come in a general form ([Insert_ref], ...) and in the
    form for a value outside the container ([Insert], ...), which is the
    general form at [Value x].

    Misuse.  Where the source would run a destructor on a slot without an
    object, construct over a live object, read a raw slot or leave its
    block, the embedding counts a fault in the [World] and goes on with the
    slot left as it is. *)

From stdpp Require Import base tactics list numbers.

(** ** The element type

    The template parameter [T]: the two type traits the source tests in
    [if constexpr], whether the copy and the move assignment operator of
    [T] are [noexcept], [sizeof(T)], the state a moved-from object is left
    in, and the value of [T()]. *)
Class Element (T : Type) := {
  is_nothrow_move_constructible : bool;
  is_copy_constructible : bool;
  is_nothrow_copy_assignable : bool;
  is_nothrow_move_assignable : bool;
  sizeof_T : positive;
  moved_from : T → T;
  value_initialized : T;
}.

(** The outcome of a call: normal return with a result, or exit by an
    exception; [s] is the state the call leaves. *)
Inductive Res (A S : Type) : Type :=
| Ret (a : A) (s : S)
| Exc (s : S).
Arguments Ret {A S} a s.
Arguments Exc {A S} s.

(** A [T*]: the address of a block and an offset in elements. *)
Record Ptr := mkPtr { blk : nat; off : nat }.

(** [--n] on a [size_t]. *)
Definition size_t_dec (n : nat) : nat :=
  match n with
  | 0 => 2 ^ 64 - 1
  | S k => k
  end.

Section Container.
Context {T : Type} {elem : Element T}.

(** ** Memory blocks *)

Inductive Slot :=
| Raw
| Obj (x : T).

Record Block := mkBlock { base : nat; cells : list Slot }.

(** The environment of a call: the script of the calls that may throw
    ([true]: the call throws), the last address handed out by
    [operator new], the blocks given to [operator delete] with their slots
    at that time, and the number of faults so far. *)
Record World := mkWorld {
  throws : list bool;
  fresh : nat;
  freed : list Block;
  faults : nat;
}.

Definition fault (w : World) : World :=
  mkWorld (throws w) (fresh w) (freed w) (S (faults w)).

Definition may_throw (w : World) : bool * World :=
  match throws w with
  | [] => (false, w)
  | b :: rest => (b, mkWorld rest (fresh w) (freed w) (faults w))
  end.

(** The move constructor of [T] consumes the script only when it is not
    [noexcept]. *)
Definition move_may_throw (w : World) : bool * World :=
  if is_nothrow_move_constructible then (false, w) else may_throw w.

(** The value of the object in slot [i], if one lives there. *)
Definition read (buf : list Slot) (i : nat) : option T :=
  match buf !! i with
  | Some (Obj x) => Some x
  | _ => None
  end.

(** An object of value [x] comes to life in slot [i]. *)
Definition construct_at (buf : list Slot) (i : nat) (x : T) (w : World)
  : list Slot * World :=
  match buf !! i with
  | Some Raw => (<[i:=Obj x]> buf, w)
  | Some (Obj _) => (<[i:=Obj x]> buf, fault w)
  | None => (buf, fault w)
  end.

(** [new (p) T(args...)], where [x] is the value the constructor builds
    when it does not throw. *)
Definition placement_new (buf : list Slot) (i : nat) (x : T) (w : World)
  : Res unit (list Slot * World) :=
  let '(b, w1) := may_throw w in
  if b then Exc (buf, w1) else Ret tt (construct_at buf i x w1).

(** Assignment of the value [x] to the object in slot [i]. *)
Definition assign_at (buf : list Slot) (i : nat) (x : T) (w : World)
  : list Slot * World :=
  match buf !! i with
  | Some (Obj _) => (<[i:=Obj x]> buf, w)
  | _ => (buf, fault w)
  end.

(** [std::destroy_at]: the destructor of the object in slot [i]. *)
Definition destroy_at (buf : list Slot) (i : nat) (w : World)
  : list Slot * World :=
  match buf !! i with
  | Some (Obj _) => (<[i:=Raw]> buf, w)
  | _ => (buf, fault w)
  end.

(** [std::destroy_n] *)
Fixpoint destroy_n (buf : list Slot) (first n : nat) (w : World)
  : list Slot * World :=
  match n with
  | 0 => (buf, w)
  | S n' =>
      let '(buf1, w1) := destroy_at buf first w in
      destroy_n buf1 (S first) n' w1
  end.

(** [std::uninitialized_copy_n]: when a constructor throws, the objects
    already built are destroyed and the exception goes on. *)
Fixpoint uninitialized_copy_n (src : list Slot) (first n : nat)
    (dst : list Slot) (d_first : nat) (w : World)
  : Res unit (list Slot * World) :=
  match n with
  | 0 => Ret tt (dst, w)
  | S n' =>
      match read src first with
      | None => uninitialized_copy_n src (S first) n' dst (S d_first) (fault w)
      | Some x =>
          match placement_new dst d_first x w with
          | Exc s => Exc s
          | Ret _ (dst1, w1) =>
              match uninitialized_copy_n src (S first) n' dst1 (S d_first) w1 with
              | Ret _ s => Ret tt s
              | Exc (dst2, w2) => Exc (destroy_at dst2 d_first w2)
              end
          end
      end
  end.

(** [std::uninitialized_move_n]: as above; the sources already moved stay
    moved-from. *)
Fixpoint uninitialized_move_n (src : list Slot) (first n : nat)
    (dst : list Slot) (d_first : nat) (w : World)
  : Res unit (list Slot * list Slot * World) :=
  match n with
  | 0 => Ret tt (src, dst, w)
  | S n' =>
      match read src first with
      | None => uninitialized_move_n src (S first) n' dst (S d_first) (fault w)
      | Some x =>
          let '(b, w1) := move_may_throw w in
          if b then Exc (src, dst, w1)
          else
            let '(dst1, w2) := construct_at dst d_first x w1 in
            let src1 := <[first:=Obj (moved_from x)]> src in
            match uninitialized_move_n src1 (S first) n' dst1 (S d_first) w2 with
            | Ret _ s => Ret tt s
            | Exc (src2, dst2, w3) =>
                let '(dst3, w4) := destroy_at dst2 d_first w3 in
                Exc (src2, dst3, w4)
            end
      end
  end.

(** [std::uninitialized_value_construct_n] *)
Fixpoint uninitialized_value_construct_n (buf : list Slot) (first n : nat)
    (w : World) : Res unit (list Slot * World) :=
  match n with
  | 0 => Ret tt (buf, w)
  | S n' =>
      match placement_new buf first value_initialized w with
      | Exc s => Exc s
      | Ret _ (buf1, w1) =>
          match uninitialized_value_construct_n buf1 (S first) n' w1 with
          | Ret _ s => Ret tt s
          | Exc (buf2, w2) => Exc (destroy_at buf2 first w2)
          end
      end
  end.

(** An operation of [T] that consumes the script only when it is not
    [noexcept]. *)
Definition may_throw_unless (nothrow : bool) (w : World) : bool * World :=
  if nothrow then (false, w) else may_throw w.

(** [*p = x] on the object in slot [i], by an assignment operator that is
    [noexcept] or not.  When the operator throws, the object assigned to is
    left as it was. *)
Definition assign (nothrow : bool) (buf : list Slot) (i : nat) (x : T)
    (w : World) : Res unit (list Slot * World) :=
  let '(b, w1) := may_throw_unless nothrow w in
  if b then Exc (buf, w1) else Ret tt (assign_at buf i x w1).

(** [std::copy(first, last, d_first)] from one block into another, by copy
    assignment; an exception of the assignment operator stops the loop. *)
Fixpoint copy_loop (src : list Slot) (first n : nat)
    (dst : list Slot) (d_first : nat) (w : World)
  : Res unit (list Slot * World) :=
  match n with
  | 0 => Ret tt (dst, w)
  | S n' =>
      match read src first with
      | None => copy_loop src (S first) n' dst (S d_first) (fault w)
      | Some x =>
          match assign is_nothrow_copy_assignable dst d_first x w with
          | Exc s => Exc s
          | Ret _ (dst1, w1) => copy_loop src (S first) n' dst1 (S d_first) w1
          end
      end
  end.

Definition std_copy (src : list Slot) (first last : nat)
    (dst : list Slot) (d_first : nat) (w : World)
  : Res unit (list Slot * World) :=
  if last <? first then Ret tt (dst, fault w)
  else copy_loop src first (last - first) dst d_first w.

(** Move assignment of the object at [from] to the object at [to], both
    inside one block. *)
Definition move_assign_within (buf : list Slot) (from to : nat) (w : World)
  : Res unit (list Slot * World) :=
  match read buf from with
  | None => Ret tt (buf, fault w)
  | Some x =>
      match assign is_nothrow_move_assignable buf to x w with
      | Exc s => Exc s
      | Ret _ (buf1, w1) => Ret tt (<[from:=Obj (moved_from x)]> buf1, w1)
      end
  end.

(** [std::move(first, last, d_first)] inside one block, front to back. *)
Fixpoint move_loop (buf : list Slot) (first n d_first : nat) (w : World)
  : Res unit (list Slot * World) :=
  match n with
  | 0 => Ret tt (buf, w)
  | S n' =>
      match move_assign_within buf first d_first w with
      | Exc s => Exc s
      | Ret _ (buf1, w1) => move_loop buf1 (S first) n' (S d_first) w1
      end
  end.

Definition std_move (buf : list Slot) (first last d_first : nat) (w : World)
  : Res unit (list Slot * World) :=
  if last <? first then Ret tt (buf, fault w)
  else move_loop buf first (last - first) d_first w.

(** [std::move_backward(first, last, d_last)] inside one block, back to
    front. *)
Fixpoint move_backward_loop (buf : list Slot) (last n d_last : nat) (w : World)
  {struct n} : Res unit (list Slot * World) :=
  match n with
  | 0 => Ret tt (buf, w)
  | S n' =>
      match last, d_last with
      | S last', S d_last' =>
          match move_assign_within buf last' d_last' w with
          | Exc s => Exc s
          | Ret _ (buf1, w1) => move_backward_loop buf1 last' n' d_last' w1
          end
      | _, _ => Ret tt (buf, fault w)
      end
  end.

Definition std_move_backward (buf : list Slot) (first last d_last : nat)
    (w : World) : Res unit (list Slot * World) :=
  if last <? first then Ret tt (buf, fault w)
  else move_backward_loop buf last (last - first) d_last w.

(** Placement new at [to] of an object move-constructed from the one at
    [from], both inside one block. *)
Definition move_construct_within (buf : list Slot) (from to : nat) (w : World)
  : Res unit (list Slot * World) :=
  match read buf from with
  | None => Ret tt (buf, fault w)
  | Some x =>
      let '(b, w1) := move_may_throw w in
      if b then Exc (buf, w1)
      else
        let '(buf1, w2) := construct_at buf to x w1 in
        Ret tt (<[from:=Obj (moved_from x)]> buf1, w2)
  end.

(** ** RawMemory *)

Record RawMemory := mkRawMemory { buffer_ : Block; capacity_ : nat }.

Definition nullptr : Block := mkBlock 0 [].

(** The argument [n * sizeof(T)] of [operator new] in [Allocate], a product
    in [size_t]. *)
Definition byte_count (n : nat) : N :=
  ((N.of_nat n * N.pos sizeof_T) mod 2 ^ 64)%N.

(** The byte count of [n] elements has not wrapped around: the block
    [operator new] is asked for has room for [n] elements. *)
Definition allocatable (n : nat) : Prop :=
  byte_count n = (N.of_nat n * N.pos sizeof_T)%N.

(** [Allocate], for an allocatable count: [operator new] may throw
    [std::bad_alloc]; the block it returns has a fresh address, different
    from 0, and [n] raw slots, which is the room of [byte_count n] bytes
    when [allocatable n]. *)
Definition Allocate (n : nat) (w : World) : Res Block World :=
  if n =? 0 then Ret nullptr w
  else
    let '(b, w1) := may_throw w in
    if b then Exc w1
    else Ret (mkBlock (S (fresh w1)) (replicate n Raw))
             (mkWorld (throws w1) (S (fresh w1)) (freed w1) (faults w1)).

(** The room [byte_count n] bytes have for elements: [n] for an allocatable
    count, less otherwise. *)
Definition room (n : nat) : nat :=
  N.to_nat (byte_count n / N.pos sizeof_T).

(** [Allocate] for any count: [operator new] is asked for [byte_count n]
    bytes, and the block it returns has the room of those bytes (none for
    0 bytes, where [operator new] still returns a fresh address). *)
Definition Allocate_wrapping (n : nat) (w : World) : Res Block World :=
  if n =? 0 then Ret nullptr w
  else
    let '(b, w1) := may_throw w in
    if b then Exc w1
    else Ret (mkBlock (S (fresh w1)) (replicate (room n) Raw))
             (mkWorld (throws w1) (S (fresh w1)) (freed w1) (faults w1)).

(** [Deallocate]: [operator delete], which does nothing on [nullptr]. *)
Definition Deallocate (buf : Block) (w : World) : World :=
  if base buf =? 0 then w
  else mkWorld (throws w) (fresh w) (buf :: freed w) (faults w).

(** [RawMemory() = default] *)
Definition RawMemory_default : RawMemory := mkRawMemory nullptr 0.

(** [explicit RawMemory(size_t capacity)] *)
Definition RawMemory_new (capacity : nat) (w : World) : Res RawMemory World :=
  match Allocate capacity w with
  | Ret buf w1 => Ret (mkRawMemory buf capacity) w1
  | Exc w1 => Exc w1
  end.

(** [explicit RawMemory(size_t capacity)] for any count: [capacity_] is the
    count asked for, whatever the room of the block. *)
Definition RawMemory_new_wrapping (capacity : nat) (w : World)
  : Res RawMemory World :=
  match Allocate_wrapping capacity w with
  | Ret buf w1 => Ret (mkRawMemory buf capacity) w1
  | Exc w1 => Exc w1
  end.

(** [~RawMemory()] *)
Definition RawMemory_delete (m : RawMemory) (w : World) : World :=
  Deallocate (buffer_ m) w.

(** [RawMemory::Swap]: the two objects after the exchange. *)
Definition RawMemory_Swap (a b : RawMemory) : RawMemory * RawMemory :=
  (mkRawMemory (buffer_ b) (capacity_ b), mkRawMemory (buffer_ a) (capacity_ a)).

Definition GetAddress (m : RawMemory) : Ptr := mkPtr (base (buffer_ m)) 0.

Definition ptr_add (p : Ptr) (n : nat) : Ptr := mkPtr (blk p) (off p + n).

(** The slots behind [buffer_], and the memory after a write through it. *)
Definition mem (m : RawMemory) : list Slot := cells (buffer_ m).

Definition store (m : RawMemory) (c : list Slot) : RawMemory :=
  mkRawMemory (mkBlock (base (buffer_ m)) c) (capacity_ m).

(** ** Vector *)

Record Vector := mkVector { data_ : RawMemory; size_ : nat }.

(** [Vector() = default] *)
Definition Vector_default : Vector := mkVector RawMemory_default 0.

Definition Size (v : Vector) : nat := size_ v.

Definition Capacity (v : Vector) : nat := capacity_ (data_ v).

(** [operator[]]: the object in slot [index], if one lives there. *)
Definition index (v : Vector) (i : nat) : option T := read (mem (data_ v)) i.

Definition begin (v : Vector) : Ptr := GetAddress (data_ v).

Definition end_ (v : Vector) : Ptr := ptr_add (GetAddress (data_ v)) (size_ v).

(** [explicit Vector(size_t size)] *)
Definition Vector_sized (size : nat) (w : World) : Res Vector World :=
  match RawMemory_new size w with
  | Exc w1 => Exc w1
  | Ret data w1 =>
      match uninitialized_value_construct_n (mem data) 0 size w1 with
      | Exc (c, w2) => Exc (RawMemory_delete (store data c) w2)
      | Ret _ (c, w2) => Ret (mkVector (store data c) size) w2
      end
  end.

(** [explicit Vector(size_t size)] for any size, with the byte count of
    the source. *)
Definition Vector_sized_wrapping (size : nat) (w : World) : Res Vector World :=
  match RawMemory_new_wrapping size w with
  | Exc w1 => Exc w1
  | Ret data w1 =>
      match uninitialized_value_construct_n (mem data) 0 size w1 with
      | Exc (c, w2) => Exc (RawMemory_delete (store data c) w2)
      | Ret _ (c, w2) => Ret (mkVector (store data c) size) w2
      end
  end.

(** [Vector(const Vector& other)] *)
Definition Vector_copy (other : Vector) (w : World) : Res Vector World :=
  match RawMemory_new (size_ other) w with
  | Exc w1 => Exc w1
  | Ret data w1 =>
      match uninitialized_copy_n (mem (data_ other)) 0 (size_ other)
                                 (mem data) 0 w1 with
      | Exc (c, w2) => Exc (RawMemory_delete (store data c) w2)
      | Ret _ (c, w2) => Ret (mkVector (store data c) (size_ other)) w2
      end
  end.

(** [~Vector()], followed by the destructor of the member [data_]. *)
Definition Vector_delete (v : Vector) (w : World) : World :=
  let '(c, w1) := destroy_n (mem (data_ v)) 0 (size_ v) w in
  RawMemory_delete (store (data_ v) c) w1.

(** [Swap] returns the two containers after the exchange, [*this] first. *)
Definition Swap (this other : Vector) : Vector * Vector :=
  let '(d, d') := RawMemory_Swap (data_ this) (data_ other) in
  (mkVector d (size_ other), mkVector d' (size_ this)).

(** [Vector(Vector&& other)]: the new container and what is left of
    [other]. *)
Definition Vector_move (other : Vector) : Vector * Vector :=
  Swap Vector_default other.

(** [operator=(Vector&& rhs)]: [*this] and what is left of [rhs]. *)
Definition move_assign (this rhs : Vector) : Vector * Vector :=
  Swap this rhs.

(** [operator=(const Vector& rhs)] *)
Definition copy_assign (this rhs : Vector) (w : World)
  : Res unit (Vector * World) :=
  if capacity_ (data_ this) <? size_ rhs then
    match Vector_copy rhs w with
    | Exc w1 => Exc (this, w1)
    | Ret tmp w1 =>
        let '(this1, tmp1) := Swap this tmp in
        Ret tt (this1, Vector_delete tmp1 w1)
    end
  else
    match
      (if size_ this <? size_ rhs then
         match uninitialized_copy_n (mem (data_ rhs)) (size_ this)
                 (size_ rhs - size_ this) (mem (data_ this)) (size_ this) w with
         | Exc s => Exc s
         | Ret _ (c, w1) => std_copy (mem (data_ rhs)) 0 (size_ this) c 0 w1
         end
       else Ret tt (mem (data_ this), w))
    with
    | Exc (c, w1) => Exc (mkVector (store (data_ this) c) (size_ this), w1)
    | Ret _ (c1, w1) =>
        match
          (if size_ rhs <? size_ this then
             let '(c, w') :=
               destroy_n c1 (size_ rhs) (size_ this - size_ rhs) w1 in
             std_copy (mem (data_ rhs)) 0 (size_ rhs) c 0 w'
           else Ret tt (c1, w1))
        with
        | Exc (c2, w2) => Exc (mkVector (store (data_ this) c2) (size_ this), w2)
        | Ret _ (c2, w2) =>
            Ret tt (mkVector (store (data_ this) c2) (size_ rhs), w2)
        end
    end.

(** The condition of the [if constexpr] that chooses between moving and
    copying the elements into new storage. *)
Definition relocate_by_move : bool :=
  is_nothrow_move_constructible || negb is_copy_constructible.

(** [Reserve].  The local [new_data] is released when the call is left:
    with the new block after an exception, with the old one after the
    [Swap]. *)
Definition Reserve (this : Vector) (new_capacity : nat) (w : World)
  : Res unit (Vector * World) :=
  if new_capacity <=? capacity_ (data_ this) then Ret tt (this, w)
  else
    match RawMemory_new new_capacity w with
    | Exc w1 => Exc (this, w1)
    | Ret new_data w1 =>
        if relocate_by_move then
          match uninitialized_move_n (mem (data_ this)) 0 (size_ this)
                                     (mem new_data) 0 w1 with
          | Exc (old, new, w2) =>
              Exc (mkVector (store (data_ this) old) (size_ this),
                   RawMemory_delete (store new_data new) w2)
          | Ret _ (old, new, w2) =>
              let '(old1, w3) := destroy_n old 0 (size_ this) w2 in
              Ret tt (mkVector (store new_data new) (size_ this),
                      RawMemory_delete (store (data_ this) old1) w3)
          end
        else
          match uninitialized_copy_n (mem (data_ this)) 0 (size_ this)
                                     (mem new_data) 0 w1 with
          | Exc (new, w2) =>
              Exc (this, RawMemory_delete (store new_data new) w2)
          | Ret _ (new, w2) =>
              let '(old1, w3) :=
                destroy_n (mem (data_ this)) 0 (size_ this) w2 in
              Ret tt (mkVector (store new_data new) (size_ this),
                      RawMemory_delete (store (data_ this) old1) w3)
          end
    end.

(** [Reserve] for any count, with the byte count of the source. *)
Definition Reserve_wrapping (this : Vector) (new_capacity : nat) (w : World)
  : Res unit (Vector * World) :=
  if new_capacity <=? capacity_ (data_ this) then Ret tt (this, w)
  else
    match RawMemory_new_wrapping new_capacity w with
    | Exc w1 => Exc (this, w1)
    | Ret new_data w1 =>
        if relocate_by_move then
          match uninitialized_move_n (mem (data_ this)) 0 (size_ this)
                                     (mem new_data) 0 w1 with
          | Exc (old, new, w2) =>
              Exc (mkVector (store (data_ this) old) (size_ this),
                   RawMemory_delete (store new_data new) w2)
          | Ret _ (old, new, w2) =>
              let '(old1, w3) := destroy_n old 0 (size_ this) w2 in
              Ret tt (mkVector (store new_data new) (size_ this),
                      RawMemory_delete (store (data_ this) old1) w3)
          end
        else
          match uninitialized_copy_n (mem (data_ this)) 0 (size_ this)
                                     (mem new_data) 0 w1 with
          | Exc (new, w2) =>
              Exc (this, RawMemory_delete (store new_data new) w2)
          | Ret _ (new, w2) =>
              let '(old1, w3) :=
                destroy_n (mem (data_ this)) 0 (size_ this) w2 in
              Ret tt (mkVector (store new_data new) (size_ this),
                      RawMemory_delete (store (data_ this) old1) w3)
          end
    end.

(** [Resize] *)
Definition Resize (this : Vector) (new_size : nat) (w : World)
  : Res unit (Vector * World) :=
  match Reserve this new_size w with
  | Exc s => Exc s
  | Ret _ (v, w1) =>
      if size_ v <? new_size then
        match uninitialized_value_construct_n (mem (data_ v)) (size_ v)
                (new_size - size_ v) w1 with
        | Exc (c, w2) => Exc (mkVector (store (data_ v) c) (size_ v), w2)
        | Ret _ (c, w2) => Ret tt (mkVector (store (data_ v) c) new_size, w2)
        end
      else if new_size <? size_ v then
        let '(c, w2) :=
          destroy_n (mem (data_ v)) new_size (size_ v - new_size) w1 in
        Ret tt (mkVector (store (data_ v) c) new_size, w2)
      else Ret tt (mkVector (data_ v) new_size, w1)
  end.

(** [Resize] for any size, with the byte count of the source. *)
Definition Resize_wrapping (this : Vector) (new_size : nat) (w : World)
  : Res unit (Vector * World) :=
  match Reserve_wrapping this new_size w with
  | Exc s => Exc s
  | Ret _ (v, w1) =>
      if size_ v <? new_size then
        match uninitialized_value_construct_n (mem (data_ v)) (size_ v)
                (new_size - size_ v) w1 with
        | Exc (c, w2) => Exc (mkVector (store (data_ v) c) (size_ v), w2)
        | Ret _ (c, w2) => Ret tt (mkVector (store (data_ v) c) new_size, w2)
        end
      else if new_size <? size_ v then
        let '(c, w2) :=
          destroy_n (mem (data_ v)) new_size (size_ v - new_size) w1 in
        Ret tt (mkVector (store (data_ v) c) new_size, w2)
      else Ret tt (mkVector (data_ v) new_size, w1)
  end.

(** [PopBack].  On an empty container [data_ + size_ - 1] is not a slot of
    the block and [--size_] wraps around. *)
Definition PopBack (this : Vector) (w : World) : Vector * World :=
  let '(c, w1) :=
    match size_ this with
    | 0 => (mem (data_ this), fault w)
    | S last => destroy_at (mem (data_ this)) last w
    end in
  (mkVector (store (data_ this) c) (size_t_dec (size_ this)), w1).

(** [EmplaceBack(args...)]; [x] is the value [T(args...)] builds.  The
    result is the address of the new element. *)
Definition EmplaceBack (this : Vector) (x : T) (w : World)
  : Res Ptr (Vector * World) :=
  if Size this <? capacity_ (data_ this) then
    match placement_new (mem (data_ this)) (Size this) x w with
    | Exc (c, w1) => Exc (mkVector (store (data_ this) c) (size_ this), w1)
    | Ret _ (c, w1) =>
        Ret (ptr_add (GetAddress (data_ this)) (Size this))
            (mkVector (store (data_ this) c) (S (size_ this)), w1)
    end
  else
    match RawMemory_new (if Size this =? 0 then 1 else Size this * 2) w with
    | Exc w1 => Exc (this, w1)
    | Ret new_data w1 =>
        match placement_new (mem new_data) (Size this) x w1 with
        | Exc (c, w2) => Exc (this, RawMemory_delete (store new_data c) w2)
        | Ret _ (c, w2) =>
            let tmp := ptr_add (GetAddress new_data) (Size this) in
            if relocate_by_move then
              match uninitialized_move_n (mem (data_ this)) 0 (Size this)
                                         c 0 w2 with
              | Exc (old, new, w3) =>
                  Exc (mkVector (store (data_ this) old) (size_ this),
                       RawMemory_delete (store new_data new) w3)
              | Ret _ (old, new, w3) =>
                  let '(old1, w4) := destroy_n old 0 (Size this) w3 in
                  Ret tmp (mkVector (store new_data new) (S (size_ this)),
                           RawMemory_delete (store (data_ this) old1) w4)
              end
            else
              match uninitialized_copy_n (mem (data_ this)) 0 (Size this)
                                         c 0 w2 with
              | Exc (new, w3) =>
                  Exc (this, RawMemory_delete (store new_data new) w3)
              | Ret _ (new, w3) =>
                  let '(old1, w4) :=
                    destroy_n (mem (data_ this)) 0 (Size this) w3 in
                  Ret tmp (mkVector (store new_data new) (S (size_ this)),
                           RawMemory_delete (store (data_ this) old1) w4)
              end
        end
    end.

(** [PushBack] *)
Definition PushBack (this : Vector) (value : T) (w : World)
  : Res unit (Vector * World) :=
  match EmplaceBack this value w with
  | Exc s => Exc s
  | Ret _ s => Ret tt s
  end.

(** [pos - data_.GetAddress()]: the difference of two pointers into one
    block. *)
Definition ptr_diff (p q : Ptr) (w : World) : nat * World :=
  (off p - off q,
   if (blk p =? blk q) && (off q <=? off p) then w else fault w).

(** [p == q] on pointers. *)
Definition ptr_eqb (p q : Ptr) : bool := (blk p =? blk q) && (off p =? off q).

(** [BigCapacity]: insertion with spare capacity.  The temporary
    [tmp_new_elem] is built first; its constructor may throw.  An exception
    of a move assignment leaves [size_] as it was, with the object built at
    [data_ + size_] alive. *)
Definition BigCapacity (this : Vector) (pos : Ptr) (x : T) (w : World)
  : Res unit (Vector * World) :=
  let '(offset, w0) := ptr_diff pos (GetAddress (data_ this)) w in
  if offset =? size_ this then
    match EmplaceBack this x w0 with
    | Exc s => Exc s
    | Ret _ s => Ret tt s
    end
  else
    (* T tmp_new_elem{args...} *)
    let '(b, w1) := may_throw w0 in
    if b then Exc (this, w1)
    else
      match size_ this with
      | 0 =>
          (* end() - 1 is not a slot of the block *)
          Ret tt (mkVector (data_ this) (S (size_ this)), fault w1)
      | S last =>
          match move_construct_within (mem (data_ this)) last (size_ this) w1
          with
          | Exc (c, w2) => Exc (mkVector (store (data_ this) c) (size_ this), w2)
          | Ret _ (c, w2) =>
              match std_move_backward c offset last (size_ this) w2 with
              | Exc (c1, w3) =>
                  Exc (mkVector (store (data_ this) c1) (size_ this), w3)
              | Ret _ (c1, w3) =>
                  (* *position_elemet = std::move(tmp_new_elem) *)
                  match assign is_nothrow_move_assignable c1 offset x w3 with
                  | Exc (c2, w4) =>
                      Exc (mkVector (store (data_ this) c2) (size_ this), w4)
                  | Ret _ (c2, w4) =>
                      Ret tt (mkVector (store (data_ this) c2) (S (size_ this)),
                              w4)
                  end
              end
          end
      end.

(** [CompletelyFilled]: insertion into a full block.  The two handlers of
    the copy branch are the [catch (...)] blocks of the source. *)
Definition CompletelyFilled (this : Vector) (pos : Ptr) (x : T) (w : World)
  : Res unit (Vector * World) :=
  let '(offset, w0) := ptr_diff pos (GetAddress (data_ this)) w in
  match RawMemory_new (if Size this =? 0 then 1 else Size this * 2) w0 with
  | Exc w1 => Exc (this, w1)
  | Ret new_data w1 =>
      if relocate_by_move then
        match uninitialized_move_n (mem (data_ this)) 0 offset
                                   (mem new_data) 0 w1 with
        | Exc (old, new, w2) =>
            Exc (mkVector (store (data_ this) old) (size_ this),
                 RawMemory_delete (store new_data new) w2)
        | Ret _ (old, new, w2) =>
            match placement_new new offset x w2 with
            | Exc (new1, w3) =>
                Exc (mkVector (store (data_ this) old) (size_ this),
                     RawMemory_delete (store new_data new1) w3)
            | Ret _ (new1, w3) =>
                match
                  (if offset <? size_ this then
                     uninitialized_move_n old offset (size_ this - offset)
                                          new1 (offset + 1) w3
                   else Ret tt (old, new1, w3))
                with
                | Exc (old2, new2, w4) =>
                    Exc (mkVector (store (data_ this) old2) (size_ this),
                         RawMemory_delete (store new_data new2) w4)
                | Ret _ (old2, new2, w4) =>
                    let '(old3, w5) := destroy_n old2 0 (Size this) w4 in
                    Ret tt (mkVector (store new_data new2) (S (size_ this)),
                            RawMemory_delete (store (data_ this) old3) w5)
                end
            end
        end
      else
        match uninitialized_copy_n (mem (data_ this)) 0 offset
                                   (mem new_data) 0 w1 with
        | Exc (new, w2) =>
            (* catch (...) { std::destroy_n(new_data + offset, 1); throw; } *)
            let '(new1, w3) := destroy_n new offset 1 w2 in
            Exc (this, RawMemory_delete (store new_data new1) w3)
        | Ret _ (new, w2) =>
            match placement_new new offset x w2 with
            | Exc (new1, w3) =>
                Exc (this, RawMemory_delete (store new_data new1) w3)
            | Ret _ (new1, w3) =>
                match
                  (if offset <? size_ this then
                     match uninitialized_copy_n (mem (data_ this)) offset
                             (size_ this - offset) new1 (offset + 1) w3 with
                     | Exc (new2, w4) =>
                         (* catch (...) { std::destroy_n(new_data.GetAddress(),
                            offset + 1); throw; } *)
                         Exc (destroy_n new2 0 (offset + 1) w4)
                     | Ret _ s => Ret tt s
                     end
                   else Ret tt (new1, w3))
                with
                | Exc (new2, w4) =>
                    Exc (this, RawMemory_delete (store new_data new2) w4)
                | Ret _ (new2, w4) =>
                    let '(old1, w5) :=
                      destroy_n (mem (data_ this)) 0 (Size this) w4 in
                    Ret tt (mkVector (store new_data new2) (S (size_ this)),
                            RawMemory_delete (store (data_ this) old1) w5)
                end
            end
        end
  end.

(** [Emplace]: the result is [begin() + offset], taken after the
    insertion. *)
Definition Emplace (this : Vector) (pos : Ptr) (x : T) (w : World)
  : Res Ptr (Vector * World) :=
  let '(offset, _) := ptr_diff pos (GetAddress (data_ this)) w in
  match
    (if Size this <? capacity_ (data_ this) then BigCapacity this pos x w
     else CompletelyFilled this pos x w)
  with
  | Exc s => Exc s
  | Ret _ (v, w1) => Ret (ptr_add (begin v) offset) (v, w1)
  end.

(** [Insert], both overloads, with a value of the caller's. *)
Definition Insert (this : Vector) (pos : Ptr) (value : T) (w : World)
  : Res Ptr (Vector * World) :=
  Emplace this pos value w.

(** ** Arguments that refer to an element of the container

    [PushBack], [EmplaceBack], [Emplace] and [Insert] take their argument by
    reference, and the reference may be to an element of the container the
    call works on, as in [v.Insert(pos, v[i])].  The functions above are the
    calls with an object of the caller's, [Value x] below; [Own i] is the
    call with a [const T&] to the element of index [i] of the container
    itself.  The new element is copy-constructed from what the reference
    designates in the block of the container at the time of the
    construction.  (A call with an rvalue reference to an element of the
    container itself, [v.Insert(pos, std::move(v[i]))], is neither.) *)
Inductive Arg :=
| Value (x : T)
| Own (i : nat).

(** What the argument designates when the block of the container holds
    [own]. *)
Definition resolve (a : Arg) (own : list Slot) : option T :=
  match a with
  | Value x => Some x
  | Own i => read own i
  end.

(** [new (p) T(value)]; a reference to a slot without an object is a
    fault. *)
Definition placement_new_from (buf : list Slot) (i : nat) (a : Arg)
    (own : list Slot) (w : World) : Res unit (list Slot * World) :=
  match resolve a own with
  | Some x => placement_new buf i x w
  | None => Ret tt (buf, fault w)
  end.

(** [EmplaceBack(value)] *)
Definition EmplaceBack_ref (this : Vector) (a : Arg) (w : World)
  : Res Ptr (Vector * World) :=
  if Size this <? capacity_ (data_ this) then
    match placement_new_from (mem (data_ this)) (Size this) a
            (mem (data_ this)) w with
    | Exc (c, w1) => Exc (mkVector (store (data_ this) c) (size_ this), w1)
    | Ret _ (c, w1) =>
        Ret (ptr_add (GetAddress (data_ this)) (Size this))
            (mkVector (store (data_ this) c) (S (size_ this)), w1)
    end
  else
    match RawMemory_new (if Size this =? 0 then 1 else Size this * 2) w with
    | Exc w1 => Exc (this, w1)
    | Ret new_data w1 =>
        match placement_new_from (mem new_data) (Size this) a
                (mem (data_ this)) w1 with
        | Exc (c, w2) => Exc (this, RawMemory_delete (store new_data c) w2)
        | Ret _ (c, w2) =>
            let tmp := ptr_add (GetAddress new_data) (Size this) in
            if relocate_by_move then
              match uninitialized_move_n (mem (data_ this)) 0 (Size this)
                                         c 0 w2 with
              | Exc (old, new, w3) =>
                  Exc (mkVector (store (data_ this) old) (size_ this),
                       RawMemory_delete (store new_data new) w3)
              | Ret _ (old, new, w3) =>
                  let '(old1, w4) := destroy_n old 0 (Size this) w3 in
                  Ret tmp (mkVector (store new_data new) (S (size_ this)),
                           RawMemory_delete (store (data_ this) old1) w4)
              end
            else
              match uninitialized_copy_n (mem (data_ this)) 0 (Size this)
                                         c 0 w2 with
              | Exc (new, w3) =>
                  Exc (this, RawMemory_delete (store new_data new) w3)
              | Ret _ (new, w3) =>
                  let '(old1, w4) :=
                    destroy_n (mem (data_ this)) 0 (Size this) w3 in
                  Ret tmp (mkVector (store new_data new) (S (size_ this)),
                           RawMemory_delete (store (data_ this) old1) w4)
              end
        end
    end.

(** [PushBack(value)] *)
Definition PushBack_ref (this : Vector) (a : Arg) (w : World)
  : Res unit (Vector * World) :=
  match EmplaceBack_ref this a w with
  | Exc s => Exc s
  | Ret _ s => Ret tt s
  end.

(** [BigCapacity(pos, value)]: the temporary [tmp_new_elem] is a copy of
    what the reference designates before any element is moved. *)
Definition BigCapacity_ref (this : Vector) (pos : Ptr) (a : Arg) (w : World)
  : Res unit (Vector * World) :=
  let '(offset, w0) := ptr_diff pos (GetAddress (data_ this)) w in
  if offset =? size_ this then
    match EmplaceBack_ref this a w0 with
    | Exc s => Exc s
    | Ret _ s => Ret tt s
    end
  else
    match resolve a (mem (data_ this)) with
    | None => Ret tt (this, fault w0)
    | Some x =>
        (* T tmp_new_elem{value} *)
        let '(b, w1) := may_throw w0 in
        if b then Exc (this, w1)
        else
          match size_ this with
          | 0 => Ret tt (mkVector (data_ this) (S (size_ this)), fault w1)
          | S last =>
              match move_construct_within (mem (data_ this)) last (size_ this)
                      w1 with
              | Exc (c, w2) =>
                  Exc (mkVector (store (data_ this) c) (size_ this), w2)
              | Ret _ (c, w2) =>
                  match std_move_backward c offset last (size_ this) w2 with
                  | Exc (c1, w3) =>
                      Exc (mkVector (store (data_ this) c1) (size_ this), w3)
                  | Ret _ (c1, w3) =>
                      match assign is_nothrow_move_assignable c1 offset x w3
                      with
                      | Exc (c2, w4) =>
                          Exc (mkVector (store (data_ this) c2) (size_ this),
                               w4)
                      | Ret _ (c2, w4) =>
                          Ret tt (mkVector (store (data_ this) c2)
                                           (S (size_ this)), w4)
                      end
                  end
              end
          end
    end.

(** [CompletelyFilled(pos, value)]: the new element is built after the
    prefix has been relocated, from what the reference designates then. *)
Definition CompletelyFilled_ref (this : Vector) (pos : Ptr) (a : Arg)
    (w : World) : Res unit (Vector * World) :=
  let '(offset, w0) := ptr_diff pos (GetAddress (data_ this)) w in
  match RawMemory_new (if Size this =? 0 then 1 else Size this * 2) w0 with
  | Exc w1 => Exc (this, w1)
  | Ret new_data w1 =>
      if relocate_by_move then
        match uninitialized_move_n (mem (data_ this)) 0 offset
                                   (mem new_data) 0 w1 with
        | Exc (old, new, w2) =>
            Exc (mkVector (store (data_ this) old) (size_ this),
                 RawMemory_delete (store new_data new) w2)
        | Ret _ (old, new, w2) =>
            match placement_new_from new offset a old w2 with
            | Exc (new1, w3) =>
                Exc (mkVector (store (data_ this) old) (size_ this),
                     RawMemory_delete (store new_data new1) w3)
            | Ret _ (new1, w3) =>
                match
                  (if offset <? size_ this then
                     uninitialized_move_n old offset (size_ this - offset)
                                          new1 (offset + 1) w3
                   else Ret tt (old, new1, w3))
                with
                | Exc (old2, new2, w4) =>
                    Exc (mkVector (store (data_ this) old2) (size_ this),
                         RawMemory_delete (store new_data new2) w4)
                | Ret _ (old2, new2, w4) =>
                    let '(old3, w5) := destroy_n old2 0 (Size this) w4 in
                    Ret tt (mkVector (store new_data new2) (S (size_ this)),
                            RawMemory_delete (store (data_ this) old3) w5)
                end
            end
        end
      else
        match uninitialized_copy_n (mem (data_ this)) 0 offset
                                   (mem new_data) 0 w1 with
        | Exc (new, w2) =>
            let '(new1, w3) := destroy_n new offset 1 w2 in
            Exc (this, RawMemory_delete (store new_data new1) w3)
        | Ret _ (new, w2) =>
            match placement_new_from new offset a (mem (data_ this)) w2 with
            | Exc (new1, w3) =>
                Exc (this, RawMemory_delete (store new_data new1) w3)
            | Ret _ (new1, w3) =>
                match
                  (if offset <? size_ this then
                     match uninitialized_copy_n (mem (data_ this)) offset
                             (size_ this - offset) new1 (offset + 1) w3 with
                     | Exc (new2, w4) =>
                         Exc (destroy_n new2 0 (offset + 1) w4)
                     | Ret _ s => Ret tt s
                     end
                   else Ret tt (new1, w3))
                with
                | Exc (new2, w4) =>
                    Exc (this, RawMemory_delete (store new_data new2) w4)
                | Ret _ (new2, w4) =>
                    let '(old1, w5) :=
                      destroy_n (mem (data_ this)) 0 (Size this) w4 in
                    Ret tt (mkVector (store new_data new2) (S (size_ this)),
                            RawMemory_delete (store (data_ this) old1) w5)
                end
            end
        end
  end.

(** [Emplace(pos, value)] *)
Definition Emplace_ref (this : Vector) (pos : Ptr) (a : Arg) (w : World)
  : Res Ptr (Vector * World) :=
  let '(offset, _) := ptr_diff pos (GetAddress (data_ this)) w in
  match
    (if Size this <? capacity_ (data_ this) then BigCapacity_ref this pos a w
     else CompletelyFilled_ref this pos a w)
  with
  | Exc s => Exc s
  | Ret _ (v, w1) => Ret (ptr_add (begin v) offset) (v, w1)
  end.

(** [Insert(pos, const T& value)] *)
Definition Insert_ref (this : Vector) (pos : Ptr) (a : Arg) (w : World)
  : Res Ptr (Vector * World) :=
  Emplace_ref this pos a w.

(** [Erase]: the iterator returned and the state left. *)
Definition Erase (this : Vector) (pos : Ptr) (w : World)
  : Res Ptr (Vector * World) :=
  if ptr_eqb pos (end_ this) then Ret (end_ this) (this, w)
  else
    let '(d, w0) := ptr_diff pos (begin this) w in
    let position_elemet := ptr_add (begin this) d in
    match std_move (mem (data_ this)) (d + 1) (size_ this) d w0 with
    | Exc (c, w1) => Exc (mkVector (store (data_ this) c) (size_ this), w1)
    | Ret _ (c, w1) =>
        let '(c1, w2) :=
          match size_ this with
          | 0 => (c, fault w1)
          | S last => destroy_at c last w1
          end in
        Ret position_elemet
            (mkVector (store (data_ this) c1) (size_t_dec (size_ this)), w2)
    end.

(** ** The class invariant and the abstract contents *)

(** [size_ <= capacity_], the slots below [size_] hold live objects, the
    slots from [size_] up to the capacity are raw. *)
Definition Invariant (v : Vector) : Prop :=
  size_ v ≤ capacity_ (data_ v) ∧
  length (mem (data_ v)) = capacity_ (data_ v) ∧
  (∀ i, i < size_ v → ∃ x, mem (data_ v) !! i = Some (Obj x)) ∧
  (∀ i, size_ v ≤ i → i < capacity_ (data_ v) → mem (data_ v) !! i = Some Raw).

(** The block of a container of capacity [cap] whose live elements are
    [xs]. *)
Definition layout (xs : list T) (cap : nat) : list Slot :=
  (Obj <$> xs) ++ replicate (cap - length xs) Raw.

Definition represents (v : Vector) (xs : list T) : Prop :=
  size_ v = length xs ∧
  length xs ≤ capacity_ (data_ v) ∧
  mem (data_ v) = layout xs (capacity_ (data_ v)).

(** A run of [PushBack] calls, one per value, stopped by the first
    exception. *)
Fixpoint push_all (values : list T) (v : Vector) (w : World)
  : Res unit (Vector * World) :=
  match values with
  | [] => Ret tt (v, w)
  | x :: rest =>
      match PushBack v x w with
      | Exc s => Exc s
      | Ret _ (v1, w1) => push_all rest v1 w1
      end
  end.

(** ** Auxiliary notions for the statements *)

(** What a call that neither allocates nor frees nor faults does to the
    world: it only consumes a part of the script. *)
Definition stable (w w' : World) : Prop :=
  fresh w' = fresh w ∧ freed w' = freed w ∧ faults w' = faults w ∧
  ∃ k, throws w' = drop k (throws w).

(** A call leaves the fault count alone and cannot make a script that has
    run out throw again. *)
Definition calm (w w' : World) : Prop :=
  faults w' = faults w ∧ (throws w = [] → throws w' = []).

(** What a run of assignments does to the world: it consumes a part of the
    script, and nothing at all when the assignment operator is [noexcept]. *)
Definition assigned (nothrow : bool) (w w' : World) : Prop :=
  stable w w' ∧ (nothrow = true → w' = w).

(** What is left in the last slot of the range after [std::move] has
    shifted [ys] one slot down over [z]. *)
Fixpoint residue (z : T) (ys : list T) : T :=
  match ys with
  | [] => z
  | y :: ys' => residue (moved_from y) ys'
  end.

(** The range after [std::move_backward] has shifted [ys] one slot up over
    [z]. *)
Definition shifted (ys : list T) (z : T) : list Slot :=
  match ys with
  | [] => [Obj z]
  | y :: _ => Obj (moved_from y) :: (Obj <$> ys)
  end.

(** The container a call leaves behind, on return and on exception,
    satisfies the class invariant, and the call has run into no fault. *)
Definition sound {A : Type} (w : World) (r : Res A (Vector * World)) : Prop :=
  match r with
  | Ret _ (v, w') | Exc (v, w') => Invariant v ∧ faults w' = faults w
  end.

(** As [sound] when the call returns; when it throws, the container
    satisfies the class invariant provided that the call has run into no
    fault and that [P] holds. *)
Definition sound_if {A : Type} (P : Prop) (w : World)
    (r : Res A (Vector * World)) : Prop :=
  match r with
  | Ret _ (v, w') => Invariant v ∧ faults w' = faults w
  | Exc (v, w') => faults w' = faults w → P → Invariant v
  end.

(** The container a call leaves behind, on return and on exception, has at
    least the capacity of [this]. *)
Definition no_shrink {A : Type} (this : Vector) (r : Res A (Vector * World))
  : Prop :=
  match r with
  | Ret _ (v, _) | Exc (v, _) => Capacity this ≤ Capacity v
  end.

(** The container a call leaves behind, on return and on exception, has
    the capacity of [this]. *)
Definition same_capacity {A : Type} (this : Vector)
    (r : Res A (Vector * World)) : Prop :=
  match r with
  | Ret _ (v, _) | Exc (v, _) => Capacity v = Capacity this
  end.

(** ** The move operations of RawMemory *)

(** [RawMemory(RawMemory&& other)]: the new object, which starts from the
    default member initializers, and what is left of [other]. *)
Definition RawMemory_move (other : RawMemory) : RawMemory * RawMemory :=
  RawMemory_Swap RawMemory_default other.

(** [operator=(RawMemory&& rhs)]: [*this] and what is left of [rhs]. *)
Definition RawMemory_move_assign (this rhs : RawMemory)
  : RawMemory * RawMemory :=
  RawMemory_Swap this rhs.

(** ** Further notions for the statements *)

(** A call has neither obtained a block from [operator new] nor given one
    to [operator delete]. *)
Definition same_heap (w w' : World) : Prop :=
  fresh w' = fresh w ∧ freed w' = freed w.

(** No object lives in the block. *)
Definition all_raw (b : Block) : Prop :=
  cells b = replicate (length (cells b)) Raw.

(** A call has caused no fault, and every block it has given to
    [operator delete] held no live object at that time. *)
Definition leak_free (w w' : World) : Prop :=
  faults w' = faults w ∧
  ∃ released, freed w' = released ++ freed w ∧ Forall all_raw released.

(** [buffer_] is [nullptr] exactly when [capacity_] is 0. *)
Definition null_iff_empty (m : RawMemory) : Prop :=
  base (buffer_ m) = 0 ↔ capacity_ m = 0.

(** The container a call leaves behind, on return and on exception, has a
    [nullptr] buffer exactly when its capacity is 0. *)
Definition storage_ok {A : Type} (r : Res A (Vector * World)) : Prop :=
  match r with
  | Ret _ (v, _) | Exc (v, _) => null_iff_empty (data_ v)
  end.

End Container.

Arguments Slot T : clear implicits.
Arguments Block T : clear implicits.
Arguments World T : clear implicits.
Arguments RawMemory T : clear implicits.
Arguments Vector T : clear implicits.

(** ** Two element types

    [int_like] stands for a type such as [int]: it moves without throwing
    and a moved-from object keeps its value.  [copy_only] stands for a type
    with a copy constructor and a move constructor that may throw, which
    the source relocates by copy. *)
Definition int_like : Element Z := {|
  is_nothrow_move_constructible := true;
  is_copy_constructible := true;
  is_nothrow_copy_assignable := true;
  is_nothrow_move_assignable := true;
  sizeof_T := 8;
  moved_from := λ x, x;
  value_initialized := 0%Z;
|}.

Definition copy_only : Element Z := {|
  is_nothrow_move_constructible := false;
  is_copy_constructible := true;
  is_nothrow_copy_assignable := true;
  is_nothrow_move_assignable := true;
  sizeof_T := 8;
  moved_from := λ x, x;
  value_initialized := 0%Z;
|}.

(** [emptied_by_move] stands for a type such as [std::string]: its move
    constructor does not throw and leaves the source empty, written 0. *)
Definition emptied_by_move : Element Z := {|
  is_nothrow_move_constructible := true;
  is_copy_constructible := true;
  is_nothrow_copy_assignable := true;
  is_nothrow_move_assignable := true;
  sizeof_T := 8;
  moved_from := λ _, 0%Z;
  value_initialized := 0%Z;
|}.

(** [throwing_assignment] stands for a type whose assignment operators
    may throw, as the copy assignment of [std::string] may. *)
Definition throwing_assignment : Element Z := {|
  is_nothrow_move_constructible := true;
  is_copy_constructible := true;
  is_nothrow_copy_assignable := false;
  is_nothrow_move_assignable := false;
  sizeof_T := 8;
  moved_from := λ x, x;
  value_initialized := 0%Z;
|}.

(** A container with the given block address, live elements and capacity. *)
Definition vector_of (addr : nat) (xs : list Z) (cap : nat) : Vector Z :=
  mkVector (mkRawMemory (mkBlock addr (layout xs cap)) cap) (length xs).

(** A world where the calls that may throw behave as [script] says. *)
Definition world_of (script : list bool) (next : nat) : World Z :=
  mkWorld script next [] 0.

(** * Properties *)

Section Properties.
Context {T : Type} {elem : Element T}.
Implicit Types (w : World T) (v this other rhs : Vector T) (xs ys : list T).
Implicit Types (buf src dst l : list (Slot T)).

Lemma stable_refl w : stable w w.
Proof. repeat split. by exists 0. Qed.

Lemma stable_trans w1 w2 w3 : stable w1 w2 → stable w2 w3 → stable w1 w3.
Proof.
  intros (? & ? & ? & k1 & Hk1) (? & ? & ? & k2 & Hk2).
  repeat split; try congruence.
  exists (k1 + k2). rewrite Hk2, Hk1, drop_drop. done.
Qed.

Lemma stable_quiet w w' : stable w w' → throws w = [] → w' = w.
Proof.
  intros (? & ? & ? & k & Hk) Hq. rewrite Hq, drop_nil in Hk.
  destruct w, w'; simpl in *; congruence.
Qed.

Lemma may_throw_stable w b w' : may_throw w = (b, w') → stable w w'.
Proof.
  unfold may_throw. destruct (throws w) as [|b0 rest] eqn:E; intros [= <- <-].
  - apply stable_refl.
  - repeat split; simpl. exists 1. by rewrite E.
Qed.

Lemma may_throw_quiet w : throws w = [] → may_throw w = (false, w).
Proof. unfold may_throw. by intros ->. Qed.

Lemma may_throw_true w w' : may_throw w = (true, w') → throws w ≠ [].
Proof. unfold may_throw. destruct (throws w); [intros [=]|done]. Qed.

Lemma move_may_throw_stable w b w' : move_may_throw w = (b, w') → stable w w'.
Proof.
  unfold move_may_throw. destruct is_nothrow_move_constructible.
  - intros [= <- <-]. apply stable_refl.
  - apply may_throw_stable.
Qed.

Lemma move_may_throw_true w w' :
  move_may_throw w = (true, w') →
  throws w ≠ [] ∧ is_nothrow_move_constructible = false.
Proof.
  unfold move_may_throw. destruct is_nothrow_move_constructible; [intros [=]|].
  intros ?%may_throw_true. done.
Qed.

Lemma may_throw_unless_stable nothrow w b w' :
  may_throw_unless nothrow w = (b, w') → stable w w'.
Proof.
  unfold may_throw_unless. destruct nothrow.
  - intros [= <- <-]. apply stable_refl.
  - apply may_throw_stable.
Qed.

Lemma may_throw_unless_true nothrow w w' :
  may_throw_unless nothrow w = (true, w') → throws w ≠ [] ∧ nothrow = false.
Proof.
  unfold may_throw_unless. destruct nothrow; [intros [=]|].
  intros ?%may_throw_true. done.
Qed.

Lemma may_throw_unless_false nothrow w w' :
  may_throw_unless nothrow w = (false, w') → assigned nothrow w w'.
Proof.
  intros Hw. split; [by eapply may_throw_unless_stable|].
  intros ->. simpl in Hw. congruence.
Qed.

Lemma assigned_refl nothrow w : assigned nothrow w w.
Proof. split; [apply stable_refl|done]. Qed.

Lemma assigned_trans nothrow w1 w2 w3 :
  assigned nothrow w1 w2 → assigned nothrow w2 w3 → assigned nothrow w1 w3.
Proof.
  intros [? H1] [? H2]. split; [by eapply stable_trans|].
  intros Hnt. by rewrite (H2 Hnt), (H1 Hnt).
Qed.

Lemma stable_throws w w' : stable w w' → throws w' ≠ [] → throws w ≠ [].
Proof. intros Hst Hne Hq. apply Hne. by rewrite (stable_quiet _ _ Hst Hq). Qed.

(** *** One slot in the middle of a block *)

Lemma insert_middle l1 l2 (a b : Slot T) :
  <[length l1:=b]> (l1 ++ a :: l2) = l1 ++ b :: l2.
Proof.
  rewrite insert_app_r_alt by done. by rewrite Nat.sub_diag.
Qed.

Lemma read_middle l1 l2 x : read (l1 ++ Obj x :: l2) (length l1) = Some x.
Proof. unfold read. by rewrite list_lookup_middle. Qed.

Lemma construct_at_middle l1 l2 x w :
  construct_at (l1 ++ Raw :: l2) (length l1) x w = (l1 ++ Obj x :: l2, w).
Proof.
  unfold construct_at. rewrite list_lookup_middle by done.
  by rewrite insert_middle.
Qed.

Lemma assign_at_middle l1 l2 y x w :
  assign_at (l1 ++ Obj y :: l2) (length l1) x w = (l1 ++ Obj x :: l2, w).
Proof.
  unfold assign_at. rewrite list_lookup_middle by done.
  by rewrite insert_middle.
Qed.

Lemma destroy_at_middle l1 l2 y w :
  destroy_at (l1 ++ Obj y :: l2) (length l1) w = (l1 ++ Raw :: l2, w).
Proof.
  unfold destroy_at. rewrite list_lookup_middle by done.
  by rewrite insert_middle.
Qed.

(** *** The loops over a range of slots

    Each is stated on a block split as [l1 ++ range ++ l2], with the range
    starting at index [length l1]. *)

Lemma destroy_n_spec xs : ∀ l1 l2 i w,
  i = length l1 →
  destroy_n (l1 ++ (Obj <$> xs) ++ l2) i (length xs) w
  = (l1 ++ replicate (length xs) Raw ++ l2, w).
Proof.
  induction xs as [|x xs IH]; intros l1 l2 i w ->; [done|].
  cbn [destroy_n length fmap list_fmap app replicate].
  rewrite destroy_at_middle.
  specialize (IH (l1 ++ [Raw]) l2 (S (length l1)) w).
  rewrite <-!(app_assoc _ [Raw]) in IH. simpl in IH.
  apply IH. rewrite length_app. simpl. lia.
Qed.

Lemma uninitialized_copy_n_spec xs : ∀ s1 s2 d1 d2 i j w,
  i = length s1 → j = length d1 →
  match uninitialized_copy_n (s1 ++ (Obj <$> xs) ++ s2) i (length xs)
          (d1 ++ replicate (length xs) Raw ++ d2) j w with
  | Ret _ (dst, w') => dst = d1 ++ (Obj <$> xs) ++ d2 ∧ stable w w'
  | Exc (dst, w') =>
      dst = d1 ++ replicate (length xs) Raw ++ d2 ∧ stable w w' ∧
      throws w ≠ []
  end.
Proof.
  induction xs as [|x xs IH]; intros s1 s2 d1 d2 i j w -> ->.
  { simpl. split; [done|apply stable_refl]. }
  cbn [uninitialized_copy_n length fmap list_fmap app replicate].
  rewrite read_middle. unfold placement_new.
  destruct (may_throw w) as [[] w1] eqn:Hw.
  { split; [done|]. split; [by eapply may_throw_stable|by eapply may_throw_true]. }
  rewrite construct_at_middle.
  specialize (IH (s1 ++ [Obj x]) s2 (d1 ++ [Obj x]) d2
                 (S (length s1)) (S (length d1)) w1).
  rewrite <-!(app_assoc _ [Obj x]) in IH. simpl in IH.
  destruct (uninitialized_copy_n _ _ _ _ _ _) as [[] [dst w2]|[dst w2]].
  - destruct IH as [-> Hst]; [rewrite length_app; simpl; lia..|].
    split; [done|]. eapply stable_trans; [by eapply may_throw_stable|done].
  - destruct IH as (-> & Hst & Hne); [rewrite length_app; simpl; lia..|].
    rewrite destroy_at_middle. split; [done|].
    split; [eapply stable_trans; [by eapply may_throw_stable|done]|].
    intros Hq. rewrite (may_throw_quiet _ Hq) in Hw. congruence.
Qed.

Lemma uninitialized_move_n_spec xs : ∀ s1 s2 d1 d2 i j w,
  i = length s1 → j = length d1 →
  match uninitialized_move_n (s1 ++ (Obj <$> xs) ++ s2) i (length xs)
          (d1 ++ replicate (length xs) Raw ++ d2) j w with
  | Ret _ (src, dst, w') =>
      src = s1 ++ (Obj <$> (moved_from <$> xs)) ++ s2 ∧
      dst = d1 ++ (Obj <$> xs) ++ d2 ∧ stable w w'
  | Exc (src, dst, w') =>
      (∃ ys, length ys = length xs ∧ src = s1 ++ (Obj <$> ys) ++ s2) ∧
      dst = d1 ++ replicate (length xs) Raw ++ d2 ∧ stable w w' ∧
      throws w ≠ [] ∧ is_nothrow_move_constructible = false
  end.
Proof.
  induction xs as [|x xs IH]; intros s1 s2 d1 d2 i j w -> ->.
  { simpl. split; [done|]. split; [done|]. apply stable_refl. }
  cbn [uninitialized_move_n length fmap list_fmap app replicate].
  rewrite read_middle.
  destruct (move_may_throw w) as [[] w1] eqn:Hw.
  { split; [by exists (x :: xs)|]. split; [done|].
    split; [by eapply move_may_throw_stable|by eapply move_may_throw_true]. }
  rewrite construct_at_middle, insert_middle.
  specialize (IH (s1 ++ [Obj (moved_from x)]) s2 (d1 ++ [Obj x]) d2
                 (S (length s1)) (S (length d1)) w1).
  rewrite <-!(app_assoc _ [Obj _]) in IH. simpl in IH.
  destruct (uninitialized_move_n _ _ _ _ _ _) as [[] [[src dst] w2]|[[src dst] w2]].
  - destruct IH as (-> & -> & Hst); [rewrite length_app; simpl; lia..|].
    split; [done|]. split; [done|].
    eapply stable_trans; [by eapply move_may_throw_stable|done].
  - destruct IH as ((ys & Hlen & ->) & -> & Hst & Hne & Hnt);
      [rewrite length_app; simpl; lia..|].
    rewrite destroy_at_middle.
    split.
    { exists (moved_from x :: ys). simpl. rewrite Hlen, <-app_assoc. done. }
    split; [done|].
    split; [eapply stable_trans; [by eapply move_may_throw_stable|done]|].
    split; [|done]. intros Hq. unfold move_may_throw in Hw.
    rewrite Hnt, (may_throw_quiet _ Hq) in Hw. congruence.
Qed.

Lemma uninitialized_value_construct_n_spec n : ∀ l1 l2 i w,
  i = length l1 →
  match uninitialized_value_construct_n (l1 ++ replicate n Raw ++ l2) i n w
  with
  | Ret _ (buf, w') =>
      buf = l1 ++ (Obj <$> replicate n value_initialized) ++ l2 ∧ stable w w'
  | Exc (buf, w') =>
      buf = l1 ++ replicate n Raw ++ l2 ∧ stable w w' ∧ throws w ≠ []
  end.
Proof.
  induction n as [|n IH]; intros l1 l2 i w ->.
  { simpl. split; [done|apply stable_refl]. }
  cbn [uninitialized_value_construct_n fmap list_fmap app replicate].
  unfold placement_new.
  destruct (may_throw w) as [[] w1] eqn:Hw.
  { split; [done|]. split; [by eapply may_throw_stable|by eapply may_throw_true]. }
  rewrite construct_at_middle.
  specialize (IH (l1 ++ [Obj value_initialized]) l2 (S (length l1)) w1).
  rewrite <-!(app_assoc _ [Obj _]) in IH. simpl in IH.
  destruct (uninitialized_value_construct_n _ _ _ _) as [[] [buf w2]|[buf w2]].
  - destruct IH as [-> Hst]; [rewrite length_app; simpl; lia|].
    split; [done|]. eapply stable_trans; [by eapply may_throw_stable|done].
  - destruct IH as (-> & Hst & Hne); [rewrite length_app; simpl; lia|].
    rewrite destroy_at_middle. split; [done|].
    split; [eapply stable_trans; [by eapply may_throw_stable|done]|].
    intros Hq. rewrite (may_throw_quiet _ Hq) in Hw. congruence.
Qed.

Lemma assign_middle nothrow l1 l2 y x w :
  match assign nothrow (l1 ++ Obj y :: l2) (length l1) x w with
  | Ret _ (buf, w') => buf = l1 ++ Obj x :: l2 ∧ assigned nothrow w w'
  | Exc (buf, w') =>
      buf = l1 ++ Obj y :: l2 ∧ stable w w' ∧ throws w ≠ [] ∧ nothrow = false
  end.
Proof.
  unfold assign. destruct (may_throw_unless nothrow w) as [[] w1] eqn:Hw.
  - split; [done|]. split; [by eapply may_throw_unless_stable|].
    by eapply may_throw_unless_true.
  - rewrite assign_at_middle. split; [done|by eapply may_throw_unless_false].
Qed.

Lemma copy_loop_spec xs : ∀ ys s1 s2 d1 d2 i j w,
  i = length s1 → j = length d1 → length ys = length xs →
  match copy_loop (s1 ++ (Obj <$> xs) ++ s2) i (length xs)
                  (d1 ++ (Obj <$> ys) ++ d2) j w with
  | Ret _ (dst, w') =>
      dst = d1 ++ (Obj <$> xs) ++ d2 ∧ assigned is_nothrow_copy_assignable w w'
  | Exc (dst, w') =>
      (∃ zs, length zs = length xs ∧ dst = d1 ++ (Obj <$> zs) ++ d2) ∧
      stable w w' ∧ throws w ≠ [] ∧ is_nothrow_copy_assignable = false
  end.
Proof.
  induction xs as [|x xs IH]; intros [|y ys] s1 s2 d1 d2 i j w -> -> Hlen;
    try done.
  { simpl. split; [done|apply assigned_refl]. }
  cbn [copy_loop length fmap list_fmap app].
  rewrite read_middle.
  pose proof (assign_middle is_nothrow_copy_assignable d1
                ((Obj <$> ys) ++ d2) y x w) as Hassign.
  destruct (assign _ _ _ _ _) as [[] [dst1 w1]|[dst1 w1]].
  2:{ destruct Hassign as (-> & ? & ? & ?). split; [|done].
      exists (y :: ys). split; [exact Hlen|done]. }
  destruct Hassign as [-> Has].
  specialize (IH ys (s1 ++ [Obj x]) s2 (d1 ++ [Obj x]) d2
                 (S (length s1)) (S (length d1)) w1).
  rewrite <-!(app_assoc _ [Obj _]) in IH. simpl in IH.
  destruct (copy_loop _ _ _ _ _ _) as [[] [dst w2]|[dst w2]].
  - destruct IH as [-> Has2]; [rewrite length_app; simpl; lia..|simpl in Hlen; lia|].
    split; [done|by eapply assigned_trans].
  - destruct IH as ((zs & Hzs & ->) & Hst & Hne & Hnt);
      [rewrite length_app; simpl; lia..|simpl in Hlen; lia|].
    split; [exists (x :: zs); simpl; by rewrite Hzs, <-app_assoc|].
    destruct Has as [Hst1 _].
    split; [by eapply stable_trans|]. split; [by eapply stable_throws|done].
Qed.

Lemma move_assign_within_down l1 l2 z y w :
  match move_assign_within (l1 ++ Obj z :: Obj y :: l2) (S (length l1))
          (length l1) w with
  | Ret _ (buf, w') =>
      buf = l1 ++ Obj y :: Obj (moved_from y) :: l2 ∧
      assigned is_nothrow_move_assignable w w'
  | Exc (buf, w') =>
      buf = l1 ++ Obj z :: Obj y :: l2 ∧ stable w w' ∧ throws w ≠ [] ∧
      is_nothrow_move_assignable = false
  end.
Proof.
  unfold move_assign_within.
  replace (read _ (S (length l1))) with (Some y).
  2:{ rewrite (cons_middle (Obj z)), app_assoc.
      replace (S (length l1)) with (length (l1 ++ [Obj z]))
        by (rewrite length_app; simpl; lia).
      by rewrite read_middle. }
  pose proof (assign_middle is_nothrow_move_assignable l1 (Obj y :: l2) z y w)
    as Hassign.
  destruct (assign _ _ _ _ _) as [[] [buf1 w1]|[buf1 w1]]; [|done].
  destruct Hassign as [-> Has]. split; [|done].
  rewrite (cons_middle (Obj y) l1), app_assoc.
  replace (S (length l1)) with (length (l1 ++ [Obj y]))
    by (rewrite length_app; simpl; lia).
  rewrite insert_middle, <-app_assoc. done.
Qed.

Lemma move_assign_within_up l1 l2 y z w :
  match move_assign_within (l1 ++ Obj y :: Obj z :: l2) (length l1)
          (S (length l1)) w with
  | Ret _ (buf, w') =>
      buf = l1 ++ Obj (moved_from y) :: Obj y :: l2 ∧
      assigned is_nothrow_move_assignable w w'
  | Exc (buf, w') =>
      buf = l1 ++ Obj y :: Obj z :: l2 ∧ stable w w' ∧ throws w ≠ [] ∧
      is_nothrow_move_assignable = false
  end.
Proof.
  unfold move_assign_within. rewrite read_middle.
  pose proof (assign_middle is_nothrow_move_assignable (l1 ++ [Obj y]) l2 z y w)
    as Hassign.
  rewrite length_app, <-app_assoc in Hassign. simpl in Hassign.
  replace (length l1 + 1) with (S (length l1)) in Hassign by lia.
  destruct (assign _ _ _ _ _) as [[] [buf1 w1]|[buf1 w1]]; [|done].
  destruct Hassign as [-> Has]. split; [|done].
  rewrite <-app_assoc. simpl. by rewrite insert_middle.
Qed.

Lemma move_loop_spec ys : ∀ z l1 l2 i w,
  i = length l1 →
  match move_loop (l1 ++ Obj z :: (Obj <$> ys) ++ l2) (S i) (length ys) i w with
  | Ret _ (buf, w') =>
      buf = l1 ++ (Obj <$> ys) ++ Obj (residue z ys) :: l2 ∧
      assigned is_nothrow_move_assignable w w'
  | Exc (buf, w') =>
      (∃ zs, length zs = S (length ys) ∧ buf = l1 ++ (Obj <$> zs) ++ l2) ∧
      stable w w' ∧ throws w ≠ [] ∧ is_nothrow_move_assignable = false
  end.
Proof.
  induction ys as [|y ys IH]; intros z l1 l2 i w ->.
  { simpl. split; [done|apply assigned_refl]. }
  cbn [move_loop length fmap list_fmap app residue].
  pose proof (move_assign_within_down l1 ((Obj <$> ys) ++ l2) z y w) as Hstep.
  destruct (move_assign_within _ _ _ _) as [[] [buf1 w1]|[buf1 w1]].
  2:{ destruct Hstep as (-> & ? & ? & ?). split; [|done].
      by exists (z :: y :: ys). }
  destruct Hstep as [-> Has].
  specialize (IH (moved_from y) (l1 ++ [Obj y]) l2 (S (length l1)) w1).
  rewrite <-!(app_assoc _ [Obj _]) in IH. simpl in IH.
  destruct (move_loop _ _ _ _ _) as [[] [buf w2]|[buf w2]].
  - destruct IH as [-> Has2]; [rewrite length_app; simpl; lia|].
    split; [done|by eapply assigned_trans].
  - destruct IH as ((zs & Hzs & ->) & Hst & Hne & Hnt);
      [rewrite length_app; simpl; lia|].
    split; [exists (y :: zs); simpl; by rewrite Hzs, <-app_assoc|].
    destruct Has as [Hst1 _].
    split; [by eapply stable_trans|]. split; [by eapply stable_throws|done].
Qed.

Lemma move_backward_loop_spec ys : ∀ z l1 l2 i w,
  i = length l1 + length ys →
  match move_backward_loop (l1 ++ (Obj <$> ys) ++ Obj z :: l2) i (length ys)
          (S i) w with
  | Ret _ (buf, w') =>
      buf = l1 ++ shifted ys z ++ l2 ∧
      assigned is_nothrow_move_assignable w w'
  | Exc (buf, w') =>
      (∃ zs, length zs = S (length ys) ∧ buf = l1 ++ (Obj <$> zs) ++ l2) ∧
      stable w w' ∧ throws w ≠ [] ∧ is_nothrow_move_assignable = false
  end.
Proof.
  induction ys as [|y ys IH] using rev_ind; intros z l1 l2 i w ->.
  { simpl. split; [done|apply assigned_refl]. }
  rewrite length_app, fmap_app. simpl.
  replace (length l1 + (length ys + 1)) with (S (length l1 + length ys)) by lia.
  replace (length ys + 1) with (S (length ys)) by lia.
  cbn [move_backward_loop].
  rewrite <-(app_assoc (Obj <$> ys)), (app_assoc l1). simpl.
  replace (length l1 + length ys) with (length (l1 ++ (Obj <$> ys)))
    by (rewrite length_app, length_fmap; done).
  pose proof (move_assign_within_up (l1 ++ (Obj <$> ys)) l2 y z w) as Hstep.
  destruct (move_assign_within _ _ _ _) as [[] [buf1 w1]|[buf1 w1]].
  2:{ destruct Hstep as (-> & ? & ? & ?). split; [|done].
      exists (ys ++ [y; z]). rewrite length_app. simpl. split; [lia|].
      rewrite fmap_app, <-!app_assoc. done. }
  destruct Hstep as [-> Has].
  rewrite <-(app_assoc l1).
  specialize (IH (moved_from y) l1 (Obj y :: l2) (length (l1 ++ (Obj <$> ys))) w1).
  destruct (move_backward_loop _ _ _ _ _) as [[] [buf w2]|[buf w2]].
  - destruct IH as [-> Has2]; [rewrite length_app, length_fmap; done|].
    split; [|by eapply assigned_trans].
    destruct ys as [|y0 ys]; [done|].
    cbn [shifted app]. rewrite !fmap_cons, fmap_app. simpl.
    by rewrite <-app_assoc.
  - destruct IH as ((zs & Hzs & ->) & Hst & Hne & Hnt);
      [rewrite length_app, length_fmap; done|].
    split.
    { exists (zs ++ [y]). rewrite length_app. simpl. split; [lia|].
      rewrite fmap_app, <-!app_assoc. done. }
    destruct Has as [Hst1 _].
    split; [by eapply stable_trans|]. split; [by eapply stable_throws|done].
Qed.

(** *** The invariant and the abstract contents *)

Lemma length_layout xs cap : length xs ≤ cap → length (layout xs cap) = cap.
Proof.
  intros. unfold layout. rewrite length_app, length_fmap, length_replicate. lia.
Qed.

Lemma lookup_layout_lt xs cap i x :
  xs !! i = Some x → layout xs cap !! i = Some (Obj x).
Proof.
  intros Hi. unfold layout. rewrite lookup_app_l.
  - by rewrite list_lookup_fmap, Hi.
  - rewrite length_fmap. by eapply lookup_lt_Some.
Qed.

Lemma lookup_layout_ge xs cap i :
  length xs ≤ i → i < cap → layout xs cap !! i = Some Raw.
Proof.
  intros. unfold layout. rewrite lookup_app_r; rewrite length_fmap; [|done].
  apply lookup_replicate_2. lia.
Qed.

Lemma read_layout xs cap i : read (layout xs cap) i = xs !! i.
Proof.
  unfold read. destruct (xs !! i) as [x|] eqn:Hi.
  - by rewrite (lookup_layout_lt _ _ _ _ Hi).
  - apply lookup_ge_None in Hi. unfold layout.
    rewrite lookup_app_r; rewrite length_fmap; [|done].
    destruct (replicate _ _ !! _) as [c|] eqn:Hc; [|done].
    by apply lookup_replicate in Hc as [-> _].
Qed.

Lemma represents_Invariant v xs : represents v xs → Invariant v.
Proof.
  intros (Hsz & Hcap & Hmem). unfold Invariant. rewrite Hmem, Hsz.
  split; [done|]. split; [by apply length_layout|]. split.
  - intros i Hi. destruct (lookup_lt_is_Some_2 xs i Hi) as [x Hx].
    exists x. by apply lookup_layout_lt.
  - intros i ??. by apply lookup_layout_ge.
Qed.

Lemma Invariant_represents v : Invariant v → ∃ xs, represents v xs.
Proof.
  intros (Hle & Hlen & Hlive & Hraw).
  assert (∀ n, n ≤ size_ v → ∃ xs, length xs = n ∧
            take n (mem (data_ v)) = Obj <$> xs) as Hpre.
  { induction n as [|n IH]; intros Hn.
    - exists []. by rewrite take_0.
    - destruct IH as (xs & Hxs & Htake); [lia|].
      destruct (Hlive n) as [x Hx]; [lia|].
      exists (xs ++ [x]). rewrite length_app. simpl. split; [lia|].
      by rewrite (take_S_r _ _ _ Hx), Htake, fmap_app. }
  destruct (Hpre (size_ v)) as (xs & Hxs & Htake); [done|].
  exists xs. split; [done|]. split; [lia|].
  rewrite <-(take_drop (size_ v) (mem (data_ v))), Htake. unfold layout.
  f_equal. apply list_eq. intros i. rewrite lookup_drop, Hxs.
  destruct (decide (size_ v + i < capacity_ (data_ v))) as [Hi|Hi].
  - rewrite (Hraw (size_ v + i)) by lia. symmetry.
    apply lookup_replicate_2. lia.
  - replace (replicate _ _ !! i) with (@None (Slot T))
      by (symmetry; apply lookup_replicate_None; lia).
    apply lookup_ge_None. lia.
Qed.

Lemma index_represents v xs i : represents v xs → index v i = xs !! i.
Proof. intros (_ & _ & Hmem). unfold index. rewrite Hmem. apply read_layout. Qed.

Lemma represents_inj v xs ys : represents v xs → represents v ys → xs = ys.
Proof.
  intros Hx Hy. apply list_eq. intros i.
  by rewrite <-(index_represents v xs i), <-(index_represents v ys i).
Qed.

(** *** Allocation and release *)

Lemma calm_refl w : calm w w.
Proof. done. Qed.

Lemma calm_trans w1 w2 w3 : calm w1 w2 → calm w2 w3 → calm w1 w3.
Proof. intros [? ?] [? ?]. split; [congruence|auto]. Qed.

Lemma stable_calm w w' : stable w w' → calm w w'.
Proof.
  intros (_ & _ & ? & k & Hk). split; [done|].
  intros Hq. by rewrite Hk, Hq, drop_nil.
Qed.

Lemma Deallocate_calm (b : Block T) w : calm w (Deallocate b w).
Proof. unfold Deallocate. by destruct (base b =? 0). Qed.

Lemma RawMemory_delete_calm (m : RawMemory T) w : calm w (RawMemory_delete m w).
Proof. apply Deallocate_calm. Qed.

Lemma RawMemory_new_spec n w :
  match RawMemory_new n w with
  | Ret m w' => mem m = replicate n Raw ∧ capacity_ m = n ∧ calm w w'
  | Exc w' => calm w w' ∧ throws w ≠ []
  end.
Proof.
  unfold RawMemory_new, Allocate. destruct (n =? 0) eqn:Hn.
  { apply Nat.eqb_eq in Hn as ->. done. }
  destruct (may_throw w) as [[] w1] eqn:Hw.
  - split; [|by eapply may_throw_true].
    by eapply stable_calm, may_throw_stable.
  - split; [done|]. split; [done|].
    apply may_throw_stable, stable_calm in Hw as [? ?]. by split.
Qed.

(** *** The loops on the block of a container *)

Lemma layout_split xs cap i n :
  i + n ≤ length xs →
  layout xs cap
  = (Obj <$> take i xs) ++ (Obj <$> take n (drop i xs))
    ++ ((Obj <$> drop (i + n) xs) ++ replicate (cap - length xs) Raw).
Proof.
  intros. unfold layout.
  rewrite <-(take_drop i xs) at 1. rewrite <-(take_drop n (drop i xs)) at 1.
  rewrite drop_drop, !fmap_app, <-!app_assoc. done.
Qed.

Lemma layout_app xs ys cap :
  layout (xs ++ ys) cap
  = (Obj <$> xs) ++ (Obj <$> ys) ++ replicate (cap - length xs - length ys) Raw.
Proof.
  unfold layout. rewrite fmap_app, length_app, <-app_assoc.
  do 3 f_equal. lia.
Qed.

Lemma replicate_split {A} (a : A) n k :
  k ≤ n → replicate n a = replicate k a ++ replicate (n - k) a.
Proof. intros. rewrite <-replicate_add. f_equal. lia. Qed.

Lemma uninitialized_copy_n_layout xs cap i n d1 d2 w :
  i + n ≤ length xs →
  match uninitialized_copy_n (layout xs cap) i n
          (d1 ++ replicate n Raw ++ d2) (length d1) w with
  | Ret _ (dst, w') =>
      dst = d1 ++ (Obj <$> take n (drop i xs)) ++ d2 ∧ stable w w'
  | Exc (dst, w') =>
      dst = d1 ++ replicate n Raw ++ d2 ∧ stable w w' ∧ throws w ≠ []
  end.
Proof.
  intros Hin. rewrite (layout_split xs cap i n Hin).
  pose proof (uninitialized_copy_n_spec (take n (drop i xs)) (Obj <$> take i xs)
    ((Obj <$> drop (i + n) xs) ++ replicate (cap - length xs) Raw)
    d1 d2 i (length d1) w) as Hspec.
  rewrite length_take_le in Hspec by (rewrite length_drop; lia).
  apply Hspec; [|done]. rewrite length_fmap, length_take_le; lia.
Qed.

Lemma length_moved_range xs i n :
  i + n ≤ length xs →
  length (take i xs ++ (moved_from <$> take n (drop i xs)) ++ drop (i + n) xs)
  = length xs.
Proof.
  intros. rewrite !length_app, length_fmap, !length_take, !length_drop. lia.
Qed.

Lemma uninitialized_move_n_layout xs cap i n d1 d2 w :
  i + n ≤ length xs →
  match uninitialized_move_n (layout xs cap) i n
          (d1 ++ replicate n Raw ++ d2) (length d1) w with
  | Ret _ (src, dst, w') =>
      src = layout (take i xs ++ (moved_from <$> take n (drop i xs))
                    ++ drop (i + n) xs) cap ∧
      dst = d1 ++ (Obj <$> take n (drop i xs)) ++ d2 ∧ stable w w'
  | Exc (src, dst, w') =>
      (∃ ys, length ys = length xs ∧ src = layout ys cap) ∧
      dst = d1 ++ replicate n Raw ++ d2 ∧ stable w w' ∧
      throws w ≠ [] ∧ is_nothrow_move_constructible = false
  end.
Proof.
  intros Hin. rewrite (layout_split xs cap i n Hin).
  pose proof (uninitialized_move_n_spec (take n (drop i xs)) (Obj <$> take i xs)
    ((Obj <$> drop (i + n) xs) ++ replicate (cap - length xs) Raw)
    d1 d2 i (length d1) w) as Hspec.
  assert (length (take n (drop i xs)) = n) as Hn
    by (rewrite length_take_le; [done|rewrite length_drop; lia]).
  rewrite Hn in Hspec.
  destruct (uninitialized_move_n _ _ _ _ _ _) as [[] [[src dst] w']|[[src dst] w']].
  - destruct Hspec as (-> & -> & Hst);
      [rewrite length_fmap, length_take_le; lia|done|].
    split; [|done]. unfold layout.
    rewrite (length_moved_range xs i n Hin), !fmap_app, <-!app_assoc. done.
  - destruct Hspec as ((ys & Hys & ->) & -> & Hst & Hne & Hnt);
      [rewrite length_fmap, length_take_le; lia|done|].
    split; [|done].
    exists (take i xs ++ ys ++ drop (i + n) xs). split.
    + rewrite !length_app, Hys, length_take, length_drop. lia.
    + unfold layout. rewrite !fmap_app, <-!app_assoc. do 3 f_equal.
      rewrite !length_app, Hys, length_take, length_drop. f_equal. lia.
Qed.

Lemma destroy_n_layout xs cap i n w :
  length xs ≤ cap → i + n = length xs →
  destroy_n (layout xs cap) i n w = (layout (take i xs) cap, w).
Proof.
  intros Hcap Hin. unfold layout at 1.
  rewrite <-(take_drop i xs) at 1. rewrite fmap_app, <-app_assoc.
  pose proof (destroy_n_spec (drop i xs) (Obj <$> take i xs)
    (replicate (cap - length xs) Raw) i w) as Hspec.
  rewrite length_drop in Hspec. replace (length xs - i) with n in Hspec by lia.
  rewrite Hspec by (rewrite length_fmap, length_take_le; lia).
  unfold layout. rewrite <-replicate_add, length_take_le by lia.
  do 3 f_equal. lia.
Qed.

Lemma uninitialized_value_construct_n_layout xs cap n w :
  length xs + n ≤ cap →
  match uninitialized_value_construct_n (layout xs cap) (length xs) n w with
  | Ret _ (buf, w') =>
      buf = layout (xs ++ replicate n value_initialized) cap ∧ stable w w'
  | Exc (buf, w') => buf = layout xs cap ∧ stable w w' ∧ throws w ≠ []
  end.
Proof.
  intros Hcap. unfold layout at 1 3.
  rewrite (replicate_split Raw (cap - length xs) n) by lia.
  pose proof (uninitialized_value_construct_n_spec n (Obj <$> xs)
    (replicate (cap - length xs - n) Raw) (length xs) w) as Hspec.
  destruct (uninitialized_value_construct_n _ _ _ _) as [[] [buf w']|[buf w']].
  - destruct Hspec as [-> Hst]; [by rewrite length_fmap|]. split; [|done].
    by rewrite layout_app, length_replicate.
  - apply Hspec. by rewrite length_fmap.
Qed.

Lemma construct_at_layout xs cap x w :
  length xs < cap →
  construct_at (layout xs cap) (length xs) x w = (layout (xs ++ [x]) cap, w).
Proof.
  intros Hcap. rewrite layout_app. unfold layout.
  rewrite (replicate_split Raw (cap - length xs) 1) by lia. simpl.
  pose proof (construct_at_middle (Obj <$> xs)
    (replicate (cap - length xs - 1) Raw) x w) as Hmid.
  by rewrite length_fmap in Hmid.
Qed.

Lemma placement_new_layout xs cap x w :
  length xs < cap →
  match placement_new (layout xs cap) (length xs) x w with
  | Ret _ (buf, w') => buf = layout (xs ++ [x]) cap ∧ stable w w'
  | Exc (buf, w') => buf = layout xs cap ∧ stable w w' ∧ throws w ≠ []
  end.
Proof.
  intros Hcap. unfold placement_new.
  destruct (may_throw w) as [[] w1] eqn:Hw.
  { split; [done|]. split; [by eapply may_throw_stable|by eapply may_throw_true]. }
  rewrite construct_at_layout by done.
  split; [done|by eapply may_throw_stable].
Qed.

Lemma std_copy_layout ys cap' xs cap n w :
  n ≤ length ys → n ≤ length xs →
  match std_copy (layout ys cap') 0 n (layout xs cap) 0 w with
  | Ret _ (dst, w') =>
      dst = layout (take n ys ++ drop n xs) cap ∧
      assigned is_nothrow_copy_assignable w w'
  | Exc (dst, w') =>
      (∃ zs, length zs = length xs ∧ dst = layout zs cap) ∧
      stable w w' ∧ throws w ≠ [] ∧ is_nothrow_copy_assignable = false
  end.
Proof.
  intros Hy Hx. unfold std_copy. simpl. rewrite Nat.sub_0_r.
  rewrite (layout_split ys cap' 0 n) by done.
  rewrite (layout_split xs cap 0 n) by done.
  rewrite !take_0, !drop_0. simpl.
  pose proof (copy_loop_spec (take n ys) (take n xs) []
    ((Obj <$> drop n ys) ++ replicate (cap' - length ys) Raw) []
    ((Obj <$> drop n xs) ++ replicate (cap - length xs) Raw) 0 0 w) as Hspec.
  rewrite !length_take_le in Hspec by done. simpl in Hspec.
  destruct (copy_loop _ _ _ _ _ _) as [[] [dst w']|[dst w']].
  - destruct Hspec as [-> Has]; [done..|]. split; [|done].
    unfold layout. rewrite fmap_app, <-app_assoc.
    rewrite length_app, length_take_le, length_drop by done.
    do 4 f_equal. lia.
  - destruct Hspec as ((zs & Hzs & ->) & ?); [done..|]. split; [|done].
    exists (zs ++ drop n xs). rewrite length_app, Hzs, length_drop.
    split; [lia|]. unfold layout.
    rewrite fmap_app, <-app_assoc, length_app, Hzs, length_drop.
    do 4 f_equal. lia.
Qed.

Lemma placement_new_middle l1 l2 x w :
  match placement_new (l1 ++ Raw :: l2) (length l1) x w with
  | Ret _ (buf, w') => buf = l1 ++ Obj x :: l2 ∧ stable w w'
  | Exc (buf, w') => buf = l1 ++ Raw :: l2 ∧ stable w w' ∧ throws w ≠ []
  end.
Proof.
  unfold placement_new. destruct (may_throw w) as [[] w1] eqn:Hw.
  - split; [done|]. split; [by eapply may_throw_stable|by eapply may_throw_true].
  - rewrite construct_at_middle. split; [done|by eapply may_throw_stable].
Qed.

(** *** Append *)

Lemma calm_quiet w w' : calm w w' → throws w = [] → throws w' = [].
Proof. intros [_ Hq]. exact Hq. Qed.

Ltac calm_steps :=
  repeat first
    [ assumption
    | apply calm_refl
    | apply RawMemory_delete_calm
    | apply Deallocate_calm
    | apply stable_calm; assumption
    | eapply calm_trans; [eassumption|]
    | eapply calm_trans; [apply stable_calm; eassumption|] ].

Ltac still_throws :=
  let Hq := fresh "Hq" in
  intros Hq;
  match goal with
  | Hne : throws ?wk ≠ [] |- _ =>
      apply Hne; first [exact Hq | eapply calm_quiet; [|exact Hq]; calm_steps]
  end.

Lemma EmplaceBack_spec v xs x w :
  represents v xs →
  match EmplaceBack v x w with
  | Ret p (v', w') =>
      represents v' (xs ++ [x]) ∧
      Capacity v' = (if Size v <? Capacity v then Capacity v
                     else if Size v =? 0 then 1 else Size v * 2) ∧
      p = ptr_add (begin v') (length xs) ∧ calm w w'
  | Exc (v', w') =>
      (∃ ys, length ys = length xs ∧ represents v' ys) ∧
      Capacity v' = Capacity v ∧ calm w w' ∧ throws w ≠ []
  end.
Proof.
  destruct v as [[[b c] cap] sz].
  unfold represents, EmplaceBack, Size, Capacity, mem, store. simpl.
  intros (-> & Hcap & ->).
  destruct (length xs <? cap) eqn:Hlt.
  { apply Nat.ltb_lt in Hlt.
    pose proof (placement_new_layout xs cap x w Hlt) as Hnew.
    destruct (placement_new _ _ _ _) as [[] [c1 w1]|[c1 w1]]; simpl.
    - destruct Hnew as [-> Hst]. rewrite length_app. simpl.
      split_and!; [lia|lia|done..|calm_steps].
    - destruct Hnew as (-> & Hst & Hne).
      split_and!; [by exists xs|done|calm_steps|done]. }
  apply Nat.ltb_ge in Hlt. assert (cap = length xs) as -> by lia.
  set (newcap := if length xs =? 0 then 1 else length xs * 2).
  assert (length xs < newcap) as Hnewcap.
  { unfold newcap. destruct (Nat.eqb_spec (length xs) 0); lia. }
  pose proof (RawMemory_new_spec newcap w) as Halloc.
  destruct (RawMemory_new newcap w) as [[[nb nc] ncap] w1|w1];
    unfold mem in Halloc; simpl in *.
  2:{ destruct Halloc as [Hc Hne]. split; [by exists xs|]. done. }
  destruct Halloc as (-> & -> & Hc1).
  rewrite (replicate_split Raw newcap (length xs)) by lia.
  rewrite (replicate_split Raw (newcap - length xs) 1) by lia. simpl.
  pose proof (placement_new_middle (replicate (length xs) Raw)
    (replicate (newcap - length xs - 1) Raw) x w1) as Hnew.
  rewrite length_replicate in Hnew.
  destruct (placement_new _ _ _ _) as [[] [c2 w2]|[c2 w2]]; simpl.
  2:{ destruct Hnew as (-> & Hst & Hne).
      split_and!; [by exists xs|done|calm_steps|still_throws]. }
  destruct Hnew as [-> Hst2].
  assert (layout (xs ++ [x]) newcap
          = (Obj <$> xs) ++ Obj x :: replicate (newcap - length xs - 1) Raw)
    as Hfinal by (by rewrite layout_app).
  destruct relocate_by_move.
  - pose proof (uninitialized_move_n_layout xs (length xs) 0 (length xs) []
      (Obj x :: replicate (newcap - length xs - 1) Raw) w2) as Hmove.
    simpl in Hmove.
    destruct (uninitialized_move_n _ _ _ _ _ _)
      as [[] [[old new] w3]|[[old new] w3]].
    + destruct Hmove as (-> & -> & Hst3); [done|].
      rewrite drop_0, take_ge, drop_all, app_nil_r by done.
      rewrite destroy_n_layout;
        [|by rewrite length_fmap|by rewrite length_fmap].
      simpl. rewrite length_app. simpl. rewrite Hfinal.
      split_and!; [lia|lia|done..|calm_steps].
    + destruct Hmove as ((ys & Hys & ->) & -> & Hst3 & Hne & _); [done|].
      simpl.
      split_and!; [exists ys; by rewrite Hys|done|calm_steps|still_throws].
  - pose proof (uninitialized_copy_n_layout xs (length xs) 0 (length xs) []
      (Obj x :: replicate (newcap - length xs - 1) Raw) w2) as Hcopy.
    simpl in Hcopy.
    destruct (uninitialized_copy_n _ _ _ _ _ _) as [[] [new w3]|[new w3]].
    + destruct Hcopy as (-> & Hst3); [done|].
      rewrite drop_0, take_ge by done.
      rewrite destroy_n_layout by done.
      simpl. rewrite length_app. simpl. rewrite Hfinal.
      split_and!; [lia|lia|done..|calm_steps].
    + destruct Hcopy as (-> & Hst3 & Hne); [done|].
      simpl. split_and!; [by exists xs|done|calm_steps|still_throws].
Qed.

(** *** Reserve and Resize *)

Lemma Reserve_spec v xs n w :
  represents v xs →
  match Reserve v n w with
  | Ret _ (v', w') =>
      represents v' xs ∧
      Capacity v' = (if n <=? Capacity v then Capacity v else n) ∧ calm w w'
  | Exc (v', w') =>
      (∃ ys, length ys = length xs ∧ represents v' ys) ∧
      Capacity v' = Capacity v ∧ calm w w' ∧ throws w ≠ []
  end.
Proof.
  destruct v as [[[b c] cap] sz].
  unfold represents, Reserve, Size, Capacity, mem, store. simpl.
  intros (-> & Hcap & ->).
  destruct (n <=? cap) eqn:Hle; [done|]. apply Nat.leb_gt in Hle.
  pose proof (RawMemory_new_spec n w) as Halloc.
  destruct (RawMemory_new n w) as [[[nb nc] ncap] w1|w1];
    unfold mem in Halloc; simpl in *.
  2:{ destruct Halloc as [Hc Hne]. split; [by exists xs|]. done. }
  destruct Halloc as (-> & -> & Hc1).
  rewrite (replicate_split Raw n (length xs)) by lia.
  destruct relocate_by_move.
  - pose proof (uninitialized_move_n_layout xs cap 0 (length xs) []
      (replicate (n - length xs) Raw) w1) as Hmove.
    simpl in Hmove.
    destruct (uninitialized_move_n _ _ _ _ _ _)
      as [[] [[old new] w2]|[[old new] w2]].
    + destruct Hmove as (-> & -> & Hst2); [done|].
      rewrite drop_0, take_ge, drop_all, app_nil_r by done.
      rewrite destroy_n_layout;
        [|by rewrite length_fmap|by rewrite length_fmap].
      simpl. split_and!; [done|lia|done..|calm_steps].
    + destruct Hmove as ((ys & Hys & ->) & -> & Hst2 & Hne & _); [done|].
      simpl.
      split_and!; [exists ys; by rewrite Hys|done|calm_steps|still_throws].
  - pose proof (uninitialized_copy_n_layout xs cap 0 (length xs) []
      (replicate (n - length xs) Raw) w1) as Hcopy.
    simpl in Hcopy.
    destruct (uninitialized_copy_n _ _ _ _ _ _) as [[] [new w2]|[new w2]].
    + destruct Hcopy as (-> & Hst2); [done|].
      rewrite drop_0, take_ge by done.
      rewrite destroy_n_layout by done.
      simpl. split_and!; [done|lia|done..|calm_steps].
    + destruct Hcopy as (-> & Hst2 & Hne); [done|].
      simpl. split_and!; [by exists xs|done|calm_steps|still_throws].
Qed.

Lemma Resize_spec v xs n w :
  represents v xs →
  match Resize v n w with
  | Ret _ (v', w') =>
      represents v' (take n xs ++ replicate (n - length xs) value_initialized) ∧
      Capacity v' = (if n <=? Capacity v then Capacity v else n) ∧ calm w w'
  | Exc (v', w') =>
      (∃ ys, length ys = length xs ∧ represents v' ys) ∧
      Capacity v ≤ Capacity v' ∧ calm w w' ∧ throws w ≠ []
  end.
Proof.
  intros Hv. unfold Resize. pose proof (Reserve_spec v xs n w Hv) as Hres.
  destruct (Reserve v n w) as [[] [v1 w1]|[v1 w1]].
  2:{ destruct Hres as (? & -> & ? & ?). done. }
  destruct Hres as (Hv1 & Hcap1 & Hc1).
  assert (n ≤ Capacity v1 ∧ Capacity v ≤ Capacity v1) as [Hn Hmono].
  { rewrite Hcap1. destruct (Nat.leb_spec n (Capacity v)); lia. }
  clear Hv. destruct v1 as [[[b c] cap] sz].
  unfold represents, Size, Capacity, mem, store in *. simpl in *.
  destruct Hv1 as (-> & Hcap & ->).
  destruct (length xs <? n) eqn:Hlt.
  { apply Nat.ltb_lt in Hlt.
    pose proof (uninitialized_value_construct_n_layout xs cap (n - length xs) w1)
      as Hval.
    destruct (uninitialized_value_construct_n _ _ _ _) as [[] [c1 w2]|[c1 w2]].
    - destruct Hval as [-> Hst]; [lia|]. simpl.
      rewrite take_ge, length_app, length_replicate by lia.
      split_and!; [lia|lia|done..|calm_steps].
    - destruct Hval as (-> & Hst & Hne); [lia|]. simpl.
      split_and!; [by exists xs|done|calm_steps|still_throws]. }
  apply Nat.ltb_ge in Hlt.
  replace (n - length xs) with 0 by lia. simpl. rewrite app_nil_r.
  destruct (n <? length xs) eqn:Hlt2.
  - apply Nat.ltb_lt in Hlt2.
    rewrite destroy_n_layout by lia. simpl.
    rewrite length_take_le by lia. done.
  - apply Nat.ltb_ge in Hlt2. assert (n = length xs) as -> by lia.
    simpl. rewrite take_ge by done. done.
Qed.

(** *** PopBack and Erase *)

Lemma destroy_at_layout xs cap k w :
  length xs ≤ cap → length xs = S k →
  destroy_at (layout xs cap) k w = (layout (take k xs) cap, w).
Proof.
  intros Hcap Hk.
  pose proof (destroy_n_layout xs cap k 1 w Hcap) as Hn. simpl in Hn.
  destruct (destroy_at (layout xs cap) k w). apply Hn. lia.
Qed.

Lemma PopBack_spec v xs w :
  represents v xs → 0 < length xs →
  ∃ v', PopBack v w = (v', w) ∧
        represents v' (take (length xs - 1) xs) ∧ Capacity v' = Capacity v.
Proof.
  destruct v as [[[b c] cap] sz].
  unfold represents, PopBack, Size, Capacity, mem, store. simpl.
  intros (-> & Hcap & ->) Hpos.
  destruct (length xs) as [|k] eqn:Hk; [lia|].
  rewrite destroy_at_layout by lia.
  eexists (mkVector (mkRawMemory (mkBlock b _) cap) _).
  split; [reflexivity|]. simpl.
  rewrite Nat.sub_0_r, length_take_le by lia. split_and!; [done|lia|done..].
Qed.

Lemma Erase_spec v xs k w :
  represents v xs → k < length xs →
  match Erase v (ptr_add (begin v) k) w with
  | Ret p (v', w') =>
      p = ptr_add (begin v') k ∧
      represents v' (take k xs ++ drop (S k) xs) ∧
      Capacity v' = Capacity v ∧ assigned is_nothrow_move_assignable w w'
  | Exc (v', w') =>
      (∃ ys, length ys = length xs ∧ represents v' ys) ∧
      Capacity v' = Capacity v ∧ stable w w' ∧ throws w ≠ [] ∧
      is_nothrow_move_assignable = false
  end.
Proof.
  destruct v as [[[b c] cap] sz].
  unfold represents, Erase, Size, Capacity, mem, store, ptr_eqb, end_, begin,
    GetAddress, ptr_add, ptr_diff, std_move. simpl.
  intros (-> & Hcap & ->) Hk.
  rewrite Nat.eqb_refl, Nat.sub_0_r. simpl.
  destruct (Nat.eqb_spec k (length xs)) as [|_]; [lia|].
  destruct (Nat.ltb_spec (length xs) (k + 1)) as [|_]; [lia|].
  destruct (lookup_lt_is_Some_2 xs k Hk) as [z Hz].
  assert (layout xs cap
          = (Obj <$> take k xs) ++ Obj z :: (Obj <$> drop (S k) xs)
            ++ replicate (cap - length xs) Raw) as Hsplit.
  { unfold layout. rewrite <-(take_drop_middle xs k z Hz) at 1.
    rewrite fmap_app, fmap_cons, <-app_assoc. done. }
  rewrite Hsplit, Nat.add_1_r.
  replace (length xs - S k) with (length (drop (S k) xs))
    by (rewrite length_drop; done).
  pose proof (move_loop_spec (drop (S k) xs) z (Obj <$> take k xs)
    (replicate (cap - length xs) Raw) k w) as Hmove.
  destruct (move_loop _ _ _ _ _) as [[] [c1 w1]|[c1 w1]].
  2:{ destruct Hmove as ((zs & Hzs & ->) & Hst & Hne & Hnt);
        [rewrite length_fmap, length_take_le; lia|].
      rewrite length_drop in Hzs. simpl. split_and!; [|done..].
      exists (take k xs ++ zs).
      rewrite length_app, length_take_le, Hzs by lia.
      split; [lia|]. split_and!; [lia|lia|].
      unfold layout. rewrite fmap_app, <-app_assoc.
      rewrite length_app, length_take_le, Hzs by lia.
      do 3 f_equal. lia. }
  destruct Hmove as [-> Has]; [rewrite length_fmap, length_take_le; lia|].
  rewrite app_assoc.
  pose proof (destroy_at_middle ((Obj <$> take k xs) ++ (Obj <$> drop (S k) xs))
    (replicate (cap - length xs) Raw) (residue z (drop (S k) xs)) w1) as Hlast.
  rewrite length_app, !length_fmap, length_take_le, length_drop in Hlast by lia.
  destruct (length xs) as [|last] eqn:Hlen; [lia|].
  replace (k + (S last - S k)) with last in Hlast by lia. rewrite Hlast.
  simpl.
  rewrite !length_app, length_take_le, length_drop, Hlen by lia.
  split_and!; [done|lia|lia| |done..].
  unfold layout. rewrite fmap_app, <-!app_assoc.
  rewrite !length_app, length_take_le, length_drop, Hlen by lia.
  rewrite (replicate_split Raw (cap - (k + (S last - S k))) 1) by lia.
  simpl. do 4 f_equal. lia.
Qed.

Lemma Erase_end v w : Erase v (end_ v) w = Ret (end_ v) (v, w).
Proof. unfold Erase, ptr_eqb. by rewrite !Nat.eqb_refl. Qed.

(** *** Constructors, assignment and Swap *)

Lemma Vector_default_represents : represents (Vector_default (T:=T)) [].
Proof. done. Qed.

Lemma Vector_sized_spec n w :
  match Vector_sized n w with
  | Ret v w' =>
      represents v (replicate n value_initialized) ∧ Capacity v = n ∧ calm w w'
  | Exc w' => calm w w' ∧ throws w ≠ []
  end.
Proof.
  unfold Vector_sized. pose proof (RawMemory_new_spec n w) as Halloc.
  destruct (RawMemory_new n w) as [[[nb nc] ncap] w1|w1]; [|done].
  unfold mem, store in *. simpl in *. destruct Halloc as (-> & -> & Hc1).
  pose proof (uninitialized_value_construct_n_layout [] n n w1) as Hval.
  unfold layout in Hval. simpl in Hval. rewrite Nat.sub_0_r in Hval.
  destruct (uninitialized_value_construct_n _ _ _ _) as [[] [c1 w2]|[c1 w2]].
  - destruct Hval as [-> Hst]; [done|].
    unfold represents, Capacity, layout, mem. simpl.
    rewrite length_replicate, Nat.sub_diag, app_nil_r. simpl.
    split_and!; [done..|calm_steps].
  - destruct Hval as (-> & Hst & Hne); [done|].
    split; [calm_steps|still_throws].
Qed.

Lemma Vector_copy_spec other xs w :
  represents other xs →
  match Vector_copy other w with
  | Ret v w' => represents v xs ∧ Capacity v = length xs ∧ calm w w'
  | Exc w' => calm w w' ∧ throws w ≠ []
  end.
Proof.
  destruct other as [[[b c] cap] sz].
  unfold represents, Vector_copy, Capacity, mem, store. simpl.
  intros (-> & Hcap & ->).
  pose proof (RawMemory_new_spec (length xs) w) as Halloc.
  destruct (RawMemory_new _ w) as [[[nb nc] ncap] w1|w1]; [|done].
  unfold mem in *. simpl in *. destruct Halloc as (-> & -> & Hc1).
  pose proof (uninitialized_copy_n_layout xs cap 0 (length xs) [] [] w1) as Hcopy.
  simpl in Hcopy. rewrite app_nil_r in Hcopy.
  destruct (uninitialized_copy_n _ _ _ _ _ _) as [[] [new w2]|[new w2]].
  - destruct Hcopy as [-> Hst]; [done|].
    rewrite drop_0, take_ge, app_nil_r by done. unfold layout.
    rewrite Nat.sub_diag, app_nil_r. simpl.
    split_and!; [done..|calm_steps].
  - destruct Hcopy as (-> & Hst & Hne); [done|].
    split; [calm_steps|still_throws].
Qed.

Lemma Vector_delete_calm v xs w :
  represents v xs → calm w (Vector_delete v w).
Proof.
  destruct v as [[[b c] cap] sz].
  unfold represents, Vector_delete, mem, store. simpl.
  intros (-> & Hcap & ->). rewrite destroy_n_layout by done.
  apply RawMemory_delete_calm.
Qed.

Lemma Swap_spec v1 v2 : Swap v1 v2 = (v2, v1).
Proof. by destruct v1 as [[? ?] ?], v2 as [[? ?] ?]. Qed.

Lemma store_mem (m : RawMemory T) : store m (mem m) = m.
Proof. by destruct m as [[? ?] ?]. Qed.

(** With equal sizes neither [if] of the reuse branch is entered. *)
Lemma copy_assign_same_size this rhs w :
  size_ this = size_ rhs → size_ rhs ≤ capacity_ (data_ this) →
  copy_assign this rhs w = Ret tt (this, w).
Proof.
  intros Hsz Hcap. unfold copy_assign.
  destruct (Nat.ltb_spec (capacity_ (data_ this)) (size_ rhs)); [lia|].
  rewrite Hsz, Nat.ltb_irrefl, store_mem, <-Hsz. by destruct this.
Qed.

Lemma copy_assign_spec this rhs xs ys w :
  represents this xs → represents rhs ys →
  match copy_assign this rhs w with
  | Ret _ (v', w') =>
      represents v' (if length xs =? length ys then xs else ys) ∧
      Capacity v' = (if Capacity this <? length ys then length ys
                     else Capacity this) ∧
      calm w w'
  | Exc (v', w') =>
      (is_nothrow_copy_assignable = true → v' = this) ∧ calm w w' ∧
      throws w ≠ []
  end.
Proof.
  intros Hthis Hrhs.
  destruct (Nat.eqb_spec (length xs) (length ys)) as [Heq|Hne].
  { rewrite copy_assign_same_size.
    - split; [done|]. split; [|done].
      destruct (Nat.ltb_spec (Capacity this) (length ys)); [|done].
      destruct Hthis as (_ & ? & _). unfold Capacity in *. lia.
    - destruct Hthis as (-> & _), Hrhs as (-> & _). done.
    - destruct Hthis as (_ & ? & _), Hrhs as (-> & _). lia. }
  unfold copy_assign.
  replace (size_ rhs) with (length ys) by (by destruct Hrhs as [-> _]).
  fold (Capacity this).
  destruct (Nat.ltb_spec (Capacity this) (length ys)) as [Hgrow|Hfit].
  { pose proof (Vector_copy_spec rhs ys w Hrhs) as Hcopy.
    destruct (Vector_copy rhs w) as [tmp w1|w1]; [|done].
    destruct Hcopy as (Htmp & Hcap & Hc1). rewrite Swap_spec.
    split_and!; [done..|].
    eapply calm_trans; [done|]. by eapply Vector_delete_calm. }
  destruct this as [[[b c] cap] sz], rhs as [[[b' c'] cap'] sz'].
  unfold represents, Capacity, mem, store in *. simpl in *.
  destruct Hthis as (-> & Hcap & ->), Hrhs as (_ & Hcap' & ->).
  destruct (Nat.ltb_spec (length xs) (length ys)) as [Hlt|Hge].
  - destruct (Nat.ltb_spec (length ys) (length xs)) as [|_]; [lia|].
    unfold layout at 2.
    rewrite (replicate_split Raw (cap - length xs) (length ys - length xs))
      by lia.
    pose proof (uninitialized_copy_n_layout ys cap' (length xs)
      (length ys - length xs) (Obj <$> xs)
      (replicate (cap - length xs - (length ys - length xs)) Raw) w) as Hcopy.
    rewrite length_fmap in Hcopy.
    destruct (uninitialized_copy_n _ _ _ _ _ _) as [[] [c1 w1]|[c1 w1]].
    + destruct Hcopy as [-> Hst]; [lia|].
      rewrite take_ge by (rewrite length_drop; lia).
      replace ((Obj <$> xs) ++ (Obj <$> drop (length xs) ys) ++
               replicate (cap - length xs - (length ys - length xs)) Raw)
        with (layout (xs ++ drop (length xs) ys) cap).
      2:{ rewrite layout_app, length_drop. done. }
      pose proof (std_copy_layout ys cap' (xs ++ drop (length xs) ys) cap
                    (length xs) w1) as Hassign.
      destruct (std_copy _ _ _ _ _ _) as [[] [c2 w2]|[c2 w2]].
      * destruct Hassign as [-> [Hst2 _]]; [rewrite ?length_app; lia..|].
        rewrite drop_app_length, take_drop. simpl.
        split_and!; [done..|calm_steps].
      * destruct Hassign as (_ & Hst2 & Hne2 & Hnt);
          [rewrite ?length_app; lia..|].
        split_and!; [congruence|calm_steps|still_throws].
    + destruct Hcopy as (-> & Hst & Hne'); [lia|].
      rewrite <-replicate_split by lia. fold (layout xs cap).
      split_and!; [done|calm_steps|done].
  - destruct (Nat.ltb_spec (length ys) (length xs)) as [Hlt|]; [|lia].
    rewrite destroy_n_layout by lia.
    pose proof (std_copy_layout ys cap' (take (length ys) xs) cap
                  (length ys) w) as Hassign.
    destruct (std_copy _ _ _ _ _ _) as [[] [c2 w2]|[c2 w2]].
    + destruct Hassign as [-> [Hst2 _]]; [rewrite ?length_take_le; lia..|].
      rewrite take_ge, drop_ge, app_nil_r by (rewrite ?length_take_le; lia).
      split_and!; [done..|calm_steps].
    + destruct Hassign as (_ & Hst2 & Hne2 & Hnt);
        [rewrite ?length_take_le; lia..|].
      split_and!; [congruence|calm_steps|done].
Qed.

(** *** Emplace *)

Lemma ptr_diff_begin v k w :
  ptr_diff (ptr_add (begin v) k) (GetAddress (data_ v)) w = (k, w).
Proof.
  unfold ptr_diff, ptr_add, begin, GetAddress. simpl.
  by rewrite Nat.eqb_refl, Nat.sub_0_r.
Qed.

Lemma BigCapacity_spec v xs k x w :
  represents v xs → k ≤ length xs → length xs < Capacity v →
  match BigCapacity v (ptr_add (begin v) k) x w with
  | Ret _ (v', w') =>
      represents v' (take k xs ++ x :: drop k xs) ∧
      Capacity v' = Capacity v ∧ calm w w'
  | Exc (v', w') =>
      (is_nothrow_move_assignable = true →
       ∃ ys, length ys = length xs ∧ represents v' ys) ∧
      Capacity v' = Capacity v ∧ calm w w' ∧ throws w ≠ []
  end.
Proof.
  intros Hv Hk Hcap. unfold BigCapacity. rewrite ptr_diff_begin.
  destruct (Nat.eqb_spec k (size_ v)) as [->|Hne].
  { pose proof (EmplaceBack_spec v xs x w Hv) as Hback.
    assert (size_ v = length xs) as Hsz by apply Hv.
    destruct (EmplaceBack v x w) as [p [v' w']|[v' w']].
    2:{ destruct Hback as (? & ? & ? & ?). done. }
    destruct Hback as (Hv' & Hcap' & _ & Hc).
    rewrite Hsz, take_ge, drop_ge by lia. split_and!; [done| |done].
    rewrite Hcap'. unfold Size. rewrite Hsz.
    by destruct (Nat.ltb_spec (length xs) (Capacity v)); [|lia]. }
  assert (size_ v = length xs) as Hsz by apply Hv. rewrite Hsz in Hne.
  destruct v as [[[b c] cap] sz].
  unfold represents, Capacity, mem, store in *. simpl in *.
  destruct Hv as (-> & _ & ->).
  destruct (may_throw w) as [[] w1] eqn:Hw.
  { split_and!; [intros _; exists xs; simpl; split_and!; first [done|lia]|done|
                 by eapply stable_calm, may_throw_stable|
                 by eapply may_throw_true]. }
  apply may_throw_stable in Hw.
  destruct xs as [|z l _] using rev_ind; [simpl in *; lia|].
  rewrite length_app in *. simpl in *.
  replace (length l + 1) with (S (length l)) in * by lia.
  assert (k ≤ length l) as Hkl by lia. clear Hk Hne.
  unfold move_construct_within.
  assert (layout (l ++ [z]) cap
          = (Obj <$> l) ++ Obj z :: Raw :: replicate (cap - length l - 2) Raw)
    as Hsplit.
  { rewrite layout_app. simpl.
    rewrite (replicate_split Raw (cap - length l - 1) 1) by lia.
    simpl. do 4 f_equal. lia. }
  rewrite Hsplit.
  pose proof (read_middle (Obj <$> l) (Raw :: replicate (cap - length l - 2) Raw)
    z) as Hread.
  rewrite length_fmap in Hread. rewrite Hread.
  destruct (move_may_throw w1) as [[] w2] eqn:Hw2.
  { rewrite <-Hsplit. pose proof (move_may_throw_stable _ _ _ Hw2) as Hst2.
    apply move_may_throw_true in Hw2 as [Hne _].
    split_and!; [|done|calm_steps|still_throws].
    intros _. exists (l ++ [z]). rewrite length_app. simpl.
    split_and!; first [done|lia]. }
  apply move_may_throw_stable in Hw2.
  pose proof (construct_at_middle ((Obj <$> l) ++ [Obj z])
    (replicate (cap - length l - 2) Raw) z w2) as Hcons.
  rewrite length_app, length_fmap, <-app_assoc in Hcons. simpl in Hcons.
  replace (length l + 1) with (S (length l)) in Hcons by lia.
  rewrite Hcons, <-app_assoc. simpl.
  pose proof (insert_middle (Obj <$> l)
    (Obj z :: replicate (cap - length l - 2) Raw) (Obj z) (Obj (moved_from z)))
    as Hins.
  rewrite length_fmap in Hins. rewrite Hins.
  unfold std_move_backward.
  destruct (Nat.ltb_spec (length l) k) as [|_]; [lia|].
  assert ((Obj <$> l) = (Obj <$> take k l) ++ (Obj <$> drop k l)) as ->
    by (by rewrite <-fmap_app, take_drop).
  rewrite <-app_assoc.
  pose proof (move_backward_loop_spec (drop k l) (moved_from z)
    (Obj <$> take k l) (Obj z :: replicate (cap - length l - 2) Raw)
    (length l) w2) as Hback.
  rewrite length_fmap, length_take_le, length_drop in Hback by done.
  destruct (move_backward_loop _ _ _ _ _) as [[] [c1 w3]|[c1 w3]].
  2:{ destruct Hback as (_ & Hst3 & Hne3 & Hnt); [lia|]. simpl.
      split_and!; [congruence|done|calm_steps|still_throws]. }
  destruct Hback as [-> [Hst3 _]]; [lia|].
  assert (∃ y, shifted (drop k l) (moved_from z) = Obj y :: (Obj <$> drop k l))
    as [y ->].
  { destruct (drop k l); simpl; eauto. }
  pose proof (assign_middle is_nothrow_move_assignable (Obj <$> take k l)
    ((Obj <$> drop k l) ++ Obj z :: replicate (cap - length l - 2) Raw) y x w3)
    as Hassign.
  rewrite length_fmap, length_take_le in Hassign by done. simpl.
  destruct (assign _ _ _ _ _) as [[] [c2 w4]|[c2 w4]].
  2:{ destruct Hassign as (_ & Hst4 & Hne4 & Hnt). simpl.
      split_and!; [congruence|done|calm_steps|still_throws]. }
  destruct Hassign as [-> [Hst4 _]]. simpl.
  rewrite take_app_le, drop_app_le by done.
  rewrite !length_app, length_take_le by done. simpl.
  rewrite length_app, length_drop. simpl.
  split_and!; [lia|lia| |done|calm_steps].
  unfold layout. rewrite fmap_app, fmap_cons, fmap_app, <-!app_assoc. simpl.
  rewrite <-app_assoc. simpl. do 5 f_equal.
  rewrite !length_app, length_take_le by done. simpl.
  rewrite length_app, length_drop. simpl. lia.
Qed.

Lemma layout_insert xs k x cap :
  k ≤ length xs →
  layout (take k xs ++ x :: drop k xs) cap
  = (Obj <$> take k xs) ++ Obj x :: (Obj <$> drop k xs)
    ++ replicate (cap - length xs - 1) Raw.
Proof.
  intros Hk. unfold layout.
  rewrite fmap_app, fmap_cons, <-app_assoc. simpl.
  rewrite length_app, length_take_le by done. simpl. rewrite length_drop.
  do 4 f_equal. lia.
Qed.

Lemma length_grown n : n < (if n =? 0 then 1 else n * 2).
Proof. destruct (Nat.eqb_spec n 0); lia. Qed.

Lemma CompletelyFilled_spec v xs k x w :
  represents v xs → k ≤ length xs → length xs = Capacity v →
  match CompletelyFilled v (ptr_add (begin v) k) x w with
  | Ret _ (v', w') =>
      represents v' (take k xs ++ x :: drop k xs) ∧
      Capacity v' = (if Size v =? 0 then 1 else Size v * 2) ∧ calm w w'
  | Exc (v', w') =>
      (∃ ys, length ys = length xs ∧ represents v' ys) ∧
      Capacity v' = Capacity v ∧ (relocate_by_move = false → v' = v) ∧
      throws w ≠ []
  end.
Proof.
  intros Hv Hk Hfull. unfold CompletelyFilled. rewrite ptr_diff_begin.
  destruct v as [[[b c] cap] sz].
  unfold represents, Size, Capacity, mem, store in *. simpl in *.
  destruct Hv as (-> & _ & ->). subst cap.
  set (newcap := if length xs =? 0 then 1 else length xs * 2).
  pose proof (length_grown (length xs)) as Hnewcap. fold newcap in Hnewcap.
  pose proof (RawMemory_new_spec newcap w) as Halloc.
  destruct (RawMemory_new newcap w) as [[[nb nc] ncap] w1|w1];
    unfold mem in Halloc; simpl in *.
  2:{ destruct Halloc as [Hc Hne]. split_and!; [by exists xs|done..]. }
  destruct Halloc as (-> & -> & Hc1).
  rewrite (replicate_split Raw newcap k) by lia.
  rewrite (replicate_split Raw (newcap - k) 1) by lia. simpl.
  set (rest := replicate (newcap - k - 1) Raw).
  pose proof (placement_new_middle (Obj <$> take k xs) rest x) as Hnew.
  rewrite length_fmap, length_take_le in Hnew by done.
  assert (rest = replicate (length xs - k) Raw
                 ++ replicate (newcap - length xs - 1) Raw) as Hrest.
  { unfold rest. rewrite <-replicate_add. f_equal. lia. }
  assert (length ((Obj <$> take k xs) ++ [Obj x]) = k + 1) as Hd1.
  { rewrite length_app, length_fmap, length_take_le by done. done. }
  destruct relocate_by_move.
  - pose proof (uninitialized_move_n_layout xs (length xs) 0 k []
      (Raw :: rest) w1) as Hmove.
    simpl in Hmove.
    destruct (uninitialized_move_n _ _ _ _ _ _)
      as [[] [[old new] w2]|[[old new] w2]].
    2:{ destruct Hmove as ((ys & Hys & ->) & -> & Hst2 & Hne & _); [done|].
        simpl. split_and!; [|done|done|still_throws].
        exists ys. rewrite Hys. done. }
    destruct Hmove as (-> & -> & Hst2); [done|].
    set (xs1 := (moved_from <$> take k xs) ++ drop k xs).
    assert (length xs1 = length xs) as Hxs1.
    { unfold xs1. rewrite length_app, length_fmap, length_take_le, length_drop
        by done. lia. }
    specialize (Hnew w2).
    destruct (placement_new _ _ _ _) as [[] [new1 w3]|[new1 w3]].
    2:{ destruct Hnew as (-> & Hst3 & Hne). simpl.
        split_and!; [|done|done|still_throws].
        exists xs1. rewrite Hxs1. done. }
    destruct Hnew as [-> Hst3].
    destruct (Nat.ltb_spec k (length xs)) as [Hlt|Hge].
    + pose proof (uninitialized_move_n_layout xs1 (length xs) k (length xs - k)
        ((Obj <$> take k xs) ++ [Obj x])
        (replicate (newcap - length xs - 1) Raw) w3) as Hmove2.
      rewrite Hd1, <-app_assoc, <-Hrest in Hmove2. simpl in Hmove2.
      destruct (uninitialized_move_n _ _ _ _ _ _)
        as [[] [[old2 new2] w4]|[[old2 new2] w4]].
      2:{ destruct Hmove2 as ((ys & Hys & ->) & -> & Hst4 & Hne & _); [lia|].
          simpl. split_and!; [|done|done|still_throws].
          exists ys. rewrite Hys, Hxs1. done. }
      destruct Hmove2 as (-> & -> & Hst4); [lia|].
      rewrite destroy_n_layout;
        [|rewrite length_moved_range; lia..].
      simpl. rewrite layout_insert by done.
      replace (take (length xs - k) (drop k xs1)) with (drop k xs).
      2:{ unfold xs1. rewrite drop_app_length'
            by (rewrite length_fmap, length_take_le; done).
          rewrite take_ge; [done|]. rewrite length_drop. lia. }
      rewrite length_app, length_take_le by done. simpl. rewrite length_drop.
      rewrite <-app_assoc. simpl.
      split_and!; [lia|lia|done|done|calm_steps].
    + assert (k = length xs) as -> by lia.
      rewrite drop_0. fold xs1. rewrite destroy_n_layout by lia.
      simpl. rewrite layout_insert by done.
      rewrite drop_all. simpl.
      rewrite length_app, length_take_le by done. simpl.
      unfold rest.
      split_and!; [lia|lia|done|done|calm_steps].
  - pose proof (uninitialized_copy_n_layout xs (length xs) 0 k []
      (Raw :: rest) w1) as Hcopy.
    simpl in Hcopy.
    destruct (uninitialized_copy_n _ _ _ _ _ _) as [[] [new w2]|[new w2]].
    2:{ destruct Hcopy as (-> & Hst2 & Hne); [done|].
        destruct (destroy_at _ _ _) as [new1 w3].
        split_and!; [by exists xs|done|done|still_throws]. }
    destruct Hcopy as (-> & Hst2); [done|].
    specialize (Hnew w2).
    destruct (placement_new _ _ _ _) as [[] [new1 w3]|[new1 w3]].
    2:{ destruct Hnew as (-> & Hst3 & Hne).
        split_and!; [by exists xs|done|done|still_throws]. }
    destruct Hnew as [-> Hst3].
    destruct (Nat.ltb_spec k (length xs)) as [Hlt|Hge].
    + pose proof (uninitialized_copy_n_layout xs (length xs) k (length xs - k)
        ((Obj <$> take k xs) ++ [Obj x])
        (replicate (newcap - length xs - 1) Raw) w3) as Hcopy2.
      rewrite Hd1, <-app_assoc, <-Hrest in Hcopy2. simpl in Hcopy2.
      destruct (uninitialized_copy_n _ _ _ _ _ _) as [[] [new2 w4]|[new2 w4]].
      2:{ destruct Hcopy2 as (-> & Hst4 & Hne); [lia|].
          destruct (destroy_n _ _ _ _) as [new3 w5].
          split_and!; [by exists xs|done|done|still_throws]. }
      destruct Hcopy2 as (-> & Hst4); [lia|].
      rewrite destroy_n_layout by lia.
      simpl. rewrite layout_insert by done.
      rewrite (take_ge (drop k xs)) by (rewrite length_drop; lia).
      rewrite length_app, length_take_le by done. simpl. rewrite length_drop.
      rewrite <-app_assoc. simpl.
      split_and!; [lia|lia|done|done|calm_steps].
    + assert (k = length xs) as -> by lia.
      rewrite destroy_n_layout by lia.
      simpl. rewrite layout_insert by done.
      rewrite drop_all. simpl.
      rewrite length_app, length_take_le by done. simpl.
      unfold rest.
      split_and!; [lia|lia|done|done|calm_steps].
Qed.

Lemma Emplace_spec v xs k x w :
  represents v xs → k ≤ length xs →
  match Emplace v (ptr_add (begin v) k) x w with
  | Ret p (v', w') =>
      represents v' (take k xs ++ x :: drop k xs) ∧
      Capacity v' = (if Size v <? Capacity v then Capacity v
                     else if Size v =? 0 then 1 else Size v * 2) ∧
      p = ptr_add (begin v') k ∧ calm w w'
  | Exc (v', w') =>
      (Size v = Capacity v ∨ is_nothrow_move_assignable = true →
       ∃ ys, length ys = length xs ∧ represents v' ys) ∧
      Capacity v' = Capacity v ∧ throws w ≠ [] ∧
      (Size v < Capacity v → calm w w')
  end.
Proof.
  intros Hv Hk. unfold Emplace. rewrite ptr_diff_begin.
  assert (Size v = length xs ∧ length xs ≤ Capacity v) as [Hsz Hcap]
    by (split; apply Hv).
  fold (Capacity v). rewrite Hsz.
  destruct (Nat.ltb_spec (length xs) (Capacity v)) as [Hlt|Hge].
  - pose proof (BigCapacity_spec v xs k x w Hv Hk Hlt) as Hbig.
    destruct (BigCapacity _ _ _ _) as [[] [v' w']|[v' w']].
    + destruct Hbig as (? & ? & ?). done.
    + destruct Hbig as (Hys & ? & ? & ?). split_and!; [|done..].
      intros [?|?]; [lia|auto].
  - pose proof (CompletelyFilled_spec v xs k x w Hv Hk) as Hfull.
    rewrite Hsz in Hfull.
    destruct (CompletelyFilled _ _ _ _) as [[] [v' w']|[v' w']].
    + destruct Hfull as (? & ? & ?); [lia|]. done.
    + destruct Hfull as (? & ? & ? & ?); [lia|]. split_and!; [done..|lia].
Qed.


(** *** The capacity field *)

Lemma RawMemory_new_capacity n w m w' :
  RawMemory_new n w = Ret m w' → capacity_ m = n.
Proof.
  intros Hnew. pose proof (RawMemory_new_spec n w) as Hspec.
  rewrite Hnew in Hspec. apply Hspec.
Qed.

Lemma RawMemory_new_wrapping_capacity n w m w' :
  RawMemory_new_wrapping n w = Ret m w' → capacity_ m = n.
Proof.
  unfold RawMemory_new_wrapping.
  destruct (Allocate_wrapping n w); intros Hnew; by simplify_eq.
Qed.

Ltac inner_case :=
  match goal with
  | |- context [match ?e with _ => _ end] =>
      lazymatch e with
      | context [match _ with _ => _ end] => fail
      | _ => destruct e eqn:?
      end
  end.

Ltac capacity_facts :=
  repeat match goal with
  | H : RawMemory_new _ _ = Ret _ _ |- _ => apply RawMemory_new_capacity in H
  | H : RawMemory_new_wrapping _ _ = Ret _ _ |- _ =>
      apply RawMemory_new_wrapping_capacity in H
  | H : (_ <? _) = true |- _ => apply Nat.ltb_lt in H
  | H : (_ <? _) = false |- _ => apply Nat.ltb_ge in H
  | H : (_ <=? _) = true |- _ => apply Nat.leb_le in H
  | H : (_ <=? _) = false |- _ => apply Nat.leb_gt in H
  | H : (_ =? _) = true |- _ => apply Nat.eqb_eq in H
  | H : (_ =? _) = false |- _ => apply Nat.eqb_neq in H
  end.

Ltac capacity_cases :=
  repeat inner_case; simplify_eq/=; capacity_facts; simpl in *; try lia.

(** *** Counts whose byte count has not wrapped around *)

Lemma room_allocatable n : allocatable n → room n = n.
Proof.
  unfold allocatable, room. intros ->.
  by rewrite N.div_mul, Nat2N.id.
Qed.

Lemma Allocate_wrapping_allocatable n w :
  allocatable n → Allocate_wrapping n w = Allocate n w.
Proof. intros Hn. unfold Allocate_wrapping, Allocate. by rewrite room_allocatable. Qed.

Lemma RawMemory_new_wrapping_allocatable n w :
  allocatable n → RawMemory_new_wrapping n w = RawMemory_new n w.
Proof.
  intros Hn. unfold RawMemory_new_wrapping, RawMemory_new.
  by rewrite Allocate_wrapping_allocatable.
Qed.

Lemma Vector_sized_wrapping_allocatable n w :
  allocatable n → Vector_sized_wrapping n w = Vector_sized n w.
Proof.
  intros Hn. unfold Vector_sized_wrapping, Vector_sized.
  by rewrite RawMemory_new_wrapping_allocatable.
Qed.

Lemma Reserve_wrapping_allocatable this n w :
  allocatable n → Reserve_wrapping this n w = Reserve this n w.
Proof.
  intros Hn. unfold Reserve_wrapping, Reserve.
  by rewrite RawMemory_new_wrapping_allocatable.
Qed.

Lemma Resize_wrapping_allocatable this n w :
  allocatable n → Resize_wrapping this n w = Resize this n w.
Proof.
  intros Hn. unfold Resize_wrapping, Resize.
  by rewrite Reserve_wrapping_allocatable.
Qed.

Lemma Reserve_wrapping_within this n w :
  n ≤ Capacity this → Reserve_wrapping this n w = Reserve this n w.
Proof.
  intros Hn. unfold Reserve_wrapping, Reserve. fold (Capacity this).
  by destruct (Nat.leb_spec n (Capacity this)); [|lia].
Qed.

Lemma Resize_wrapping_within this n w :
  n ≤ Capacity this → Resize_wrapping this n w = Resize this n w.
Proof.
  intros Hn. unfold Resize_wrapping, Resize.
  by rewrite Reserve_wrapping_within.
Qed.

Lemma Reserve_wrapping_no_shrink this n w :
  no_shrink this (Reserve_wrapping this n w).
Proof. unfold no_shrink, Reserve_wrapping, Capacity. capacity_cases. Qed.

Lemma Resize_wrapping_no_shrink this n w :
  no_shrink this (Resize_wrapping this n w).
Proof.
  pose proof (Reserve_wrapping_no_shrink this n w) as Hres.
  unfold no_shrink, Resize_wrapping, Capacity in *.
  destruct (Reserve_wrapping this n w) as [[] [v1 w1]|[v1 w1]]; [|done].
  capacity_cases.
Qed.

Lemma Resize_wrapping_capacity this n w :
  n ≤ Capacity this → same_capacity this (Resize_wrapping this n w).
Proof.
  intros Hn. unfold same_capacity, Resize_wrapping, Reserve_wrapping,
    Capacity in *.
  destruct (Nat.leb_spec n (capacity_ (data_ this))); [|lia].
  capacity_cases.
Qed.

Lemma Reserve_no_shrink this n w : no_shrink this (Reserve this n w).
Proof. unfold no_shrink, Reserve, Capacity. capacity_cases. Qed.

Lemma Resize_no_shrink this n w : no_shrink this (Resize this n w).
Proof.
  pose proof (Reserve_no_shrink this n w) as Hres.
  unfold no_shrink, Resize, Capacity in *.
  destruct (Reserve this n w) as [[] [v1 w1]|[v1 w1]]; [|done].
  capacity_cases.
Qed.

Lemma EmplaceBack_no_shrink this x w : no_shrink this (EmplaceBack this x w).
Proof. unfold no_shrink, EmplaceBack, Capacity, Size. capacity_cases. Qed.

Lemma PushBack_no_shrink this x w : no_shrink this (PushBack this x w).
Proof.
  pose proof (EmplaceBack_no_shrink this x w) as Hback.
  unfold PushBack. by destruct (EmplaceBack this x w) as [? [? ?]|[? ?]].
Qed.

Lemma PopBack_capacity this w : Capacity (PopBack this w).1 = Capacity this.
Proof. unfold PopBack, Capacity. capacity_cases. Qed.

Lemma Erase_capacity this pos w : same_capacity this (Erase this pos w).
Proof. unfold same_capacity, Erase, Capacity. capacity_cases. Qed.

Lemma Resize_capacity this n w :
  n ≤ Capacity this → same_capacity this (Resize this n w).
Proof.
  intros Hn. unfold same_capacity, Resize, Reserve, Capacity in *.
  destruct (Nat.leb_spec n (capacity_ (data_ this))); [|lia].
  capacity_cases.
Qed.

Lemma BigCapacity_no_shrink this pos x w :
  no_shrink this (BigCapacity this pos x w).
Proof.
  pose proof (EmplaceBack_no_shrink this x) as Hback.
  unfold no_shrink, BigCapacity, Capacity in *.
  destruct (ptr_diff _ _ _) as [offset w0]. specialize (Hback w0).
  destruct (offset =? size_ this).
  { by destruct (EmplaceBack this x w0) as [? [? ?]|[? ?]]. }
  capacity_cases.
Qed.

Lemma CompletelyFilled_no_shrink this pos x w :
  capacity_ (data_ this) ≤ Size this →
  no_shrink this (CompletelyFilled this pos x w).
Proof.
  intros Hfull. unfold no_shrink, CompletelyFilled, Capacity, Size in *.
  capacity_cases.
Qed.

Lemma Emplace_no_shrink this pos x w : no_shrink this (Emplace this pos x w).
Proof.
  pose proof (BigCapacity_no_shrink this pos x w) as Hbig.
  pose proof (CompletelyFilled_no_shrink this pos x w) as Hfull.
  unfold no_shrink, Emplace in *.
  destruct (ptr_diff _ _ _) as [offset w0].
  destruct (Nat.ltb_spec (Size this) (capacity_ (data_ this))).
  - by destruct (BigCapacity _ _ _ _) as [? [? ?]|[? ?]].
  - specialize (Hfull ltac:(lia)).
    by destruct (CompletelyFilled _ _ _ _) as [? [? ?]|[? ?]].
Qed.

Lemma Vector_copy_capacity other w v w' :
  Vector_copy other w = Ret v w' → Capacity v = size_ other.
Proof.
  unfold Vector_copy, Capacity. repeat inner_case; intros; simplify_eq/=.
  by eapply RawMemory_new_capacity.
Qed.

Lemma copy_assign_no_shrink this rhs w :
  no_shrink this (copy_assign this rhs w).
Proof.
  unfold no_shrink, copy_assign, Capacity.
  destruct (Nat.ltb_spec (capacity_ (data_ this)) (size_ rhs)).
  - destruct (Vector_copy rhs w) as [tmp w1|w1] eqn:Hcopy; [|done].
    apply Vector_copy_capacity in Hcopy. rewrite Swap_spec.
    unfold Capacity in Hcopy. lia.
  - capacity_cases.
Qed.

(** *** The invariant across the operations *)

Lemma sound_of_spec {A} w (r : Res A (Vector T * World T)) :
  match r with
  | Ret _ (v', w') | Exc (v', w') => (∃ ys, represents v' ys) ∧ calm w w'
  end → sound w r.
Proof.
  destruct r as [? [v' w']|[v' w']]; intros [[ys Hys] [? _]];
    (split; [by eapply represents_Invariant|done]).
Qed.

Lemma Reserve_sound this n w : Invariant this → sound w (Reserve this n w).
Proof.
  intros [xs Hxs]%Invariant_represents. apply sound_of_spec.
  pose proof (Reserve_spec this xs n w Hxs) as Hspec.
  destruct (Reserve this n w) as [[] [v' w']|[v' w']].
  - destruct Hspec as (? & _ & ?). split; [by exists xs|done].
  - destruct Hspec as ((ys & _ & Hys) & _ & ? & _). split; [by exists ys|done].
Qed.

Lemma Resize_sound this n w : Invariant this → sound w (Resize this n w).
Proof.
  intros [xs Hxs]%Invariant_represents. apply sound_of_spec.
  pose proof (Resize_spec this xs n w Hxs) as Hspec.
  destruct (Resize this n w) as [[] [v' w']|[v' w']].
  - destruct Hspec as (? & _ & ?). split; [by eexists|done].
  - destruct Hspec as ((ys & _ & Hys) & _ & ? & _). split; [by exists ys|done].
Qed.

Lemma EmplaceBack_sound this x w :
  Invariant this → sound w (EmplaceBack this x w).
Proof.
  intros [xs Hxs]%Invariant_represents. apply sound_of_spec.
  pose proof (EmplaceBack_spec this xs x w Hxs) as Hspec.
  destruct (EmplaceBack this x w) as [p [v' w']|[v' w']].
  - destruct Hspec as (? & _ & _ & ?). split; [by eexists|done].
  - destruct Hspec as ((ys & _ & Hys) & _ & ? & _). split; [by exists ys|done].
Qed.

Lemma PushBack_sound this x w : Invariant this → sound w (PushBack this x w).
Proof.
  intros Hinv. pose proof (EmplaceBack_sound this x w Hinv) as Hback.
  unfold PushBack. by destruct (EmplaceBack this x w) as [? [? ?]|[? ?]].
Qed.

Lemma Emplace_sound this k x w :
  Invariant this → k ≤ Size this →
  sound_if (Size this = Capacity this ∨ is_nothrow_move_assignable = true) w
    (Emplace this (ptr_add (begin this) k) x w).
Proof.
  intros [xs Hxs]%Invariant_represents Hk.
  assert (k ≤ length xs) as Hk' by (destruct Hxs as [<- _]; done).
  pose proof (Emplace_spec this xs k x w Hxs Hk') as Hspec.
  destruct (Emplace _ _ _ _) as [p [v' w']|[v' w']]; simpl.
  - destruct Hspec as (? & _ & _ & [? _]).
    split; [by eapply represents_Invariant|done].
  - destruct Hspec as (Hys & _). intros _ Hcase.
    destruct (Hys Hcase) as (ys & _ & ?). by eapply represents_Invariant.
Qed.

Lemma copy_assign_by_swap this rhs w :
  Capacity this < Size rhs →
  match copy_assign this rhs w with
  | Ret _ _ => True
  | Exc (v', _) => v' = this
  end.
Proof.
  intros Hlt. unfold copy_assign. fold (Capacity this) (Size rhs).
  destruct (Nat.ltb_spec (Capacity this) (Size rhs)); [|lia].
  by destruct (Vector_copy rhs w).
Qed.

Lemma copy_assign_sound this rhs w :
  Invariant this → Invariant rhs →
  sound_if (is_nothrow_copy_assignable = true ∨ Capacity this < Size rhs)
    w (copy_assign this rhs w).
Proof.
  intros Hinv [ys Hys]%Invariant_represents.
  destruct (Invariant_represents this Hinv) as [xs Hxs].
  pose proof (copy_assign_spec this rhs xs ys w Hxs Hys) as Hspec.
  pose proof (copy_assign_by_swap this rhs w) as Hswap.
  destruct (copy_assign this rhs w) as [[] [v' w']|[v' w']]; simpl.
  - destruct Hspec as (? & _ & [? _]).
    split; [by eapply represents_Invariant|done].
  - destruct Hspec as (Hsame & _). intros _ [Hnt|Hlt].
    + by rewrite (Hsame Hnt).
    + by rewrite (Hswap Hlt).
Qed.

Lemma PopBack_sound this w :
  Invariant this → 0 < Size this →
  Invariant (PopBack this w).1 ∧ (PopBack this w).2 = w.
Proof.
  intros [xs Hxs]%Invariant_represents Hpos.
  assert (0 < length xs) as Hpos' by (destruct Hxs as [<- _]; done).
  destruct (PopBack_spec this xs w Hxs Hpos') as (v' & -> & Hv' & _).
  split; [by eapply represents_Invariant|done].
Qed.

Lemma Erase_sound this k w :
  Invariant this → k ≤ Size this →
  sound w (Erase this (ptr_add (begin this) k) w).
Proof.
  intros Hinv Hk.
  destruct (Invariant_represents this Hinv) as [xs Hxs].
  assert (Size this = length xs) as Hsz by apply Hxs.
  destruct (decide (k = Size this)) as [->|Hne].
  - change (ptr_add (begin this) (Size this)) with (end_ this).
    by rewrite Erase_end.
  - apply sound_of_spec.
    pose proof (Erase_spec this xs k w Hxs ltac:(lia)) as Hspec.
    destruct (Erase _ _ _) as [p [v' w']|[v' w']].
    + destruct Hspec as (_ & ? & _ & [? _]).
      split; [by eexists|by apply stable_calm].
    + destruct Hspec as ((ys & _ & ?) & _ & ? & _).
      split; [by exists ys|by apply stable_calm].
Qed.

(** *** The claims *)

(** C3, as amended.  Move construction hands the storage and the size of
    the source to the new container and leaves the source with size 0 and
    capacity 0.  Move assignment exchanges the states of the two
    containers: the destination takes the storage and size of the source
    and the source is left with what the destination had before.  Both are
    total functions: they cannot throw. *)
Theorem move_exchanges_state (this other : Vector T) :
  Vector_move other = (other, Vector_default) ∧
  Size (Vector_move other).2 = 0 ∧
  Capacity (Vector_move other).2 = 0 ∧
  move_assign this other = (other, this).
Proof.
  unfold Vector_move, move_assign. rewrite !Swap_spec. done.
Qed.

(** C4.  [EmplaceBack] (and [PushBack]) on a full container, when the
    allocation of the new block succeeds and the constructor of the new
    element throws: the exception leaves the container exactly as it was,
    and the only other effect is that the new block, still entirely raw, has
    been given back. *)
Theorem EmplaceBack_growth_failure_restores this (x : T) w rest :
  Size this = Capacity this →
  throws w = false :: true :: rest →
  let new_block :=
    mkBlock (S (fresh w))
      (replicate (if Size this =? 0 then 1 else Size this * 2) Raw) in
  let w' := mkWorld rest (S (fresh w)) (new_block :: freed w) (faults w) in
  EmplaceBack this x w = Exc (this, w') ∧ PushBack this x w = Exc (this, w').
Proof.
  intros Hfull Hw. simpl.
  assert (EmplaceBack this x w
          = Exc (this,
                 mkWorld rest (S (fresh w))
                   (mkBlock (S (fresh w))
                      (replicate (if Size this =? 0 then 1 else Size this * 2)
                         Raw) :: freed w) (faults w))) as Hback.
  { unfold EmplaceBack. fold (Capacity this). rewrite Hfull, Nat.ltb_irrefl.
    unfold RawMemory_new, Allocate.
    destruct (Nat.eqb_spec (if Capacity this =? 0 then 1 else Capacity this * 2)
                0) as [Hz|_].
    { destruct (Capacity this =? 0) eqn:E; [done|].
      apply Nat.eqb_neq in E. lia. }
    unfold placement_new, may_throw. rewrite Hw. simpl. done. }
  split; [done|]. unfold PushBack. by rewrite Hback.
Qed.

(** C5, as amended.  [Reserve], [Resize], [PushBack], [EmplaceBack],
    [PopBack], [Emplace], [Insert], [Erase] and copy assignment leave the
    container, on return and on exception, with at least the capacity it
    had; [Resize] to a size that is not above the capacity (hence every
    [Resize] to a smaller size), [PopBack] and [Erase] leave the capacity
    exactly as it was.  [Swap] and move assignment give the container the
    capacity of the other one. *)
Theorem capacity_never_shrinks (this : Vector T) :
  (∀ n w, no_shrink this (Reserve_wrapping this n w)) ∧
  (∀ n w, no_shrink this (Resize_wrapping this n w)) ∧
  (∀ n w, n ≤ Capacity this →
     same_capacity this (Resize_wrapping this n w)) ∧
  (∀ x w, no_shrink this (PushBack this x w)) ∧
  (∀ x w, no_shrink this (EmplaceBack this x w)) ∧
  (∀ w, Capacity (PopBack this w).1 = Capacity this) ∧
  (∀ pos x w, no_shrink this (Emplace this pos x w)) ∧
  (∀ pos x w, no_shrink this (Insert this pos x w)) ∧
  (∀ pos w, same_capacity this (Erase this pos w)) ∧
  (∀ rhs w, no_shrink this (copy_assign this rhs w)) ∧
  (∀ other, Capacity (Swap this other).1 = Capacity other ∧
            Capacity (move_assign this other).1 = Capacity other).
Proof.
  split_and!.
  - apply Reserve_wrapping_no_shrink.
  - apply Resize_wrapping_no_shrink.
  - apply Resize_wrapping_capacity.
  - apply PushBack_no_shrink.
  - apply EmplaceBack_no_shrink.
  - apply PopBack_capacity.
  - apply Emplace_no_shrink.
  - apply Emplace_no_shrink.
  - apply Erase_capacity.
  - apply copy_assign_no_shrink.
  - intros other. unfold move_assign. by rewrite Swap_spec.
Qed.

(** C6, as amended.  On a container holding the elements [xs],
    [Reserve(n)] with [n] at most the capacity returns at once: the
    container and the world (no allocation, no release, no constructor
    call) are what they were.  With [n] above the capacity, and such that
    the byte count [n * sizeof(T)] handed to [operator new] has not wrapped
    around, a call that returns leaves capacity [n], the same size and the
    same elements in the same order; a call made when the failure script
    has run out returns. *)
Theorem Reserve_behaviour v xs n w :
  represents v xs →
  (n ≤ Capacity v → Reserve_wrapping v n w = Ret tt (v, w)) ∧
  (Capacity v < n → allocatable n →
   match Reserve_wrapping v n w with
   | Ret _ (v', _) => Capacity v' = n ∧ Size v' = Size v ∧ represents v' xs
   | Exc _ => throws w ≠ []
   end).
Proof.
  intros Hv. split.
  - intros Hle. unfold Reserve_wrapping. fold (Capacity v).
    by destruct (Nat.leb_spec n (Capacity v)); [|lia].
  - intros Hlt Hn. rewrite Reserve_wrapping_allocatable by done.
    pose proof (Reserve_spec v xs n w Hv) as Hspec.
    destruct (Reserve v n w) as [[] [v' w']|[v' w']]; [|apply Hspec].
    destruct Hspec as (Hv' & Hcap & _). split_and!; [| |done].
    + rewrite Hcap. by destruct (Nat.leb_spec n (Capacity v)); [lia|].
    + unfold Size. destruct Hv as [-> _], Hv' as [-> _]. done.
Qed.

(** X25.  On a full container holding [xs], an append of a value that
    returns leaves capacity 1 if the size was 0 and twice the size
    otherwise; so does an [Insert] at position [i] of a value [x] that is not
    an element of the container, which leaves the elements
    [take i xs ++ x :: drop i xs] and size [length xs + 1].  Both return
    when they are made with a failure script that has run out. *)
Theorem growth_on_full v xs x w :
  represents v xs → Size v = Capacity v →
  match EmplaceBack v x w with
  | Ret _ (v', _) => Capacity v' = (if Size v =? 0 then 1 else 2 * Size v)
  | Exc _ => throws w ≠ []
  end ∧
  ∀ i, i ≤ length xs →
    match Insert v (ptr_add (begin v) i) x w with
    | Ret _ (v', _) =>
        Capacity v' = (if Size v =? 0 then 1 else 2 * Size v) ∧
        Size v' = length xs + 1 ∧
        represents v' (take i xs ++ x :: drop i xs)
    | Exc _ => throws w ≠ []
    end.
Proof.
  intros Hv Hfull. split.
  - pose proof (EmplaceBack_spec v xs x w Hv) as Hspec.
    destruct (EmplaceBack v x w) as [p [v' w']|[v' w']]; [|apply Hspec].
    destruct Hspec as (_ & -> & _). rewrite Hfull, Nat.ltb_irrefl.
    destruct (Capacity v =? 0); lia.
  - intros i Hi. unfold Insert.
    pose proof (Emplace_spec v xs i x w Hv Hi) as Hspec.
    destruct (Emplace _ _ _ _) as [p [v' w']|[v' w']]; [|apply Hspec].
    destruct Hspec as (Hv' & -> & _). rewrite Hfull, Nat.ltb_irrefl.
    split_and!; [destruct (Capacity v =? 0); lia| |done].
    unfold Size. destruct Hv' as [-> _].
    rewrite length_app, length_take_le by done. simpl. rewrite length_drop. lia.
Qed.


(** C9, as amended.  The constructors establish the class invariant and
    every public operation, called on containers that satisfy it and within
    its precondition ([PopBack] on a non-empty container; [Emplace],
    [Insert] and [Erase] at a position of the container; [Vector(size)],
    [Reserve] and [Resize] with a count whose byte count has not wrapped
    around), leaves containers that satisfy it when it returns, without
    having run into a fault.  So it does when it throws, except that after
    an exception of copy assignment the invariant is only asserted when the
    copy assignment of [T] is [noexcept] or the source does not fit in the
    capacity of the destination, and after an exception of [Emplace] or
    [Insert] only when the call has run into no fault and either the
    container was full or the move assignment of [T] is [noexcept]. *)
Theorem Invariant_preserved :
  Invariant (Vector_default (T:=T)) ∧
  (∀ n w, allocatable n →
     match Vector_sized_wrapping n w with
     | Ret v w' => Invariant v ∧ faults w' = faults w
     | Exc w' => faults w' = faults w
     end) ∧
  (∀ other w, Invariant other →
     match Vector_copy other w with
     | Ret v w' => Invariant v ∧ faults w' = faults w
     | Exc w' => faults w' = faults w
     end) ∧
  (∀ other, Invariant other →
     Invariant (Vector_move other).1 ∧ Invariant (Vector_move other).2) ∧
  (∀ this rhs w, Invariant this → Invariant rhs →
     sound_if (is_nothrow_copy_assignable = true ∨ Capacity this < Size rhs)
       w (copy_assign this rhs w)) ∧
  (∀ this rhs, Invariant this → Invariant rhs →
     Invariant (move_assign this rhs).1 ∧ Invariant (move_assign this rhs).2) ∧
  (∀ this other, Invariant this → Invariant other →
     Invariant (Swap this other).1 ∧ Invariant (Swap this other).2) ∧
  (∀ this n w, Invariant this → allocatable n →
     sound w (Reserve_wrapping this n w)) ∧
  (∀ this n w, Invariant this → allocatable n →
     sound w (Resize_wrapping this n w)) ∧
  (∀ this x w, Invariant this → sound w (PushBack this x w)) ∧
  (∀ this x w, Invariant this → sound w (EmplaceBack this x w)) ∧
  (∀ this w, Invariant this → 0 < Size this →
     Invariant (PopBack this w).1 ∧ (PopBack this w).2 = w) ∧
  (∀ this k x w, Invariant this → k ≤ Size this →
     sound_if (Size this = Capacity this ∨ is_nothrow_move_assignable = true)
       w (Emplace this (ptr_add (begin this) k) x w)) ∧
  (∀ this k x w, Invariant this → k ≤ Size this →
     sound_if (Size this = Capacity this ∨ is_nothrow_move_assignable = true)
       w (Insert this (ptr_add (begin this) k) x w)) ∧
  (∀ this k w, Invariant this → k ≤ Size this →
     sound w (Erase this (ptr_add (begin this) k) w)).
Proof.
  split_and!.
  - apply (represents_Invariant _ []), Vector_default_represents.
  - intros n w Hn. rewrite Vector_sized_wrapping_allocatable by done.
    pose proof (Vector_sized_spec n w) as Hspec.
    destruct (Vector_sized n w) as [v w'|w'].
    + destruct Hspec as (? & _ & [? _]).
      split; [by eapply represents_Invariant|done].
    + by destruct Hspec as [[? _] _].
  - intros other w [xs Hxs]%Invariant_represents.
    pose proof (Vector_copy_spec other xs w Hxs) as Hspec.
    destruct (Vector_copy other w) as [v w'|w'].
    + destruct Hspec as (? & _ & [? _]).
      split; [by eapply represents_Invariant|done].
    + by destruct Hspec as [[? _] _].
  - intros other Hother. unfold Vector_move. rewrite Swap_spec. split; [done|].
    apply (represents_Invariant _ []), Vector_default_represents.
  - apply copy_assign_sound.
  - intros this rhs ? ?. unfold move_assign. by rewrite Swap_spec.
  - intros this other ? ?. by rewrite Swap_spec.
  - intros this n w ? ?. rewrite Reserve_wrapping_allocatable by done.
    by apply Reserve_sound.
  - intros this n w ? ?. rewrite Resize_wrapping_allocatable by done.
    by apply Resize_sound.
  - apply PushBack_sound.
  - apply EmplaceBack_sound.
  - apply PopBack_sound.
  - apply Emplace_sound.
  - apply Emplace_sound.
  - apply Erase_sound.
Qed.


(** * Further properties of the operations *)

(** *** Calls that leave the heap alone *)

Lemma same_heap_refl w : same_heap w w.
Proof. done. Qed.

Lemma same_heap_trans w1 w2 w3 :
  same_heap w1 w2 → same_heap w2 w3 → same_heap w1 w3.
Proof. intros [? ?] [? ?]. split; congruence. Qed.

Lemma fault_heap w : same_heap w (fault w).
Proof. done. Qed.

Lemma stable_heap w w' : stable w w' → same_heap w w'.
Proof. intros (? & ? & _). done. Qed.

Lemma may_throw_heap w b w' : may_throw w = (b, w') → same_heap w w'.
Proof. intros ?%may_throw_stable. by apply stable_heap. Qed.

Lemma move_may_throw_heap w b w' : move_may_throw w = (b, w') → same_heap w w'.
Proof. intros ?%move_may_throw_stable. by apply stable_heap. Qed.

Lemma construct_at_heap buf i x w c w' :
  construct_at buf i x w = (c, w') → same_heap w w'.
Proof. unfold construct_at. repeat case_match; by intros [= _ <-]. Qed.

Lemma assign_at_heap buf i x w c w' :
  assign_at buf i x w = (c, w') → same_heap w w'.
Proof. unfold assign_at. repeat case_match; by intros [= _ <-]. Qed.

Lemma destroy_at_heap buf i w c w' :
  destroy_at buf i w = (c, w') → same_heap w w'.
Proof. unfold destroy_at. repeat case_match; by intros [= _ <-]. Qed.

Lemma placement_new_heap buf i x w r :
  placement_new buf i x w = r →
  match r with Ret _ (_, w') | Exc (_, w') => same_heap w w' end.
Proof.
  unfold placement_new. destruct (may_throw w) as [[] w1] eqn:Hw; intros <-.
  - by eapply may_throw_heap.
  - destruct (construct_at buf i x w1) as [c w2] eqn:Hc.
    eapply same_heap_trans; [by eapply may_throw_heap|by eapply construct_at_heap].
Qed.

Lemma destroy_n_heap n : ∀ buf first w c w',
  destroy_n buf first n w = (c, w') → same_heap w w'.
Proof.
  induction n as [|n IH]; intros buf first w c w'; simpl.
  { by intros [= _ <-]. }
  destruct (destroy_at buf first w) as [c1 w1] eqn:Hd. intros Hn.
  eapply same_heap_trans; [by eapply destroy_at_heap|by eapply IH].
Qed.

Lemma may_throw_unless_heap nothrow w b w' :
  may_throw_unless nothrow w = (b, w') → same_heap w w'.
Proof. intros ?%may_throw_unless_stable. by apply stable_heap. Qed.

Lemma assign_heap nothrow buf i x w r :
  assign nothrow buf i x w = r →
  match r with Ret _ (_, w') | Exc (_, w') => same_heap w w' end.
Proof.
  unfold assign. destruct (may_throw_unless nothrow w) as [[] w1] eqn:Hw;
    intros <-.
  - by eapply may_throw_unless_heap.
  - destruct (assign_at buf i x w1) as [c w2] eqn:Ha.
    eapply same_heap_trans; [by eapply may_throw_unless_heap|
                             by eapply assign_at_heap].
Qed.

Lemma move_assign_within_heap buf from to w r :
  move_assign_within buf from to w = r →
  match r with Ret _ (_, w') | Exc (_, w') => same_heap w w' end.
Proof.
  unfold move_assign_within. destruct (read buf from); [|by intros <-].
  destruct (assign _ buf to t w) as [[] [c1 w1]|[c1 w1]] eqn:Ha;
    intros <-; by apply assign_heap in Ha.
Qed.

Lemma move_loop_heap n : ∀ buf first d_first w r,
  move_loop buf first n d_first w = r →
  match r with Ret _ (_, w') | Exc (_, w') => same_heap w w' end.
Proof.
  induction n as [|n IH]; intros buf first d_first w r; simpl.
  { by intros <-. }
  destruct (move_assign_within buf first d_first w)
    as [[] [c1 w1]|[c1 w1]] eqn:Hm; apply move_assign_within_heap in Hm.
  - intros Hn. apply IH in Hn.
    destruct r as [? [? ?]|[? ?]]; by eapply same_heap_trans.
  - by intros <-.
Qed.

Lemma std_move_heap buf first last d_first w r :
  std_move buf first last d_first w = r →
  match r with Ret _ (_, w') | Exc (_, w') => same_heap w w' end.
Proof.
  unfold std_move. destruct (last <? first); [by intros <-|].
  apply move_loop_heap.
Qed.

Lemma move_backward_loop_heap n : ∀ buf last d_last w r,
  move_backward_loop buf last n d_last w = r →
  match r with Ret _ (_, w') | Exc (_, w') => same_heap w w' end.
Proof.
  induction n as [|n IH]; intros buf last d_last w r; simpl.
  { by intros <-. }
  destruct last as [|last]; [by intros <-|].
  destruct d_last as [|d_last]; [by intros <-|].
  destruct (move_assign_within buf last d_last w)
    as [[] [c1 w1]|[c1 w1]] eqn:Hm; apply move_assign_within_heap in Hm.
  - intros Hn. apply IH in Hn.
    destruct r as [? [? ?]|[? ?]]; by eapply same_heap_trans.
  - by intros <-.
Qed.

Lemma std_move_backward_heap buf first last d_last w r :
  std_move_backward buf first last d_last w = r →
  match r with Ret _ (_, w') | Exc (_, w') => same_heap w w' end.
Proof.
  unfold std_move_backward. destruct (last <? first); [by intros <-|].
  apply move_backward_loop_heap.
Qed.





Lemma move_construct_within_heap buf from to w r :
  move_construct_within buf from to w = r →
  match r with Ret _ (_, w') | Exc (_, w') => same_heap w w' end.
Proof.
  unfold move_construct_within. destruct (read buf from); [|by intros <-].
  destruct (move_may_throw w) as [[] w1] eqn:Hw; [intros <-|].
  { by eapply move_may_throw_heap. }
  destruct (construct_at buf to t w1) as [c1 w2] eqn:Hc. intros <-.
  eapply same_heap_trans; [by eapply move_may_throw_heap|
                           by eapply construct_at_heap].
Qed.


Lemma placement_new_Exc buf i x w c w' :
  placement_new buf i x w = Exc (c, w') → c = buf.
Proof. unfold placement_new. repeat case_match; by intros [= <- _]. Qed.

Lemma store_base (m : RawMemory T) c : base (buffer_ (store m c)) = base (buffer_ m).
Proof. done. Qed.

Ltac heap_facts :=
  repeat match goal with
  | E : may_throw _ = _ |- _ => apply may_throw_heap in E
  | E : move_may_throw _ = _ |- _ => apply move_may_throw_heap in E
  | E : construct_at _ _ _ _ = _ |- _ => apply construct_at_heap in E
  | E : assign_at _ _ _ _ = _ |- _ => apply assign_at_heap in E
  | E : assign _ _ _ _ _ = _ |- _ => apply assign_heap in E; simpl in E
  | E : destroy_at _ _ _ = _ |- _ => apply destroy_at_heap in E
  | E : destroy_n _ _ _ _ = _ |- _ => apply destroy_n_heap in E
  | E : std_move _ _ _ _ _ = _ |- _ => apply std_move_heap in E; simpl in E
  | E : std_move_backward _ _ _ _ _ = _ |- _ =>
      apply std_move_backward_heap in E; simpl in E
  | E : placement_new _ _ _ _ = _ |- _ => apply placement_new_heap in E
  | E : move_construct_within _ _ _ _ = _ |- _ =>
      apply move_construct_within_heap in E
  end.

Ltac heap_steps :=
  repeat first
    [ assumption
    | apply same_heap_refl
    | apply fault_heap
    | eapply same_heap_trans; [eassumption|]
    | eapply same_heap_trans; [apply fault_heap|] ].

Lemma ptr_diff_heap p q w d w' : ptr_diff p q w = (d, w') → same_heap w w'.
Proof. unfold ptr_diff. case_match; by intros [= _ <-]. Qed.

(** *** Insertion without reallocation *)

Lemma store_mem_vector this :
  mkVector (store (data_ this) (mem (data_ this))) (size_ this) = this.
Proof. rewrite store_mem. by destruct this. Qed.

Lemma EmplaceBack_in_place this x w :
  Size this < Capacity this →
  match EmplaceBack this x w with
  | Ret p (v', w') =>
      begin v' = begin this ∧ Capacity v' = Capacity this ∧
      p = end_ this ∧ same_heap w w'
  | Exc (v', w') => v' = this ∧ same_heap w w'
  end.
Proof.
  intros Hlt. unfold EmplaceBack. fold (Capacity this).
  destruct (Nat.ltb_spec (Size this) (Capacity this)) as [_|]; [|lia].
  destruct (placement_new _ _ _ _) as [[] [c w1]|[c w1]] eqn:Hnew.
  - apply placement_new_heap in Hnew. done.
  - pose proof (placement_new_Exc _ _ _ _ _ _ Hnew) as ->.
    apply placement_new_heap in Hnew. by rewrite store_mem_vector.
Qed.



Lemma Erase_in_place this pos w :
  match Erase this pos w with
  | Ret _ (v', w') | Exc (v', w') => begin v' = begin this ∧ same_heap w w'
  end.
Proof.
  unfold Erase. destruct (ptr_eqb pos (end_ this)); [done|].
  destruct (ptr_diff _ _ _) as [d w0] eqn:Hdiff. apply ptr_diff_heap in Hdiff.
  destruct (std_move _ _ _ _ _) as [[] [c w1]|[c w1]] eqn:Hmove.
  - destruct (size_ this) as [|last].
    + heap_facts. split; [done|]. heap_steps.
    + destruct (destroy_at c last w1) as [c1 w2] eqn:Hd. heap_facts.
      split; [done|]. heap_steps.
  - heap_facts. split; [done|]. heap_steps.
Qed.

Lemma PopBack_in_place this w :
  begin (PopBack this w).1 = begin this ∧ same_heap w (PopBack this w).2.
Proof.
  unfold PopBack. destruct (size_ this) as [|last]; [done|].
  destruct (destroy_at _ _ _) as [c w1] eqn:Hd. heap_facts. done.
Qed.

(** *** Removal *)

Lemma Erase_below_end v xs k w :
  represents v xs → k < length xs →
  match Erase v (ptr_add (begin v) k) w with
  | Ret p (v', w') =>
      p = ptr_add (begin v) k ∧
      represents v' (take k xs ++ drop (S k) xs) ∧
      Capacity v' = Capacity v ∧ begin v' = begin v ∧
      assigned is_nothrow_move_assignable w w'
  | Exc (v', w') =>
      (∃ ys, length ys = length xs ∧ represents v' ys) ∧
      Capacity v' = Capacity v ∧ begin v' = begin v ∧ stable w w' ∧
      throws w ≠ [] ∧ is_nothrow_move_assignable = false
  end.
Proof.
  intros Hv Hk.
  pose proof (Erase_spec v xs k w Hv Hk) as Hspec.
  pose proof (Erase_in_place v (ptr_add (begin v) k) w) as Hplace.
  destruct (Erase _ _ _) as [p [v' w']|[v' w']].
  - destruct Hspec as (-> & ? & ? & ?), Hplace as [Hbegin _].
    rewrite Hbegin. done.
  - destruct Hspec as (? & ? & ? & ? & ?), Hplace as [? _]. done.
Qed.

Lemma insert_then_delete xs k (x : T) :
  k ≤ length xs →
  take k (take k xs ++ x :: drop k xs)
  ++ drop (S k) (take k xs ++ x :: drop k xs) = xs.
Proof.
  intros Hk.
  rewrite take_app_length' by (by rewrite length_take_le).
  rewrite (cons_middle x), app_assoc.
  rewrite drop_app_length' by (rewrite length_app, length_take_le; simpl; lia).
  apply take_drop.
Qed.

(** X1.  [Erase] at position [k] of a container holding [xs], for [k] up to
    the size.  When it returns, the container is left holding [xs] without
    its element of index [k] (all of [xs] when [k] is the size, where the
    position is [end()]), in the same block and with the same capacity, and
    the iterator returned is the position passed.  It throws only if the
    move assignment of [T] is not [noexcept]; the container then still
    holds as many elements, in the same block.  Nothing is allocated or
    released and there is no fault; when the move assignment of [T] is
    [noexcept] the call returns and leaves the world as it was. *)
Theorem Erase_removes v xs k w :
  represents v xs → k ≤ length xs →
  match Erase v (ptr_add (begin v) k) w with
  | Ret p (v', w') =>
      p = ptr_add (begin v) k ∧ represents v' (delete k xs) ∧
      Capacity v' = Capacity v ∧ begin v' = begin v ∧ stable w w' ∧
      (is_nothrow_move_assignable = true → w' = w)
  | Exc (v', w') =>
      is_nothrow_move_assignable = false ∧ throws w ≠ [] ∧
      (∃ ys, length ys = length xs ∧ represents v' ys) ∧
      Capacity v' = Capacity v ∧ begin v' = begin v ∧ stable w w'
  end.
Proof.
  intros Hv Hk. rewrite delete_take_drop.
  destruct (decide (k = length xs)) as [->|Hne].
  - replace (ptr_add (begin v) (length xs)) with (end_ v)
      by (unfold end_; by destruct Hv as [-> _]).
    rewrite Erase_end, take_ge, drop_ge, app_nil_r by lia.
    split_and!; [done..|apply stable_refl|done].
  - pose proof (Erase_below_end v xs k w Hv ltac:(lia)) as Hspec.
    destruct (Erase _ _ _) as [p [v' w']|[v' w']].
    + destruct Hspec as (? & ? & ? & ? & [? ?]). done.
    + destruct Hspec as (? & ? & ? & ? & ? & ?). done.
Qed.

(** X2.  [PopBack] on a container holding [xs ++ [x]] leaves it holding
    [xs], in the same block and with the same capacity, and changes nothing
    else. *)
Theorem PopBack_removes_last v xs x w :
  represents v (xs ++ [x]) →
  ∃ v', PopBack v w = (v', w) ∧ represents v' xs ∧
        Capacity v' = Capacity v ∧ begin v' = begin v.
Proof.
  intros Hv.
  destruct (PopBack_spec v (xs ++ [x]) w Hv) as (v' & Hpop & Hv' & Hcap).
  { rewrite length_app. simpl. lia. }
  pose proof (PopBack_in_place v w) as [Hbegin _]. rewrite Hpop in Hbegin.
  exists v'. split_and!; [done| |done..].
  replace (length (xs ++ [x]) - 1) with (length xs) in Hv'
    by (rewrite length_app; simpl; lia).
  by rewrite take_app_length in Hv'.
Qed.

(** X4.  [PushBack] followed by [PopBack] gives back the elements the
    container held; the capacity is that after the [PushBack], which is
    never below the one before. *)
Theorem PushBack_then_PopBack v xs x w :
  represents v xs →
  match PushBack v x w with
  | Ret _ (v1, w1) =>
      ∃ v2, PopBack v1 w1 = (v2, w1) ∧ represents v2 xs ∧
            Capacity v2 = Capacity v1 ∧ Capacity v ≤ Capacity v1
  | Exc _ => throws w ≠ []
  end.
Proof.
  intros Hv. pose proof (PushBack_no_shrink v x w) as Hmono. unfold PushBack in *.
  pose proof (EmplaceBack_spec v xs x w Hv) as Hback.
  destruct (EmplaceBack v x w) as [p [v1 w1]|[v1 w1]]; [|apply Hback].
  destruct Hback as (Hv1 & _).
  destruct (PopBack_spec v1 (xs ++ [x]) w1 Hv1) as (v2 & Hpop & Hv2 & Hcap).
  { rewrite length_app. simpl. lia. }
  exists v2. split_and!; [done| |done..].
  replace (length (xs ++ [x]) - 1) with (length xs) in Hv2
    by (rewrite length_app; simpl; lia).
  by rewrite take_app_length in Hv2.
Qed.

(** X5.  [Insert] at a position of the container followed by [Erase] at
    the iterator [Insert] returned gives back the elements the container
    held, and [Erase] returns that same iterator, having allocated and
    released nothing and run into no fault; when the move assignment of
    [T] is [noexcept], [Erase] returns and leaves the world as it was. *)
Theorem Insert_then_Erase v xs k x w :
  represents v xs → k ≤ length xs →
  match Insert v (ptr_add (begin v) k) x w with
  | Ret p (v1, w1) =>
      match Erase v1 p w1 with
      | Ret q (v2, w2) =>
          q = p ∧ represents v2 xs ∧ stable w1 w2 ∧
          (is_nothrow_move_assignable = true → w2 = w1)
      | Exc _ => is_nothrow_move_assignable = false ∧ throws w1 ≠ []
      end
  | Exc _ => throws w ≠ []
  end.
Proof.
  intros Hv Hk. unfold Insert.
  pose proof (Emplace_spec v xs k x w Hv Hk) as Hspec.
  destruct (Emplace _ _ _ _) as [p [v1 w1]|[v1 w1]]; [|apply Hspec].
  destruct Hspec as (Hv1 & _ & -> & _).
  pose proof (Erase_below_end v1 _ k w1 Hv1) as Herase.
  rewrite insert_then_delete in Herase by done.
  destruct (Erase _ _ _) as [q [v2 w2]|[v2 w2]].
  - destruct Herase as (? & ? & _ & _ & [? ?]);
      [rewrite length_app, length_take_le by done; simpl; lia|]. done.
  - destruct Herase as (_ & _ & _ & _ & ? & ?);
      [rewrite length_app, length_take_le by done; simpl; lia|]. done.
Qed.

(** *** Insertion with spare capacity *)


(** X7.  [EmplaceBack] on a container that holds [xs] and has spare
    capacity: the elements become [xs ++ [x]] in the same block, with the
    same capacity; the result is the address [end()] had before the call;
    no block is allocated or released.  If the constructor throws, the
    container is exactly as before. *)
Theorem EmplaceBack_with_spare_capacity v xs x w :
  represents v xs → length xs < Capacity v →
  match EmplaceBack v x w with
  | Ret p (v', w') =>
      represents v' (xs ++ [x]) ∧ Capacity v' = Capacity v ∧
      begin v' = begin v ∧ p = end_ v ∧ same_heap w w'
  | Exc (v', w') => v' = v ∧ same_heap w w' ∧ throws w ≠ []
  end.
Proof.
  intros Hv Hcap.
  assert (Size v < Capacity v) as Hlt by (unfold Size; by destruct Hv as [-> _]).
  pose proof (EmplaceBack_spec v xs x w Hv) as Hspec.
  pose proof (EmplaceBack_in_place v x w Hlt) as Hplace.
  destruct (EmplaceBack v x w) as [p [v' w']|[v' w']].
  - destruct Hspec as (Hv' & _), Hplace as (? & ? & ? & ?). done.
  - destruct Hspec as (_ & _ & _ & ?), Hplace as [? ?]. done.
Qed.

(** X8.  Whichever path [EmplaceBack] takes, the reference it returns is to
    the last element of the container as it is after the call, that element
    is the new one, and the elements before it are those the container
    held. *)
Theorem EmplaceBack_returns_last v xs x w :
  represents v xs →
  match EmplaceBack v x w with
  | Ret p (v', _) =>
      Size v' = S (Size v) ∧ p = ptr_add (begin v') (Size v) ∧
      index v' (Size v) = Some x ∧
      ∀ i, i < Size v → index v' i = index v i
  | Exc _ => throws w ≠ []
  end.
Proof.
  intros Hv. pose proof (EmplaceBack_spec v xs x w Hv) as Hspec.
  destruct (EmplaceBack v x w) as [p [v' w']|[v' w']]; [|apply Hspec].
  destruct Hspec as (Hv' & _ & -> & _).
  assert (Size v = length xs) as -> by apply Hv.
  split_and!.
  - unfold Size. destruct Hv' as [-> _]. rewrite length_app. simpl. lia.
  - done.
  - rewrite (index_represents _ _ _ Hv'). apply list_lookup_middle. done.
  - intros i Hi.
    rewrite (index_represents _ _ _ Hv'), (index_represents _ _ _ Hv).
    by apply lookup_app_l.
Qed.

(** *** Resize, copy assignment and indexing *)

(** X9.  [Resize(n)], for [n] whose byte count has not wrapped around, on
    a container holding [xs] leaves the first [n] elements of [xs],
    followed by value-initialized elements up to size [n] when [n] is above
    the size; the capacity becomes the larger of [n] and the capacity
    before.  An exception leaves the size as it was. *)
Theorem Resize_contents v xs n w :
  represents v xs → allocatable n →
  match Resize_wrapping v n w with
  | Ret _ (v', _) =>
      Size v' = n ∧
      represents v'
        (take n xs ++ replicate (n - length xs) value_initialized) ∧
      Capacity v' = max n (Capacity v)
  | Exc (v', _) => Size v' = Size v ∧ throws w ≠ []
  end.
Proof.
  intros Hv Hn. rewrite Resize_wrapping_allocatable by done.
  pose proof (Resize_spec v xs n w Hv) as Hspec.
  destruct (Resize v n w) as [[] [v' w']|[v' w']].
  - destruct Hspec as (Hv' & Hcap & _). split_and!; [|done|].
    + unfold Size. destruct Hv' as [-> _].
      rewrite length_app, length_take, length_replicate. lia.
    + rewrite Hcap. destruct (Nat.leb_spec n (Capacity v)); lia.
  - destruct Hspec as ((ys & Hlen & Hys) & _ & _ & Hne). split; [|done].
    unfold Size. destruct Hys as [-> _], Hv as [-> _]. done.
Qed.

Lemma copy_assign_in_place this rhs w :
  size_ rhs ≤ Capacity this →
  match copy_assign this rhs w with
  | Ret _ (v', _) | Exc (v', _) => begin v' = begin this
  end.
Proof.
  intros Hfit. unfold copy_assign. fold (Capacity this).
  destruct (Nat.ltb_spec (Capacity this) (size_ rhs)); [lia|].
  repeat inner_case; simplify_eq/=; done.
Qed.

(** X10.  Copy assignment between containers of different sizes: the
    destination is left holding the elements of the source; its capacity is
    the larger of its capacity before and the size of the source, and when
    the source fits in the capacity the block is kept.  When the copy
    assignment of [T] is [noexcept], an exception leaves the destination
    exactly as it was. *)
Theorem copy_assign_different_sizes this rhs xs ys w :
  represents this xs → represents rhs ys → length xs ≠ length ys →
  match copy_assign this rhs w with
  | Ret _ (v', _) =>
      represents v' ys ∧ Capacity v' = max (Capacity this) (length ys) ∧
      (length ys ≤ Capacity this → begin v' = begin this)
  | Exc (v', _) =>
      (is_nothrow_copy_assignable = true → v' = this) ∧ throws w ≠ []
  end.
Proof.
  intros Hthis Hrhs Hne.
  pose proof (copy_assign_spec this rhs xs ys w Hthis Hrhs) as Hspec.
  pose proof (copy_assign_in_place this rhs w) as Hplace.
  assert (size_ rhs = length ys) as Hsz by apply Hrhs. rewrite Hsz in Hplace.
  destruct (copy_assign this rhs w) as [[] [v' w']|[v' w']].
  - destruct Hspec as (Hv' & Hcap & _).
    destruct (Nat.eqb_spec (length xs) (length ys)); [done|].
    split_and!; [done| |done].
    rewrite Hcap. destruct (Nat.ltb_spec (Capacity this) (length ys)); lia.
  - destruct Hspec as (? & _ & ?). done.
Qed.

(** *** Appends within the capacity, and the growth of the capacity *)

Lemma push_all_in_place values : ∀ v xs w,
  represents v xs → length xs + length values ≤ Capacity v →
  match push_all values v w with
  | Ret _ (v', w') =>
      represents v' (xs ++ values) ∧ Capacity v' = Capacity v ∧
      begin v' = begin v ∧ same_heap w w'
  | Exc _ => throws w ≠ []
  end.
Proof.
  induction values as [|x values IH]; intros v xs w Hv Hfit; simpl in *.
  { by rewrite app_nil_r. }
  unfold PushBack.
  assert (Size v < Capacity v) as Hlt
    by (unfold Size; destruct Hv as [-> _]; lia).
  pose proof (EmplaceBack_spec v xs x w Hv) as Hspec.
  pose proof (EmplaceBack_in_place v x w Hlt) as Hplace.
  destruct (EmplaceBack v x w) as [p [v1 w1]|[v1 w1]]; [|apply Hspec].
  destruct Hspec as (Hv1 & _ & _ & Hc1), Hplace as (Hb1 & Hcap1 & _ & Hh1).
  specialize (IH v1 (xs ++ [x]) w1 Hv1). rewrite <-app_assoc in IH.
  rewrite length_app, Hcap1 in IH. simpl in IH.
  destruct (push_all values v1 w1) as [[] [v' w']|[v' w']].
  - destruct IH as (? & ? & ? & ?); [lia|].
    split_and!; [done|congruence|congruence|by eapply same_heap_trans].
  - intros Hq. apply IH; [lia|]. by eapply calm_quiet.
Qed.

(** X12.  After [Reserve(n)], for [n] whose byte count has not wrapped
    around, on a container holding [xs], appending values while the size
    stays within [n] never reallocates: the block and the capacity are
    those [Reserve] left and no block is allocated or released. *)
Theorem Reserve_then_push_all v xs n values w :
  represents v xs → allocatable n → length xs + length values ≤ n →
  match Reserve_wrapping v n w with
  | Ret _ (v1, w1) =>
      match push_all values v1 w1 with
      | Ret _ (v2, w2) =>
          represents v2 (xs ++ values) ∧ begin v2 = begin v1 ∧
          Capacity v2 = Capacity v1 ∧ same_heap w1 w2
      | Exc _ => throws w ≠ []
      end
  | Exc _ => throws w ≠ []
  end.
Proof.
  intros Hv Hn Hfit. rewrite Reserve_wrapping_allocatable by done.
  pose proof (Reserve_spec v xs n w Hv) as Hspec.
  destruct (Reserve v n w) as [[] [v1 w1]|[v1 w1]]; [|apply Hspec].
  destruct Hspec as (Hv1 & Hcap1 & Hc1).
  pose proof (push_all_in_place values v1 xs w1 Hv1) as Hpush.
  destruct (push_all values v1 w1) as [[] [v2 w2]|[v2 w2]].
  - destruct Hpush as (? & ? & ? & ?); [|done].
    rewrite Hcap1. destruct (Nat.leb_spec n (Capacity v)); lia.
  - intros Hq. apply Hpush; [|by eapply calm_quiet].
    rewrite Hcap1. destruct (Nat.leb_spec n (Capacity v)); lia.
Qed.




(** *** What an exception leaves behind *)

Lemma uninitialized_move_n_nothrow n : ∀ src first dst d_first w,
  is_nothrow_move_constructible = true →
  ∃ s, uninitialized_move_n src first n dst d_first w = Ret tt s.
Proof.
  induction n as [|n IH]; intros src first dst d_first w Hnt; simpl.
  { by eexists. }
  destruct (read src first) as [x|]; [|by apply IH].
  unfold move_may_throw. rewrite Hnt.
  destruct (construct_at dst d_first x w) as [dst1 w2].
  edestruct (IH (<[first:=Obj (moved_from x)]> src) (S first) dst1 (S d_first) w2)
    as [s ->]; [done|]. by eexists.
Qed.

Lemma guarantee_cases :
  is_nothrow_move_constructible = true ∨ is_copy_constructible = true →
  is_nothrow_move_constructible = true ∨ relocate_by_move = false.
Proof.
  intros [?|Hc]; [by left|].
  destruct is_nothrow_move_constructible eqn:Hnt; [by left|right].
  unfold relocate_by_move. by rewrite Hnt, Hc.
Qed.

(** X14.  For an element type whose move constructor does not throw, or
    which has a copy constructor, [Reserve] gives the strong guarantee:
    when it throws, the container is exactly as it was. *)
Theorem Reserve_strong_guarantee this n w :
  is_nothrow_move_constructible = true ∨ is_copy_constructible = true →
  match Reserve this n w with
  | Ret _ _ => True
  | Exc (v', _) => v' = this
  end.
Proof.
  intros Htype%guarantee_cases. unfold Reserve.
  destruct (n <=? capacity_ (data_ this)); [done|].
  destruct (RawMemory_new n w) as [new_data w1|w1]; [|done].
  destruct Htype as [Hnt|Hcopy].
  - unfold relocate_by_move. rewrite Hnt. simpl.
    destruct (uninitialized_move_n_nothrow (size_ this) (mem (data_ this)) 0
                (mem new_data) 0 w1 Hnt) as [[[old new] w2] ->].
    by destruct (destroy_n old 0 (size_ this) w2).
  - rewrite Hcopy.
    destruct (uninitialized_copy_n _ _ _ _ _ _) as [[] [new w2]|[new w2]];
      [|done].
    by destruct (destroy_n _ _ _ _).
Qed.

(** X15.  For an element type whose move constructor does not throw, or
    which has a copy constructor, [EmplaceBack] and [PushBack] give the
    strong guarantee at every point of failure (the allocation, the
    constructor of the new element, the relocation of the old ones): when
    they throw, the container is exactly as it was. *)
Theorem EmplaceBack_strong_guarantee this x w :
  is_nothrow_move_constructible = true ∨ is_copy_constructible = true →
  match EmplaceBack this x w with
  | Ret _ _ => True
  | Exc (v', _) => v' = this
  end ∧
  match PushBack this x w with
  | Ret _ _ => True
  | Exc (v', _) => v' = this
  end.
Proof.
  intros Htype%guarantee_cases.
  assert (match EmplaceBack this x w with
          | Ret _ _ => True
          | Exc (v', _) => v' = this
          end) as Hback.
  { unfold EmplaceBack.
    destruct (Size this <? capacity_ (data_ this)).
    { destruct (placement_new _ _ _ _) as [[] [c w1]|[c w1]] eqn:Hnew; [done|].
      apply placement_new_Exc in Hnew as ->. apply store_mem_vector. }
    destruct (RawMemory_new _ w) as [new_data w1|w1]; [|done].
    destruct (placement_new _ _ _ _) as [[] [c w2]|[c w2]]; [|done].
    destruct Htype as [Hnt|Hcopy].
    - unfold relocate_by_move. rewrite Hnt. simpl.
      destruct (uninitialized_move_n_nothrow (Size this) (mem (data_ this)) 0
                  c 0 w2 Hnt) as [[[old new] w3] ->].
      by destruct (destroy_n old 0 (Size this) w3).
    - rewrite Hcopy.
      destruct (uninitialized_copy_n _ _ _ _ _ _) as [[] [new w3]|[new w3]];
        [|done].
      by destruct (destroy_n _ _ _ _). }
  split; [done|]. unfold PushBack.
  by destruct (EmplaceBack this x w) as [? [? ?]|[? ?]].
Qed.



(** *** Blocks given back to the heap *)

Lemma leak_free_refl w : leak_free w w.
Proof. split; [done|]. by exists []. Qed.

Lemma leak_free_trans w1 w2 w3 :
  leak_free w1 w2 → leak_free w2 w3 → leak_free w1 w3.
Proof.
  intros (? & r1 & Hr1 & ?) (? & r2 & Hr2 & ?). split; [congruence|].
  exists (r2 ++ r1). split.
  - by rewrite Hr2, Hr1, app_assoc.
  - by apply Forall_app.
Qed.

Lemma stable_leak_free w w' : stable w w' → leak_free w w'.
Proof. intros (_ & Hf & ? & _). split; [done|]. by exists []. Qed.

Lemma all_raw_replicate addr n :
  all_raw (T:=T) (mkBlock addr (replicate n Raw)).
Proof. unfold all_raw. simpl. by rewrite length_replicate. Qed.

Lemma all_raw_split addr n k l :
  l = replicate n Raw ++ replicate k Raw → all_raw (mkBlock addr l).
Proof. intros ->. rewrite <-replicate_add. apply all_raw_replicate. Qed.

Lemma all_raw_layout addr cap : all_raw (T:=T) (mkBlock addr (layout [] cap)).
Proof. apply all_raw_replicate. Qed.

Lemma Deallocate_leak_free (b : Block T) w :
  all_raw b → leak_free w (Deallocate b w).
Proof.
  intros Hraw. unfold Deallocate.
  destruct (base b =? 0); [apply leak_free_refl|].
  split; [done|]. exists [b]. split; [done|]. by apply Forall_singleton.
Qed.

Lemma RawMemory_new_leak_free n w :
  match RawMemory_new n w with
  | Ret m w' =>
      mem m = replicate n Raw ∧ capacity_ m = n ∧ leak_free w w' ∧
      calm w w'
  | Exc w' => leak_free w w' ∧ throws w ≠ []
  end.
Proof.
  unfold RawMemory_new, Allocate. destruct (n =? 0) eqn:Hn.
  { apply Nat.eqb_eq in Hn as ->. split_and!; [done..|apply leak_free_refl|done]. }
  destruct (may_throw w) as [[] w1] eqn:Hw.
  - split; [|by eapply may_throw_true].
    by eapply stable_leak_free, may_throw_stable.
  - apply may_throw_stable in Hw.
    pose proof (stable_leak_free _ _ Hw) as (? & r & ? & ?).
    pose proof (stable_calm _ _ Hw) as [? ?].
    split_and!; [done..| |by split]. split; [done|]. by exists r.
Qed.

Ltac leak_steps :=
  repeat first
    [ assumption
    | apply leak_free_refl
    | apply stable_leak_free; assumption
    | apply Deallocate_leak_free
    | eapply leak_free_trans; [eassumption|]
    | eapply leak_free_trans; [apply stable_leak_free; eassumption|] ].

(** X17.  [Reserve(n)], for [n] whose byte count has not wrapped around, on
    a container that satisfies the invariant neither leaks nor destroys
    what is not there, whether it returns or throws: every block it gives
    back to the heap holds no live object at that time, and no destructor
    runs on a slot without an object. *)
Theorem Reserve_leak_free v xs n w :
  represents v xs → allocatable n →
  match Reserve_wrapping v n w with
  | Ret _ (_, w') | Exc (_, w') => leak_free w w'
  end.
Proof.
  intros Hv Hn. rewrite Reserve_wrapping_allocatable by done.
  revert Hv. clear Hn.
  destruct v as [[[b c] cap] sz].
  unfold represents, Reserve, Size, Capacity, mem, store, RawMemory_delete.
  simpl. intros (-> & Hcap & ->).
  destruct (n <=? cap) eqn:Hle; [apply leak_free_refl|].
  apply Nat.leb_gt in Hle.
  pose proof (RawMemory_new_leak_free n w) as Halloc.
  destruct (RawMemory_new n w) as [[[nb nc] ncap] w1|w1];
    unfold mem in Halloc; simpl in *; [|apply Halloc].
  destruct Halloc as (-> & -> & Hl1 & _).
  rewrite (replicate_split Raw n (length xs)) by lia.
  destruct relocate_by_move.
  - pose proof (uninitialized_move_n_layout xs cap 0 (length xs) []
      (replicate (n - length xs) Raw) w1) as Hmove.
    simpl in Hmove.
    destruct (uninitialized_move_n _ _ _ _ _ _)
      as [[] [[old new] w2]|[[old new] w2]].
    + destruct Hmove as (-> & -> & Hst2); [done|].
      rewrite drop_0, take_ge, drop_all, app_nil_r by done.
      rewrite destroy_n_layout;
        [|by rewrite length_fmap|by rewrite length_fmap].
      simpl. leak_steps. apply all_raw_layout.
    + destruct Hmove as (_ & -> & Hst2 & _); [done|].
      leak_steps. by eapply all_raw_split.
  - pose proof (uninitialized_copy_n_layout xs cap 0 (length xs) []
      (replicate (n - length xs) Raw) w1) as Hcopy.
    simpl in Hcopy.
    destruct (uninitialized_copy_n _ _ _ _ _ _) as [[] [new w2]|[new w2]].
    + destruct Hcopy as (-> & Hst2); [done|].
      rewrite destroy_n_layout by done.
      simpl. leak_steps. apply all_raw_layout.
    + destruct Hcopy as (-> & Hst2 & _); [done|].
      leak_steps. by eapply all_raw_split.
Qed.

(** The two ways [RawMemory(capacity)] ends: [operator new] has thrown, on
    the head of the script, or the block has the next address and the head
    of the script, if any, is spent. *)
Lemma RawMemory_new_cases n w :
  match RawMemory_new n w with
  | Ret m w' =>
      mem m = replicate n Raw ∧ capacity_ m = n ∧
      faults w' = faults w ∧ freed w' = freed w ∧
      (n ≠ 0 → base (buffer_ m) = S (fresh w) ∧
               match throws w with
               | [] => throws w' = []
               | b :: rest => b = false ∧ throws w' = rest
               end)
  | Exc w' =>
      faults w' = faults w ∧ freed w' = freed w ∧
      ∃ rest, throws w = true :: rest
  end.
Proof.
  unfold RawMemory_new, Allocate, may_throw.
  destruct (Nat.eqb_spec n 0) as [->|Hn]; [done|].
  destruct (throws w) as [|[] rest] eqn:Hw; simpl; rewrite ?Hw; eauto 10.
Qed.

(** X18.  [Vector(size)], for a size whose byte count has not wrapped
    around, builds a container of [size] value-initialized elements whose
    capacity is [size], and releases nothing.  When [operator new] throws
    nothing is released; when a constructor throws, the elements already
    built have been destroyed and the block is given back with no live
    object in it.  There is no fault. *)
Theorem Vector_sized_builds n w :
  allocatable n →
  match Vector_sized_wrapping n w with
  | Ret v w' =>
      represents v (replicate n value_initialized) ∧ Capacity v = n ∧
      faults w' = faults w ∧ freed w' = freed w
  | Exc w' =>
      faults w' = faults w ∧ throws w ≠ [] ∧
      match throws w with
      | false :: _ =>
          freed w' = mkBlock (S (fresh w)) (replicate n Raw) :: freed w
      | _ => freed w' = freed w
      end
  end.
Proof.
  intros Hfit. rewrite Vector_sized_wrapping_allocatable by done.
  destruct (Nat.eq_dec n 0) as [->|Hn]; [done|].
  unfold Vector_sized, RawMemory_delete, Deallocate.
  pose proof (RawMemory_new_cases n w) as Halloc.
  destruct (RawMemory_new n w) as [[[nb nc] ncap] w1|w1].
  2:{ destruct Halloc as (? & ? & rest & ->). done. }
  unfold mem, store in *. simpl in *.
  destruct Halloc as (-> & -> & Hf1 & Hr1 & Hbase).
  destruct (Hbase Hn) as [-> Hscript].
  pose proof (uninitialized_value_construct_n_layout [] n n w1) as Hval.
  unfold layout in Hval. simpl in Hval. rewrite Nat.sub_0_r in Hval.
  destruct (uninitialized_value_construct_n _ _ _ _) as [[] [c1 w2]|[c1 w2]].
  - destruct Hval as [-> (_ & Hr2 & Hf2 & _)]; [done|].
    unfold represents, Capacity, layout, mem. simpl.
    rewrite length_replicate, Nat.sub_diag, app_nil_r. simpl.
    split_and!; [done..|congruence|congruence].
  - destruct Hval as (-> & (_ & Hr2 & Hf2 & _) & Hne); [done|]. simpl.
    destruct (throws w) as [|b rest]; [by rewrite Hscript in Hne|].
    destruct Hscript as [-> _].
    split_and!; [congruence|done|by rewrite Hr2, Hr1].
Qed.

Lemma Vector_copy_leak_spec other xs w :
  represents other xs →
  match Vector_copy other w with
  | Ret v w' =>
      represents v xs ∧ Capacity v = length xs ∧ leak_free w w' ∧ calm w w'
  | Exc w' => leak_free w w' ∧ throws w ≠ []
  end.
Proof.
  destruct other as [[[b c] cap] sz].
  unfold represents, Vector_copy, Capacity, Size, mem, store, RawMemory_delete.
  simpl. intros (-> & Hcap & ->).
  pose proof (RawMemory_new_leak_free (length xs) w) as Halloc.
  destruct (RawMemory_new _ w) as [[[nb nc] ncap] w1|w1]; [|done].
  unfold mem in *. simpl in *. destruct Halloc as (-> & -> & Hl1 & Hc1).
  pose proof (uninitialized_copy_n_layout xs cap 0 (length xs) [] [] w1) as Hcopy.
  simpl in Hcopy. rewrite app_nil_r in Hcopy.
  destruct (uninitialized_copy_n _ _ _ _ _ _) as [[] [new w2]|[new w2]].
  - destruct Hcopy as [-> Hst]; [done|].
    rewrite drop_0, take_ge, app_nil_r by done. unfold layout.
    rewrite Nat.sub_diag, app_nil_r. simpl.
    split_and!; [done..|leak_steps|calm_steps].
  - destruct Hcopy as (-> & Hst & Hne); [done|].
    split; [|still_throws]. leak_steps. apply all_raw_replicate.
Qed.

(** X19.  The copy constructor builds a container with the elements of the
    source whose capacity is the size of the source, whatever the capacity
    of the source, and releases nothing.  When [operator new] throws
    nothing is released; when a copy throws, the copies already built have
    been destroyed and the block is given back with no live object in it.
    There is no fault. *)
Theorem Vector_copy_builds other xs w :
  represents other xs →
  match Vector_copy other w with
  | Ret v w' =>
      represents v xs ∧ Capacity v = Size other ∧
      faults w' = faults w ∧ freed w' = freed w
  | Exc w' =>
      faults w' = faults w ∧ throws w ≠ [] ∧
      match throws w with
      | false :: _ =>
          freed w'
          = mkBlock (S (fresh w)) (replicate (Size other) Raw) :: freed w
      | _ => freed w' = freed w
      end
  end.
Proof.
  destruct other as [[[b c] cap] sz].
  unfold represents, Vector_copy, Capacity, Size, mem, store, RawMemory_delete,
    Deallocate.
  simpl. intros (-> & Hcap & ->).
  destruct (decide (xs = [])) as [->|Hxs]; [by unfold layout|].
  assert (length xs ≠ 0) as Hn by (by destruct xs).
  pose proof (RawMemory_new_cases (length xs) w) as Halloc.
  destruct (RawMemory_new _ w) as [[[nb nc] ncap] w1|w1].
  2:{ destruct Halloc as (? & ? & rest & ->). done. }
  unfold mem in *. simpl in *.
  destruct Halloc as (-> & -> & Hf1 & Hr1 & Hbase).
  destruct (Hbase Hn) as [-> Hscript].
  pose proof (uninitialized_copy_n_layout xs cap 0 (length xs) [] [] w1) as Hcopy.
  simpl in Hcopy. rewrite app_nil_r in Hcopy.
  destruct (uninitialized_copy_n _ _ _ _ _ _) as [[] [new w2]|[new w2]].
  - destruct Hcopy as [-> (_ & Hr2 & Hf2 & _)]; [done|].
    rewrite drop_0, take_ge, app_nil_r by done. unfold layout.
    rewrite Nat.sub_diag, app_nil_r. simpl.
    split_and!; [done..|congruence|congruence].
  - destruct Hcopy as (-> & (_ & Hr2 & Hf2 & _) & Hne); [done|]. simpl.
    destruct (throws w) as [|b0 rest]; [by rewrite Hscript in Hne|].
    destruct Hscript as [-> _].
    split_and!; [congruence|done|by rewrite Hr2, Hr1].
Qed.

Lemma Vector_delete_layout v xs w :
  represents v xs →
  Vector_delete v w
  = Deallocate (mkBlock (base (buffer_ (data_ v)))
                        (replicate (Capacity v) Raw)) w.
Proof.
  destruct v as [[[b c] cap] sz].
  unfold represents, Vector_delete, Capacity, mem, store, RawMemory_delete.
  simpl. intros (-> & Hcap & ->). rewrite destroy_n_layout by done.
  unfold layout. simpl. by rewrite Nat.sub_0_r.
Qed.

(** X20.  The destructor of a container that satisfies the invariant runs
    the destructor of each live element, once, and gives the block back:
    the world after it is the one where the block, with every slot raw, has
    been handed to [operator delete] (nothing is handed over when the
    buffer is [nullptr]), and there is no fault. *)
Theorem Vector_delete_releases v w :
  Invariant v →
  Vector_delete v w
  = Deallocate (mkBlock (base (buffer_ (data_ v)))
                        (replicate (Capacity v) Raw)) w ∧
  leak_free w (Vector_delete v w).
Proof.
  intros [xs Hv]%Invariant_represents.
  rewrite (Vector_delete_layout v xs w Hv). split; [done|].
  apply Deallocate_leak_free, all_raw_replicate.
Qed.

Lemma Vector_delete_leak_free v xs w :
  represents v xs → leak_free w (Vector_delete v w).
Proof.
  intros Hv. rewrite (Vector_delete_layout v xs w Hv).
  apply Deallocate_leak_free, all_raw_replicate.
Qed.

(** X21.  Copy assignment between containers that satisfy the invariant
    neither leaks nor destroys what is not there, whether it returns or
    throws: every block it gives back to the heap (the old block of the
    destination, when the source does not fit in it, or the new block when
    a copy throws) holds no live object at that time, and no destructor runs
    on a slot without an object. *)
Theorem copy_assign_leak_free this rhs xs ys w :
  represents this xs → represents rhs ys →
  match copy_assign this rhs w with
  | Ret _ (_, w') | Exc (_, w') => leak_free w w'
  end.
Proof.
  intros Hthis Hrhs.
  destruct (Nat.eqb_spec (length xs) (length ys)) as [Heq|Hne].
  { rewrite copy_assign_same_size; [apply leak_free_refl| |].
    - destruct Hthis as (-> & _), Hrhs as (-> & _). done.
    - destruct Hthis as (_ & ? & _), Hrhs as (-> & _). lia. }
  unfold copy_assign.
  replace (size_ rhs) with (length ys) by (by destruct Hrhs as [-> _]).
  fold (Capacity this).
  destruct (Nat.ltb_spec (Capacity this) (length ys)) as [Hgrow|Hfit].
  { pose proof (Vector_copy_leak_spec rhs ys w Hrhs) as Hcopy.
    destruct (Vector_copy rhs w) as [tmp w1|w1]; [|apply Hcopy].
    destruct Hcopy as (Htmp & Hcap & Hl1 & _). rewrite Swap_spec.
    eapply leak_free_trans; [done|]. by eapply Vector_delete_leak_free. }
  destruct this as [[[b c] cap] sz], rhs as [[[b' c'] cap'] sz'].
  unfold represents, Capacity, mem, store in *. simpl in *.
  destruct Hthis as (-> & Hcap & ->), Hrhs as (_ & Hcap' & ->).
  destruct (Nat.ltb_spec (length xs) (length ys)) as [Hlt|Hge].
  - destruct (Nat.ltb_spec (length ys) (length xs)) as [|_]; [lia|].
    unfold layout at 2.
    rewrite (replicate_split Raw (cap - length xs) (length ys - length xs))
      by lia.
    pose proof (uninitialized_copy_n_layout ys cap' (length xs)
      (length ys - length xs) (Obj <$> xs)
      (replicate (cap - length xs - (length ys - length xs)) Raw) w) as Hcopy.
    rewrite length_fmap in Hcopy.
    destruct (uninitialized_copy_n _ _ _ _ _ _) as [[] [c1 w1]|[c1 w1]].
    + destruct Hcopy as [-> Hst]; [lia|].
      rewrite take_ge by (rewrite length_drop; lia).
      replace ((Obj <$> xs) ++ (Obj <$> drop (length xs) ys) ++
               replicate (cap - length xs - (length ys - length xs)) Raw)
        with (layout (xs ++ drop (length xs) ys) cap).
      2:{ rewrite layout_app, length_drop. done. }
      pose proof (std_copy_layout ys cap' (xs ++ drop (length xs) ys) cap
                    (length xs) w1) as Hassign.
      destruct (std_copy _ _ _ _ _ _) as [[] [c2 w2]|[c2 w2]].
      * destruct Hassign as [_ [Hst2 _]]; [rewrite ?length_app; lia..|].
        leak_steps.
      * destruct Hassign as (_ & Hst2 & _); [rewrite ?length_app; lia..|].
        leak_steps.
    + destruct Hcopy as (_ & Hst & _); [lia|]. by apply stable_leak_free.
  - destruct (Nat.ltb_spec (length ys) (length xs)) as [Hlt|]; [|lia].
    rewrite destroy_n_layout by lia.
    pose proof (std_copy_layout ys cap' (take (length ys) xs) cap
                  (length ys) w) as Hassign.
    destruct (std_copy _ _ _ _ _ _) as [[] [c2 w2]|[c2 w2]].
    + destruct Hassign as [_ [Hst2 _]]; [rewrite ?length_take_le; lia..|].
      leak_steps.
    + destruct Hassign as (_ & Hst2 & _); [rewrite ?length_take_le; lia..|].
      leak_steps.
Qed.

(** X22.  [EmplaceBack] on a full container whose elements are relocated by
    copy, when the allocation and the constructor of the new element
    succeed and the copy of an existing element throws: the container is
    exactly as it was, but the new block is given back to the heap with the
    new element still alive in it, at the index of the old size; no
    destructor is run for it. *)
Theorem EmplaceBack_relocation_failure v xs x w rest :
  represents v xs → Size v = Capacity v → relocate_by_move = false →
  throws w = false :: false :: rest →
  match EmplaceBack v x w with
  | Ret _ _ => True
  | Exc (v', w') =>
      v' = v ∧ faults w' = faults w ∧
      freed w'
      = mkBlock (S (fresh w))
          (replicate (Size v) Raw ++ Obj x ::
           replicate ((if Size v =? 0 then 1 else Size v * 2) - Size v - 1) Raw)
        :: freed w
  end.
Proof.
  destruct v as [[[b c] cap] sz].
  unfold represents, EmplaceBack, Size, Capacity, mem, store. simpl.
  intros (-> & _ & ->) <- Hcopy Hw. rewrite Nat.ltb_irrefl, Hcopy.
  set (newcap := if length xs =? 0 then 1 else length xs * 2).
  pose proof (length_grown (length xs)) as Hnewcap. fold newcap in Hnewcap.
  unfold RawMemory_new, Allocate.
  destruct (Nat.eqb_spec newcap 0) as [|_]; [lia|].
  unfold placement_new, may_throw. rewrite Hw. simpl.
  rewrite (replicate_split Raw newcap (length xs)) by lia.
  rewrite (replicate_split Raw (newcap - length xs) 1) by lia. simpl.
  pose proof (construct_at_middle (replicate (length xs) Raw)
    (replicate (newcap - length xs - 1) Raw) x
    (mkWorld rest (S (fresh w)) (freed w) (faults w))) as Hcons.
  rewrite length_replicate in Hcons. rewrite Hcons.
  pose proof (uninitialized_copy_n_layout xs (length xs) 0 (length xs) []
    (Obj x :: replicate (newcap - length xs - 1) Raw)
    (mkWorld rest (S (fresh w)) (freed w) (faults w))) as Hrel.
  simpl in Hrel.
  destruct (uninitialized_copy_n _ _ _ _ _ _) as [[] [new w3]|[new w3]].
  { by destruct (destroy_n _ _ _ _). }
  destruct Hrel as (-> & (Hfresh & Hfreed & Hfaults & _) & _); [done|].
  simpl in *. split_and!; [done..|].
  unfold RawMemory_delete, Deallocate. simpl. by rewrite Hfreed.
Qed.

(** *** Reallocation and addresses *)

Lemma RawMemory_new_base n w m w' :
  RawMemory_new n w = Ret m w' → n ≠ 0 → base (buffer_ m) = S (fresh w).
Proof.
  unfold RawMemory_new, Allocate. intros Hnew Hn.
  destruct (Nat.eqb_spec n 0); [done|].
  destruct (may_throw w) as [[] w1] eqn:Hw; [done|].
  apply may_throw_heap in Hw as [Hfresh _]. simplify_eq/=. by rewrite Hfresh.
Qed.

Lemma CompletelyFilled_new_block this pos x w :
  base (buffer_ (data_ this)) ≤ fresh w →
  match CompletelyFilled this pos x w with
  | Ret _ (v', _) => begin v' ≠ begin this
  | Exc _ => True
  end.
Proof.
  intros Hbase. unfold CompletelyFilled.
  destruct (ptr_diff _ _ _) as [offset w0] eqn:Hdiff.
  apply ptr_diff_heap in Hdiff as [Hfresh _].
  pose proof (length_grown (Size this)) as Hgrown.
  destruct (RawMemory_new _ w0) as [new_data w1|w1] eqn:Hnew; [|done].
  apply RawMemory_new_base in Hnew; [|lia].
  repeat inner_case; simplify_eq/=; try done;
    unfold begin, GetAddress; simpl; intros [=]; lia.
Qed.

(** X23.  An operation that reallocates moves the elements to a block at a
    new address, so that [begin()] is no longer what it was: [Reserve]
    above the capacity, and [EmplaceBack], [Emplace] and [Insert] on a full
    container.  The hypothesis says that the block of the container is one
    of those handed out so far. *)
Theorem reallocation_changes_block this w :
  base (buffer_ (data_ this)) ≤ fresh w →
  (∀ n, Capacity this < n →
     match Reserve this n w with
     | Ret _ (v', _) => begin v' ≠ begin this
     | Exc _ => True
     end) ∧
  (∀ x, Capacity this ≤ Size this →
     match EmplaceBack this x w with
     | Ret _ (v', _) => begin v' ≠ begin this
     | Exc _ => True
     end) ∧
  (∀ pos x, Capacity this ≤ Size this →
     match Emplace this pos x w with
     | Ret _ (v', _) => begin v' ≠ begin this
     | Exc _ => True
     end).
Proof.
  intros Hbase. split_and!.
  - intros n Hn. unfold Reserve. fold (Capacity this).
    destruct (Nat.leb_spec n (Capacity this)); [lia|].
    destruct (RawMemory_new n w) as [new_data w1|w1] eqn:Hnew; [|done].
    apply RawMemory_new_base in Hnew; [|lia].
    repeat inner_case; simplify_eq/=; try done;
      unfold begin, GetAddress; simpl; intros [=]; lia.
  - intros x Hfull. unfold EmplaceBack. fold (Capacity this).
    destruct (Nat.ltb_spec (Size this) (Capacity this)); [lia|].
    pose proof (length_grown (Size this)) as Hgrown.
    destruct (RawMemory_new _ w) as [new_data w1|w1] eqn:Hnew; [|done].
    apply RawMemory_new_base in Hnew; [|lia].
    repeat inner_case; simplify_eq/=; try done;
      unfold begin, GetAddress; simpl; intros [=]; lia.
  - intros pos x Hfull.
    pose proof (CompletelyFilled_new_block this pos x w Hbase) as Hnew.
    unfold Emplace. destruct (ptr_diff _ _ _) as [offset w0].
    fold (Capacity this).
    destruct (Nat.ltb_spec (Size this) (Capacity this)); [lia|].
    by destruct (CompletelyFilled this pos x w) as [[] [v' w']|[v' w']].
Qed.

(** *** The buffer is null exactly when the capacity is 0 *)

Lemma RawMemory_new_null n w m w' :
  RawMemory_new n w = Ret m w' → null_iff_empty m.
Proof.
  unfold RawMemory_new, Allocate, null_iff_empty.
  destruct (Nat.eqb_spec n 0) as [->|Hn].
  - by intros [= <- _].
  - destruct (may_throw w) as [[] w1]; [done|]. intros [= <- _]. simpl. lia.
Qed.

Ltac storage_cases :=
  repeat inner_case;
  repeat match goal with
  | H : RawMemory_new _ _ = Ret _ _ |- _ => apply RawMemory_new_null in H
  end;
  simplify_eq/=; try done.

Lemma Vector_sized_storage n w v w' :
  Vector_sized n w = Ret v w' → null_iff_empty (data_ v).
Proof. unfold Vector_sized. storage_cases; intros; storage_cases. Qed.

Lemma Vector_copy_storage other w v w' :
  Vector_copy other w = Ret v w' → null_iff_empty (data_ v).
Proof. unfold Vector_copy. storage_cases; intros; storage_cases. Qed.

Lemma Reserve_storage this n w :
  null_iff_empty (data_ this) → storage_ok (Reserve this n w).
Proof. intros Hok. unfold storage_ok, Reserve. storage_cases. Qed.

Lemma Resize_storage this n w :
  null_iff_empty (data_ this) → storage_ok (Resize this n w).
Proof.
  intros Hok. pose proof (Reserve_storage this n w Hok) as Hres.
  unfold storage_ok, Resize in *.
  destruct (Reserve this n w) as [[] [v1 w1]|[v1 w1]]; [|done].
  storage_cases.
Qed.

Lemma EmplaceBack_storage this x w :
  null_iff_empty (data_ this) → storage_ok (EmplaceBack this x w).
Proof. intros Hok. unfold storage_ok, EmplaceBack. storage_cases. Qed.

Lemma BigCapacity_storage this pos x w :
  null_iff_empty (data_ this) → storage_ok (BigCapacity this pos x w).
Proof.
  intros Hok. pose proof (EmplaceBack_storage this x) as Hback.
  unfold storage_ok, BigCapacity in *.
  destruct (ptr_diff _ _ _) as [offset w0]. specialize (Hback w0 Hok).
  destruct (offset =? size_ this).
  { by destruct (EmplaceBack this x w0) as [? [? ?]|[? ?]]. }
  storage_cases.
Qed.

Lemma CompletelyFilled_storage this pos x w :
  null_iff_empty (data_ this) → storage_ok (CompletelyFilled this pos x w).
Proof. intros Hok. unfold storage_ok, CompletelyFilled. storage_cases. Qed.

Lemma Emplace_storage this pos x w :
  null_iff_empty (data_ this) → storage_ok (Emplace this pos x w).
Proof.
  intros Hok.
  pose proof (BigCapacity_storage this pos x w Hok) as Hbig.
  pose proof (CompletelyFilled_storage this pos x w Hok) as Hfull.
  unfold storage_ok, Emplace in *.
  destruct (ptr_diff _ _ _) as [offset w0].
  destruct (Size this <? capacity_ (data_ this)).
  - by destruct (BigCapacity _ _ _ _) as [? [? ?]|[? ?]].
  - by destruct (CompletelyFilled _ _ _ _) as [? [? ?]|[? ?]].
Qed.

Lemma copy_assign_storage this rhs w :
  null_iff_empty (data_ this) → storage_ok (copy_assign this rhs w).
Proof.
  intros Hok. unfold storage_ok, copy_assign.
  destruct (capacity_ (data_ this) <? size_ rhs).
  - destruct (Vector_copy rhs w) as [tmp w1|w1] eqn:Hcopy; [|done].
    apply Vector_copy_storage in Hcopy. by rewrite Swap_spec.
  - storage_cases.
Qed.

(** X24.  The buffer of a [RawMemory] is [nullptr] exactly when its capacity
    is 0: its constructors establish this, its [Swap] and move operations
    keep it, and so does every constructor and mutator of [Vector] for the
    storage of the container, on return and on exception. *)
Theorem null_iff_empty_kept :
  null_iff_empty (RawMemory_default (T:=T)) ∧
  (∀ n w, match RawMemory_new n w with
          | Ret m _ => null_iff_empty m
          | Exc _ => True
          end) ∧
  (∀ a b : RawMemory T, null_iff_empty a → null_iff_empty b →
     null_iff_empty (RawMemory_Swap a b).1 ∧
     null_iff_empty (RawMemory_Swap a b).2 ∧
     null_iff_empty (RawMemory_move_assign a b).1 ∧
     null_iff_empty (RawMemory_move_assign a b).2) ∧
  (∀ other : RawMemory T, null_iff_empty other →
     null_iff_empty (RawMemory_move other).1 ∧
     null_iff_empty (RawMemory_move other).2) ∧
  (∀ n w, match Vector_sized n w with
          | Ret v _ => null_iff_empty (data_ v)
          | Exc _ => True
          end) ∧
  (∀ other w, match Vector_copy other w with
              | Ret v _ => null_iff_empty (data_ v)
              | Exc _ => True
              end) ∧
  (∀ this, null_iff_empty (data_ this) →
     (∀ n w, storage_ok (Reserve this n w)) ∧
     (∀ n w, storage_ok (Resize this n w)) ∧
     (∀ x w, storage_ok (EmplaceBack this x w)) ∧
     (∀ pos x w, storage_ok (Emplace this pos x w)) ∧
     (∀ rhs w, storage_ok (copy_assign this rhs w)) ∧
     (∀ w, null_iff_empty (data_ (PopBack this w).1)) ∧
     (∀ pos w, storage_ok (Erase this pos w))).
Proof.
  split_and!.
  - done.
  - intros n w. destruct (RawMemory_new n w) as [m w'|w'] eqn:Hnew; [|done].
    by eapply RawMemory_new_null.
  - intros a b ? ?. by destruct a, b.
  - intros other ?. unfold RawMemory_move. by destruct other.
  - intros n w. destruct (Vector_sized n w) as [v w'|w'] eqn:Hv; [|done].
    by eapply Vector_sized_storage.
  - intros other w. destruct (Vector_copy other w) as [v w'|w'] eqn:Hv; [|done].
    by eapply Vector_copy_storage.
  - intros this Hok. split_and!.
    + intros. by apply Reserve_storage.
    + intros. by apply Resize_storage.
    + intros. by apply EmplaceBack_storage.
    + intros. by apply Emplace_storage.
    + intros. by apply copy_assign_storage.
    + intros w. unfold PopBack. storage_cases.
    + intros pos w. unfold storage_ok, Erase. storage_cases.
Qed.

(** *** Arguments that refer to an element of the container *)

Lemma EmplaceBack_ref_Value this x w :
  EmplaceBack_ref this (Value x) w = EmplaceBack this x w.
Proof. reflexivity. Qed.

Lemma PushBack_ref_Value this x w :
  PushBack_ref this (Value x) w = PushBack this x w.
Proof. reflexivity. Qed.

Lemma BigCapacity_ref_Value this pos x w :
  BigCapacity_ref this pos (Value x) w = BigCapacity this pos x w.
Proof. reflexivity. Qed.

Lemma CompletelyFilled_ref_Value this pos x w :
  CompletelyFilled_ref this pos (Value x) w = CompletelyFilled this pos x w.
Proof. reflexivity. Qed.

Lemma Emplace_ref_Value this pos x w :
  Emplace_ref this pos (Value x) w = Emplace this pos x w.
Proof. reflexivity. Qed.

Lemma Insert_ref_Value this pos x w :
  Insert_ref this pos (Value x) w = Insert this pos x w.
Proof. reflexivity. Qed.





End Properties.

(** * The claims on concrete containers *)

Lemma vector_of_represents addr (xs : list Z) cap :
  length xs ≤ cap → represents (vector_of addr xs cap) xs.
Proof. intros. by split_and!. Qed.

(** The byte count of [2 ^ 61 + 1] elements of 8 bytes wraps around to 8:
    room for one element. *)
Lemma wrapped_count :
  2 < 2 ^ 61 + 1 ∧ byte_count (elem:=int_like) (2 ^ 61 + 1) = 8%N ∧
  room (elem:=int_like) (2 ^ 61 + 1) = 1.
Proof.
  assert (byte_count (elem:=int_like) (2 ^ 61 + 1) = 8%N) as Hb.
  { unfold byte_count. rewrite Nat2N.inj_add, Nat2N.inj_pow. reflexivity. }
  split_and!.
  - pose proof (Nat.pow_gt_1 2 61) as Hp. revert Hp. generalize (2 ^ 61).
    intros p Hp. lia.
  - exact Hb.
  - unfold room. rewrite Hb. reflexivity.
Qed.

(** [Reserve] with a count whose bytes have room for one element, on a
    container holding [1; 2]: the second element is moved past the end of
    the new block. *)
Lemma Reserve_wrapping_small_block n :
  2 < n → room (elem:=int_like) n = 1 →
  Reserve_wrapping (elem:=int_like) (vector_of 1 [1; 2]%Z 2) n (world_of [] 1)
  = Ret tt (mkVector (mkRawMemory (mkBlock 2 [Obj 1%Z]) n) 2,
            mkWorld [] 2 [mkBlock 1 [Raw; Raw]] 1).
Proof.
  intros Hn Hroom.
  unfold Reserve_wrapping, RawMemory_new_wrapping, Allocate_wrapping.
  change (capacity_ (data_ (vector_of 1 [1; 2]%Z 2))) with 2.
  rewrite (proj2 (Nat.leb_gt n 2)) by lia.
  rewrite (proj2 (Nat.eqb_neq n 0)) by lia.
  rewrite Hroom. reflexivity.
Qed.

(** C1.  The destination holds [1; 2] in a block of capacity 2, the source
    holds [3; 4]: the sizes are equal, so neither [if] of the reuse branch
    of the copy assignment is entered, no element is assigned, and the
    destination still holds [1; 2] after the assignment. *)
Theorem copy_assign_same_size_keeps_destination :
  let dst := vector_of 1 [1; 2]%Z 2 in
  let src := vector_of 2 [3; 4]%Z 2 in
  let w := world_of [] 2 in
  Size src ≤ Capacity dst ∧
  copy_assign (elem:=int_like) dst src w = Ret tt (dst, w) ∧
  index dst 0 = Some 1%Z ∧ index src 0 = Some 3%Z.
Proof. split_and!; [vm_compute; lia|reflexivity..]. Qed.

(** C2.  [Insert] of 9 into the full container [1; 2; 3], for an element
    type relocated by copy.  At position 1, when the constructor of the new
    element throws, the copy of the first element already built in the new
    block is never destroyed: the block is released with a live object in
    it.  At position 2, when the copy of the second element throws, the
    handler runs a destructor on the slot at the position, where nothing
    was built: one fault.  For an element type relocated by move, when the
    constructor of the new element throws the elements before the position
    have already been moved out of the container, which is left holding
    [0; 2; 3]. *)
Theorem Insert_failure_cleanup :
  let v := vector_of 1 [1; 2; 3]%Z 3 in
  let w := world_of [false; false; true] 1 in
  Insert (elem:=copy_only) v (ptr_add (begin v) 1) 9%Z w
  = Exc (v, mkWorld [] 2 [mkBlock 2 (Obj 1%Z :: replicate 5 Raw)] 0) ∧
  Insert (elem:=copy_only) v (ptr_add (begin v) 2) 9%Z w
  = Exc (v, mkWorld [] 2 [mkBlock 2 (replicate 6 Raw)] 1) ∧
  Insert (elem:=emptied_by_move) v (ptr_add (begin v) 1) 9%Z
         (world_of [false; true] 1)
  = Exc (vector_of 1 [0; 2; 3]%Z 3,
         mkWorld [] 2 [mkBlock 2 (Obj 1%Z :: replicate 5 Raw)] 0).
Proof. split_and!; reflexivity. Qed.

(** C3, counterexample.  After [dst = std::move(src)] with [dst] holding
    one element in a block of capacity 1, the source is not left with size
    0 and capacity 0: it holds what the destination held. *)
Lemma move_assign_source_not_emptied :
  let dst := vector_of 1 [1]%Z 1 in
  let src := vector_of 2 [2; 3]%Z 2 in
  ¬ (Size (move_assign dst src).2 = 0 ∧ Capacity (move_assign dst src).2 = 0).
Proof. vm_compute. intros [H _]. discriminate H. Qed.

(** C5, counterexample.  [Swap] with an empty container takes the capacity
    of a container from 5 to 0, and so does move assignment from it. *)
Lemma Swap_reduces_capacity :
  let v := vector_of 1 [1; 2; 3]%Z 5 in
  ¬ (Capacity v ≤ Capacity (Swap v Vector_default).1) ∧
  ¬ (Capacity v ≤ Capacity (move_assign v Vector_default).1).
Proof. vm_compute. split; lia. Qed.

(** C4 on the full container [1; 2], with a script that lets the
    allocation through and makes the constructor throw. *)
Lemma EmplaceBack_growth_failure_restores_witness :
  let this := vector_of 1 [1; 2]%Z 2 in
  let w := world_of [false; true] 1 in
  let w' := mkWorld [] 2 [mkBlock 2 (replicate 4 Raw)] 0 in
  Size this = Capacity this ∧ throws w = [false; true] ∧
  EmplaceBack (elem:=int_like) this 7%Z w = Exc (this, w') ∧
  PushBack (elem:=int_like) this 7%Z w = Exc (this, w').
Proof.
  split; [reflexivity|]. split; [reflexivity|].
  apply (EmplaceBack_growth_failure_restores (elem:=int_like)
           (vector_of 1 [1; 2]%Z 2) 7%Z (world_of [false; true] 1) []);
    reflexivity.
Defined.

(** C6 on [1; 2; 3] in a block of capacity 4: [Reserve(2)] and
    [Reserve(8)]. *)
Lemma Reserve_behaviour_witness :
  let v := vector_of 1 [1; 2; 3]%Z 4 in
  let w := world_of [] 1 in
  represents v [1; 2; 3]%Z ∧ 2 ≤ Capacity v ∧ Capacity v < 8 ∧
  allocatable (elem:=int_like) 8 ∧
  Reserve_wrapping (elem:=int_like) v 2 w = Ret tt (v, w) ∧
  match Reserve_wrapping (elem:=int_like) v 8 w with
  | Ret _ (v', _) =>
      Capacity v' = 8 ∧ Size v' = Size v ∧ represents v' [1; 2; 3]%Z
  | Exc _ => throws w ≠ []
  end.
Proof.
  assert (represents (vector_of 1 [1; 2; 3]%Z 4) [1; 2; 3]%Z) as Hv
    by (split_and!; [reflexivity|vm_compute; lia|reflexivity]).
  assert (allocatable (elem:=int_like) 8) as Hn by reflexivity.
  split; [exact Hv|]. split; [vm_compute; lia|]. split; [vm_compute; lia|].
  split; [exact Hn|]. split.
  - apply (Reserve_behaviour (elem:=int_like) _ _ 2 (world_of [] 1) Hv).
    vm_compute; lia.
  - apply (Reserve_behaviour (elem:=int_like) _ _ 8 (world_of [] 1) Hv);
      [vm_compute; lia|exact Hn].
Defined.

(** C7.  [v.Insert(v.begin() + 1, v[0])] on the full container [1; 2; 3],
    for an element type that is relocated by move and whose move leaves the
    source empty, written 0.  [CompletelyFilled] moves the prefix to the new
    block before it builds the new element from the reference, so that the
    new element is a copy of the moved-from object: the container is left
    holding [1; 0; 2; 3].  The same call with a value 1 of the caller's
    leaves [1; 1; 2; 3], as does the call with the reference on a container
    with spare capacity, where [BigCapacity] builds the temporary first; and
    [EmplaceBack(v[0])] on the same full container, which builds the new
    element before it relocates, leaves [1; 2; 3; 1]. *)
Theorem Insert_own_element_into_full :
  let v := vector_of 1 [1; 2; 3]%Z 3 in
  let spare := vector_of 1 [1; 2; 3]%Z 4 in
  let w := world_of [] 1 in
  let w' := mkWorld [] 2 [mkBlock 1 (replicate 3 Raw)] 0 in
  Size v = Capacity v ∧ index v 0 = Some 1%Z ∧
  Insert_ref (elem:=emptied_by_move) v (ptr_add (begin v) 1) (Own 0) w
  = Ret (mkPtr 2 1) (vector_of 2 [1; 0; 2; 3]%Z 6, w') ∧
  Insert (elem:=emptied_by_move) v (ptr_add (begin v) 1) 1%Z w
  = Ret (mkPtr 2 1) (vector_of 2 [1; 1; 2; 3]%Z 6, w') ∧
  Insert_ref (elem:=emptied_by_move) spare (ptr_add (begin spare) 1) (Own 0) w
  = Ret (mkPtr 1 1) (vector_of 1 [1; 1; 2; 3]%Z 4, w) ∧
  EmplaceBack_ref (elem:=emptied_by_move) v (Own 0) w
  = Ret (mkPtr 2 3) (vector_of 2 [1; 2; 3; 1]%Z 6, w').
Proof. split_and!; reflexivity. Qed.

(** X25 on the scenario of the specification: 9 inserted at position 1 of
    the full container [1; 2; 3]. *)
Lemma growth_on_full_witness :
  let v := vector_of 1 [1; 2; 3]%Z 3 in
  represents v [1; 2; 3]%Z ∧ Size v = Capacity v ∧
  match Insert (elem:=int_like) v (ptr_add (begin v) 1) 9%Z (world_of [] 1) with
  | Ret _ (v', _) =>
      Capacity v' = 6 ∧ Size v' = 4 ∧ represents v' [1; 9; 2; 3]%Z
  | Exc _ => False
  end.
Proof.
  assert (represents (vector_of 1 [1; 2; 3]%Z 3) [1; 2; 3]%Z) as Hv
    by (split_and!; [reflexivity|vm_compute; lia|reflexivity]).
  split; [exact Hv|]. split; [reflexivity|].
  pose proof (proj2 (growth_on_full (elem:=int_like) _ _ 9%Z (world_of [] 1)
                       Hv eq_refl) 1 ltac:(vm_compute; lia)) as Hins.
  vm_compute in Hins. vm_compute. exact Hins.
Defined.

(** C6, counterexample.  [Reserve(2 ^ 61 + 1)] on a container of 8-byte
    elements holding [1; 2] in a block of capacity 2.  The byte count wraps
    around to 8, so that the new block has room for one element: the
    second element is moved past its end, which is a fault, and the call
    returns a container of capacity [2 ^ 61 + 1] and size 2 whose block
    holds [1] only; the elements are not [1; 2] any more. *)
Lemma Reserve_count_wraps :
  let v := vector_of 1 [1; 2]%Z 2 in
  let n := 2 ^ 61 + 1 in
  let v' := mkVector (mkRawMemory (mkBlock 2 [Obj 1%Z]) n) 2 in
  represents v [1; 2]%Z ∧ Capacity v < n ∧
  byte_count (elem:=int_like) n = 8%N ∧
  Reserve_wrapping (elem:=int_like) v n (world_of [] 1)
  = Ret tt (v', mkWorld [] 2 [mkBlock 1 [Raw; Raw]] 1) ∧
  index v' 1 = None ∧ ¬ represents v' [1; 2]%Z.
Proof.
  cbv zeta. destruct wrapped_count as (Hn & Hb & Hroom).
  revert Hn Hb Hroom. generalize (2 ^ 61 + 1). intros n Hn Hb Hroom.
  split_and!.
  - by apply vector_of_represents.
  - unfold Capacity. simpl. lia.
  - exact Hb.
  - by apply Reserve_wrapping_small_block.
  - reflexivity.
  - intros (_ & _ & Hmem). discriminate Hmem.
Qed.

(** C9, counterexample.  Copy assignment of a container holding [7] to one
    holding [1; 2; 3], for an element type whose copy assignment may throw,
    when the assignment of the first element throws: the two trailing
    elements have already been destroyed and [size_] is still 3, so that
    the slots of index 1 and 2, below the size, hold no object.  And
    [Reserve(2 ^ 61 + 1)] on a container of 8-byte elements holding
    [1; 2], where the byte count wraps around to 8: the call returns a
    container of capacity [2 ^ 61 + 1] and size 2 over a block of one
    slot, after a fault. *)
Lemma Invariant_not_preserved :
  let dst := vector_of 1 [1; 2; 3]%Z 3 in
  let src := vector_of 2 [7]%Z 1 in
  let left := mkVector (mkRawMemory (mkBlock 1 [Obj 1%Z; Raw; Raw]) 3) 3 in
  let v := vector_of 1 [1; 2]%Z 2 in
  let n := 2 ^ 61 + 1 in
  let v' := mkVector (mkRawMemory (mkBlock 2 [Obj 1%Z]) n) 2 in
  (Invariant dst ∧ Invariant src ∧
   copy_assign (elem:=throwing_assignment) dst src (world_of [true] 2)
   = Exc (left, world_of [] 2) ∧
   ¬ Invariant left) ∧
  (Invariant v ∧
   Reserve_wrapping (elem:=int_like) v n (world_of [] 1)
   = Ret tt (v', mkWorld [] 2 [mkBlock 1 [Raw; Raw]] 1) ∧
   ¬ Invariant v').
Proof.
  cbv zeta. destruct wrapped_count as (Hn & _ & Hroom).
  revert Hn Hroom. generalize (2 ^ 61 + 1). intros n Hn Hroom.
  split; split_and!.
  - apply (represents_Invariant _ [1; 2; 3]%Z), vector_of_represents.
    simpl. lia.
  - apply (represents_Invariant _ [7]%Z), vector_of_represents. simpl. lia.
  - reflexivity.
  - intros (_ & _ & Hlive & _). destruct (Hlive 1) as [x Hx]; [simpl; lia|].
    discriminate Hx.
  - apply (represents_Invariant _ [1; 2]%Z), vector_of_represents.
    simpl. lia.
  - by apply Reserve_wrapping_small_block.
  - intros (_ & Hlen & _). simpl in Hlen. lia.
Qed.

(** C9, as amended, on [1; 2; 3]: [PopBack], [Reserve(6)], an [Emplace]
    into the full container that throws half-way, an [Erase], and a copy
    assignment whose element assignment throws, for which the theorem
    asserts the invariant only under a condition that does not hold
    there. *)
Lemma Invariant_preserved_witness :
  let v := vector_of 1 [1; 2; 3]%Z 3 in
  let w := world_of [] 1 in
  let w2 := world_of [false; false; true] 1 in
  Invariant v ∧ 0 < Size v ∧ 1 ≤ Size v ∧ allocatable (elem:=int_like) 6 ∧
  (Invariant (PopBack v w).1 ∧ (PopBack v w).2 = w) ∧
  sound w (Reserve_wrapping (elem:=int_like) v 6 w) ∧
  sound_if (Size v = Capacity v ∨
            is_nothrow_move_assignable (Element:=copy_only) = true) w2
    (Emplace (elem:=copy_only) v (ptr_add (begin v) 1) 9%Z w2) ∧
  sound w (Erase (elem:=int_like) v (ptr_add (begin v) 1) w) ∧
  sound_if (is_nothrow_copy_assignable (Element:=throwing_assignment) = true
            ∨ Capacity v < Size (vector_of 2 [7]%Z 1))
    (world_of [true] 2)
    (copy_assign (elem:=throwing_assignment) v (vector_of 2 [7]%Z 1)
       (world_of [true] 2)).
Proof.
  assert (Invariant (vector_of 1 [1; 2; 3]%Z 3)) as Hv.
  { apply (represents_Invariant _ [1; 2; 3]%Z), vector_of_represents.
    simpl. lia. }
  assert (Invariant (vector_of 2 [7]%Z 1)) as Hsrc.
  { apply (represents_Invariant _ [7]%Z), vector_of_represents. simpl. lia. }
  assert (allocatable (elem:=int_like) 6) as Hn by reflexivity.
  split; [exact Hv|]. split; [vm_compute; lia|]. split; [vm_compute; lia|].
  split; [exact Hn|].
  pose proof (Invariant_preserved (T:=Z) (elem:=int_like))
    as (_ & _ & _ & _ & _ & _ & _ & Hreserve & _ & _ & _ & Hpop & _ & _
        & Herase).
  pose proof (Invariant_preserved (T:=Z) (elem:=copy_only))
    as (_ & _ & _ & _ & _ & _ & _ & _ & _ & _ & _ & _ & Hemplace & _).
  pose proof (Invariant_preserved (T:=Z) (elem:=throwing_assignment))
    as (_ & _ & _ & _ & Hassign & _).
  split_and!.
  - apply Hpop; [exact Hv|vm_compute; lia].
  - apply Hpop; [exact Hv|vm_compute; lia].
  - apply Hreserve; [exact Hv|exact Hn].
  - apply Hemplace; [exact Hv|vm_compute; lia].
  - apply Herase; [exact Hv|vm_compute; lia].
  - apply Hassign; [exact Hv|exact Hsrc].
Defined.


(** The scenarios of the specification. *)

(** 1, 2, 3 appended to an empty container. *)
Example push_all_123 :
  match push_all (elem:=int_like) [1; 2; 3]%Z Vector_default (world_of [] 0) with
  | Ret _ (v, _) =>
      Size v = 3 ∧ index v 0 = Some 1%Z ∧ index v 1 = Some 2%Z ∧
      index v 2 = Some 3%Z
  | Exc _ => False
  end.
Proof. simpl. split_and!; reflexivity. Qed.

(** 9 inserted at position 1 of [1; 2; 3] in a block of capacity 4: no
    reallocation. *)
Example insert_with_spare_capacity :
  let v := vector_of 1 [1; 2; 3]%Z 4 in
  Insert (elem:=int_like) v (ptr_add (begin v) 1) 9%Z (world_of [] 1)
  = Ret (mkPtr 1 1) (vector_of 1 [1; 9; 2; 3]%Z 4, world_of [] 1).
Proof. reflexivity. Qed.

(** 9 inserted at position 1 of the full container [1; 2; 3]: capacity 6,
    the old block released. *)
Example insert_into_full :
  let v := vector_of 1 [1; 2; 3]%Z 3 in
  Insert (elem:=int_like) v (ptr_add (begin v) 1) 9%Z (world_of [] 1)
  = Ret (mkPtr 2 1)
        (vector_of 2 [1; 9; 2; 3]%Z 6,
         mkWorld [] 2 [mkBlock 1 (replicate 3 Raw)] 0).
Proof. reflexivity. Qed.

(** The element at position 0 of [1; 2; 3] erased. *)
Example erase_first :
  let v := vector_of 1 [1; 2; 3]%Z 3 in
  Erase (elem:=int_like) v (begin v) (world_of [] 1)
  = Ret (mkPtr 1 0) (vector_of 1 [2; 3]%Z 3, world_of [] 1).
Proof. reflexivity. Qed.

(** A container of 2 elements copy-assigned to one of 5 elements in a block
    of capacity 5. *)
Example copy_assign_smaller :
  let dst := vector_of 1 [1; 2; 3; 4; 5]%Z 5 in
  let src := vector_of 2 [7; 8]%Z 2 in
  copy_assign (elem:=int_like) dst src (world_of [] 2)
  = Ret tt (vector_of 1 [7; 8]%Z 5, world_of [] 2).
Proof. reflexivity. Qed.

(** * The further properties on concrete containers *)

(** X1 on [1; 2; 3]: the element of index 1 erased. *)
Lemma Erase_removes_witness :
  let v := vector_of 1 [1; 2; 3]%Z 3 in
  let w := world_of [] 1 in
  represents v [1; 2; 3]%Z ∧ 1 ≤ length [1; 2; 3]%Z ∧
  match Erase (elem:=int_like) v (ptr_add (begin v) 1) w with
  | Ret p (v', w') =>
      p = ptr_add (begin v) 1 ∧ represents v' [1; 3]%Z ∧
      Capacity v' = Capacity v ∧ begin v' = begin v ∧ stable w w' ∧
      (is_nothrow_move_assignable (Element:=int_like) = true → w' = w)
  | Exc (v', w') =>
      is_nothrow_move_assignable (Element:=int_like) = false ∧
      throws w ≠ [] ∧
      (∃ ys, length ys = length [1; 2; 3]%Z ∧ represents v' ys) ∧
      Capacity v' = Capacity v ∧ begin v' = begin v ∧ stable w w'
  end.
Proof.
  assert (represents (vector_of 1 [1; 2; 3]%Z 3) [1; 2; 3]%Z) as Hv
    by (apply vector_of_represents; simpl; lia).
  split; [exact Hv|]. split; [simpl; lia|].
  exact (Erase_removes (elem:=int_like) (vector_of 1 [1; 2; 3]%Z 3)
           [1; 2; 3]%Z 1 (world_of [] 1) Hv ltac:(simpl; lia)).
Defined.

(** X2 on [1; 2; 3]. *)
Lemma PopBack_removes_last_witness :
  let v := vector_of 1 [1; 2; 3]%Z 3 in
  let w := world_of [] 1 in
  represents v ([1; 2]%Z ++ [3%Z]) ∧
  ∃ v', PopBack v w = (v', w) ∧ represents v' [1; 2]%Z ∧
        Capacity v' = Capacity v ∧ begin v' = begin v.
Proof.
  assert (represents (vector_of 1 [1; 2; 3]%Z 3) ([1; 2]%Z ++ [3%Z])) as Hv
    by (apply (vector_of_represents 1 [1; 2; 3]%Z 3); simpl; lia).
  split; [exact Hv|].
  exact (PopBack_removes_last (vector_of 1 [1; 2; 3]%Z 3) [1; 2]%Z 3%Z
           (world_of [] 1) Hv).
Defined.

(** X4 on [1; 2; 3] in a block of capacity 4. *)
Lemma PushBack_then_PopBack_witness :
  let v := vector_of 1 [1; 2; 3]%Z 4 in
  represents v [1; 2; 3]%Z ∧
  match PushBack (elem:=int_like) v 9%Z (world_of [] 1) with
  | Ret _ (v1, w1) =>
      ∃ v2, PopBack v1 w1 = (v2, w1) ∧ represents v2 [1; 2; 3]%Z ∧
            Capacity v2 = Capacity v1 ∧ Capacity v ≤ Capacity v1
  | Exc _ => throws (world_of [] 1) ≠ []
  end.
Proof.
  assert (represents (vector_of 1 [1; 2; 3]%Z 4) [1; 2; 3]%Z) as Hv
    by (apply vector_of_represents; simpl; lia).
  split; [exact Hv|].
  exact (PushBack_then_PopBack (elem:=int_like) (vector_of 1 [1; 2; 3]%Z 4)
           [1; 2; 3]%Z 9%Z (world_of [] 1) Hv).
Defined.

(** X5 on the full container [1; 2; 3]: the insertion reallocates. *)
Lemma Insert_then_Erase_witness :
  let v := vector_of 1 [1; 2; 3]%Z 3 in
  represents v [1; 2; 3]%Z ∧ 1 ≤ length [1; 2; 3]%Z ∧
  match Insert (elem:=int_like) v (ptr_add (begin v) 1) 9%Z (world_of [] 1) with
  | Ret p (v1, w1) =>
      match Erase (elem:=int_like) v1 p w1 with
      | Ret q (v2, w2) =>
          q = p ∧ represents v2 [1; 2; 3]%Z ∧ stable w1 w2 ∧
          (is_nothrow_move_assignable (Element:=int_like) = true → w2 = w1)
      | Exc _ =>
          is_nothrow_move_assignable (Element:=int_like) = false ∧
          throws w1 ≠ []
      end
  | Exc _ => throws (world_of [] 1) ≠ []
  end.
Proof.
  assert (represents (vector_of 1 [1; 2; 3]%Z 3) [1; 2; 3]%Z) as Hv
    by (apply vector_of_represents; simpl; lia).
  split; [exact Hv|]. split; [simpl; lia|].
  exact (Insert_then_Erase (elem:=int_like) (vector_of 1 [1; 2; 3]%Z 3)
           [1; 2; 3]%Z 1 9%Z (world_of [] 1) Hv ltac:(simpl; lia)).
Defined.


(** X7 on [1; 2; 3] in a block of capacity 4. *)
Lemma EmplaceBack_with_spare_capacity_witness :
  let v := vector_of 1 [1; 2; 3]%Z 4 in
  let w := world_of [] 1 in
  represents v [1; 2; 3]%Z ∧ length [1; 2; 3]%Z < Capacity v ∧
  match EmplaceBack (elem:=int_like) v 9%Z w with
  | Ret p (v', w') =>
      represents v' [1; 2; 3; 9]%Z ∧ Capacity v' = Capacity v ∧
      begin v' = begin v ∧ p = end_ v ∧ same_heap w w'
  | Exc (v', w') => v' = v ∧ same_heap w w' ∧ throws w ≠ []
  end.
Proof.
  assert (represents (vector_of 1 [1; 2; 3]%Z 4) [1; 2; 3]%Z) as Hv
    by (apply vector_of_represents; simpl; lia).
  split; [exact Hv|]. split; [vm_compute; lia|].
  exact (EmplaceBack_with_spare_capacity (elem:=int_like)
           (vector_of 1 [1; 2; 3]%Z 4) [1; 2; 3]%Z 9%Z (world_of [] 1)
           Hv ltac:(vm_compute; lia)).
Defined.

(** X8 on the full container [1; 2; 3]. *)
Lemma EmplaceBack_returns_last_witness :
  let v := vector_of 1 [1; 2; 3]%Z 3 in
  represents v [1; 2; 3]%Z ∧
  match EmplaceBack (elem:=int_like) v 9%Z (world_of [] 1) with
  | Ret p (v', _) =>
      Size v' = S (Size v) ∧ p = ptr_add (begin v') (Size v) ∧
      index v' (Size v) = Some 9%Z ∧
      ∀ i, i < Size v → index v' i = index v i
  | Exc _ => throws (world_of [] 1) ≠ []
  end.
Proof.
  assert (represents (vector_of 1 [1; 2; 3]%Z 3) [1; 2; 3]%Z) as Hv
    by (apply vector_of_represents; simpl; lia).
  split; [exact Hv|].
  exact (EmplaceBack_returns_last (elem:=int_like) (vector_of 1 [1; 2; 3]%Z 3)
           [1; 2; 3]%Z 9%Z (world_of [] 1) Hv).
Defined.

(** X9 on [1; 2; 3] resized to 5. *)
Lemma Resize_contents_witness :
  let v := vector_of 1 [1; 2; 3]%Z 3 in
  represents v [1; 2; 3]%Z ∧ allocatable (elem:=int_like) 5 ∧
  match Resize_wrapping (elem:=int_like) v 5 (world_of [] 1) with
  | Ret _ (v', _) =>
      Size v' = 5 ∧ represents v' [1; 2; 3; 0; 0]%Z ∧
      Capacity v' = max 5 (Capacity v)
  | Exc (v', _) => Size v' = Size v ∧ throws (world_of [] 1) ≠ []
  end.
Proof.
  assert (represents (vector_of 1 [1; 2; 3]%Z 3) [1; 2; 3]%Z) as Hv
    by (apply vector_of_represents; simpl; lia).
  assert (allocatable (elem:=int_like) 5) as Hn by reflexivity.
  split; [exact Hv|]. split; [exact Hn|].
  exact (Resize_contents (elem:=int_like) (vector_of 1 [1; 2; 3]%Z 3)
           [1; 2; 3]%Z 5 (world_of [] 1) Hv Hn).
Defined.

(** X10 on a destination of 5 elements and a source of 2. *)
Lemma copy_assign_different_sizes_witness :
  let dst := vector_of 1 [1; 2; 3; 4; 5]%Z 5 in
  let src := vector_of 2 [7; 8]%Z 2 in
  represents dst [1; 2; 3; 4; 5]%Z ∧ represents src [7; 8]%Z ∧
  length [1; 2; 3; 4; 5]%Z ≠ length [7; 8]%Z ∧
  match copy_assign (elem:=int_like) dst src (world_of [] 2) with
  | Ret _ (v', _) =>
      represents v' [7; 8]%Z ∧
      Capacity v' = max (Capacity dst) (length [7; 8]%Z) ∧
      (length [7; 8]%Z ≤ Capacity dst → begin v' = begin dst)
  | Exc (v', _) =>
      (is_nothrow_copy_assignable (Element:=int_like) = true → v' = dst) ∧
      throws (world_of [] 2) ≠ []
  end.
Proof.
  assert (represents (vector_of 1 [1; 2; 3; 4; 5]%Z 5) [1; 2; 3; 4; 5]%Z)
    as Hdst by (apply vector_of_represents; simpl; lia).
  assert (represents (vector_of 2 [7; 8]%Z 2) [7; 8]%Z) as Hsrc
    by (apply vector_of_represents; simpl; lia).
  split; [exact Hdst|]. split; [exact Hsrc|]. split; [simpl; lia|].
  exact (copy_assign_different_sizes (elem:=int_like)
           (vector_of 1 [1; 2; 3; 4; 5]%Z 5)
           (vector_of 2 [7; 8]%Z 2) [1; 2; 3; 4; 5]%Z [7; 8]%Z (world_of [] 2)
           Hdst Hsrc ltac:(simpl; lia)).
Defined.

(** X12 on [1; 2; 3]: room reserved for 5 elements, then 4 and 5
    appended. *)
Lemma Reserve_then_push_all_witness :
  let v := vector_of 1 [1; 2; 3]%Z 3 in
  let w := world_of [] 1 in
  represents v [1; 2; 3]%Z ∧ allocatable (elem:=int_like) 5 ∧
  length [1; 2; 3]%Z + length [4; 5]%Z ≤ 5 ∧
  match Reserve_wrapping (elem:=int_like) v 5 w with
  | Ret _ (v1, w1) =>
      match push_all (elem:=int_like) [4; 5]%Z v1 w1 with
      | Ret _ (v2, w2) =>
          represents v2 ([1; 2; 3]%Z ++ [4; 5]%Z) ∧ begin v2 = begin v1 ∧
          Capacity v2 = Capacity v1 ∧ same_heap w1 w2
      | Exc _ => throws w ≠ []
      end
  | Exc _ => throws w ≠ []
  end.
Proof.
  assert (represents (vector_of 1 [1; 2; 3]%Z 3) [1; 2; 3]%Z) as Hv
    by (apply vector_of_represents; simpl; lia).
  assert (allocatable (elem:=int_like) 5) as Hn by reflexivity.
  split; [exact Hv|]. split; [exact Hn|]. split; [simpl; lia|].
  exact (Reserve_then_push_all (elem:=int_like) (vector_of 1 [1; 2; 3]%Z 3)
           [1; 2; 3]%Z 5 [4; 5]%Z (world_of [] 1) Hv Hn ltac:(simpl; lia)).
Defined.


(** X14 on [1; 2; 3] with elements relocated by copy, where the allocation
    succeeds and the second copy throws. *)
Lemma Reserve_strong_guarantee_witness :
  let v := vector_of 1 [1; 2; 3]%Z 3 in
  (is_nothrow_move_constructible (Element:=copy_only) = true ∨
   is_copy_constructible (Element:=copy_only) = true) ∧
  match Reserve (elem:=copy_only) v 6 (world_of [false; false; true] 1) with
  | Ret _ _ => True
  | Exc (v', _) => v' = v
  end.
Proof.
  split; [right; reflexivity|].
  exact (Reserve_strong_guarantee (elem:=copy_only) (vector_of 1 [1; 2; 3]%Z 3)
           6 (world_of [false; false; true] 1) (or_intror eq_refl)).
Defined.

(** X15 on the full container [1; 2; 3] with elements relocated by copy,
    where the first copy of an old element throws. *)
Lemma EmplaceBack_strong_guarantee_witness :
  let v := vector_of 1 [1; 2; 3]%Z 3 in
  let w := world_of [false; false; true] 1 in
  (is_nothrow_move_constructible (Element:=copy_only) = true ∨
   is_copy_constructible (Element:=copy_only) = true) ∧
  match EmplaceBack (elem:=copy_only) v 9%Z w with
  | Ret _ _ => True
  | Exc (v', _) => v' = v
  end ∧
  match PushBack (elem:=copy_only) v 9%Z w with
  | Ret _ _ => True
  | Exc (v', _) => v' = v
  end.
Proof.
  split; [right; reflexivity|].
  exact (EmplaceBack_strong_guarantee (elem:=copy_only)
           (vector_of 1 [1; 2; 3]%Z 3) 9%Z (world_of [false; false; true] 1)
           (or_intror eq_refl)).
Defined.


(** X17 on [1; 2; 3] with the capacity raised to 6. *)
Lemma Reserve_leak_free_witness :
  let v := vector_of 1 [1; 2; 3]%Z 3 in
  let w := world_of [] 1 in
  represents v [1; 2; 3]%Z ∧ allocatable (elem:=int_like) 6 ∧
  match Reserve_wrapping (elem:=int_like) v 6 w with
  | Ret _ (_, w') | Exc (_, w') => leak_free w w'
  end.
Proof.
  assert (represents (vector_of 1 [1; 2; 3]%Z 3) [1; 2; 3]%Z) as Hv
    by (apply vector_of_represents; simpl; lia).
  assert (allocatable (elem:=int_like) 6) as Hn by reflexivity.
  split; [exact Hv|]. split; [exact Hn|].
  exact (Reserve_leak_free (elem:=int_like) (vector_of 1 [1; 2; 3]%Z 3)
           [1; 2; 3]%Z 6 (world_of [] 1) Hv Hn).
Defined.

(** X18 on [Vector(3)] where the constructor of the second element
    throws: the block of 3 raw slots is given back. *)
Lemma Vector_sized_builds_witness :
  let w := world_of [false; false; true] 1 in
  allocatable (elem:=int_like) 3 ∧
  match Vector_sized_wrapping (elem:=int_like) 3 w with
  | Ret _ _ => False
  | Exc w' =>
      faults w' = 0 ∧ throws w ≠ [] ∧ freed w' = [mkBlock 2 [Raw; Raw; Raw]]
  end.
Proof.
  assert (allocatable (elem:=int_like) 3) as Hn by reflexivity.
  split; [exact Hn|].
  pose proof (Vector_sized_builds (elem:=int_like) 3
                (world_of [false; false; true] 1) Hn) as Hbuilt.
  vm_compute in Hbuilt. vm_compute. exact Hbuilt.
Defined.

(** X19 on a source holding [1; 2; 3] in a block of capacity 4, where the
    copy of the second element throws: the block of 3 raw slots is given
    back. *)
Lemma Vector_copy_builds_witness :
  let src := vector_of 1 [1; 2; 3]%Z 4 in
  let w := world_of [false; false; true] 1 in
  represents src [1; 2; 3]%Z ∧
  match Vector_copy src w with
  | Ret _ _ => False
  | Exc w' =>
      faults w' = 0 ∧ throws w ≠ [] ∧ freed w' = [mkBlock 2 [Raw; Raw; Raw]]
  end.
Proof.
  assert (represents (vector_of 1 [1; 2; 3]%Z 4) [1; 2; 3]%Z) as Hv
    by (apply vector_of_represents; simpl; lia).
  split; [exact Hv|].
  pose proof (Vector_copy_builds (vector_of 1 [1; 2; 3]%Z 4) [1; 2; 3]%Z
                (world_of [false; false; true] 1) Hv) as Hbuilt.
  vm_compute in Hbuilt. vm_compute. exact Hbuilt.
Defined.

(** X20 on [1; 2; 3] in a block of capacity 4. *)
Lemma Vector_delete_releases_witness :
  let v := vector_of 1 [1; 2; 3]%Z 4 in
  let w := world_of [] 1 in
  Invariant v ∧
  Vector_delete v w
  = Deallocate (mkBlock (base (buffer_ (data_ v)))
                        (replicate (Capacity v) Raw)) w ∧
  leak_free w (Vector_delete v w).
Proof.
  assert (Invariant (vector_of 1 [1; 2; 3]%Z 4)) as Hv.
  { apply (represents_Invariant _ [1; 2; 3]%Z).
    apply vector_of_represents. simpl. lia. }
  split; [exact Hv|].
  exact (Vector_delete_releases (vector_of 1 [1; 2; 3]%Z 4) (world_of [] 1) Hv).
Defined.

(** X21 on a destination of 2 elements and a source of 3: the old block of
    the destination is released. *)
Lemma copy_assign_leak_free_witness :
  let dst := vector_of 1 [1; 2]%Z 2 in
  let src := vector_of 2 [3; 4; 5]%Z 3 in
  let w := world_of [] 2 in
  represents dst [1; 2]%Z ∧ represents src [3; 4; 5]%Z ∧
  match copy_assign (elem:=int_like) dst src w with
  | Ret _ (_, w') | Exc (_, w') => leak_free w w'
  end.
Proof.
  assert (represents (vector_of 1 [1; 2]%Z 2) [1; 2]%Z) as Hdst
    by (apply vector_of_represents; simpl; lia).
  assert (represents (vector_of 2 [3; 4; 5]%Z 3) [3; 4; 5]%Z) as Hsrc
    by (apply vector_of_represents; simpl; lia).
  split; [exact Hdst|]. split; [exact Hsrc|].
  exact (copy_assign_leak_free (elem:=int_like) (vector_of 1 [1; 2]%Z 2)
           (vector_of 2 [3; 4; 5]%Z 3) [1; 2]%Z [3; 4; 5]%Z (world_of [] 2)
           Hdst Hsrc).
Defined.

(** X22 on the full container [1; 2] with elements relocated by copy: the
    block of capacity 4 is released with 9 alive at index 2. *)
Lemma EmplaceBack_relocation_failure_witness :
  let v := vector_of 1 [1; 2]%Z 2 in
  let w := world_of [false; false; true] 1 in
  represents v [1; 2]%Z ∧ Size v = Capacity v ∧
  relocate_by_move (elem:=copy_only) = false ∧
  throws w = [false; false; true] ∧
  match EmplaceBack (elem:=copy_only) v 9%Z w with
  | Ret _ _ => False
  | Exc (v', w') =>
      v' = v ∧ faults w' = 0 ∧
      freed w' = [mkBlock 2 [Raw; Raw; Obj 9%Z; Raw]]
  end.
Proof.
  assert (represents (vector_of 1 [1; 2]%Z 2) [1; 2]%Z) as Hv
    by (apply vector_of_represents; simpl; lia).
  split; [exact Hv|]. split; [reflexivity|]. split; [reflexivity|].
  split; [reflexivity|].
  pose proof (EmplaceBack_relocation_failure (elem:=copy_only)
                (vector_of 1 [1; 2]%Z 2) [1; 2]%Z 9%Z
                (world_of [false; false; true] 1) [true]
                Hv eq_refl eq_refl eq_refl) as Hfail.
  vm_compute in Hfail. vm_compute. exact Hfail.
Defined.

(** X23 on the full container [1; 2; 3], whose block has address 1. *)
Lemma reallocation_changes_block_witness :
  let v := vector_of 1 [1; 2; 3]%Z 3 in
  let w := world_of [] 1 in
  base (buffer_ (data_ v)) ≤ fresh w ∧
  match Reserve (elem:=int_like) v 6 w with
  | Ret _ (v', _) => begin v' ≠ begin v
  | Exc _ => True
  end ∧
  match EmplaceBack (elem:=int_like) v 9%Z w with
  | Ret _ (v', _) => begin v' ≠ begin v
  | Exc _ => True
  end ∧
  match Emplace (elem:=int_like) v (ptr_add (begin v) 1) 9%Z w with
  | Ret _ (v', _) => begin v' ≠ begin v
  | Exc _ => True
  end.
Proof.
  pose proof (reallocation_changes_block (elem:=int_like)
                (vector_of 1 [1; 2; 3]%Z 3) (world_of [] 1)
                ltac:(vm_compute; lia)) as (Hres & Hback & Hins).
  split; [vm_compute; lia|]. split_and!.
  - exact (Hres 6 ltac:(vm_compute; lia)).
  - exact (Hback 9%Z ltac:(vm_compute; lia)).
  - exact (Hins (ptr_add (begin (vector_of 1 [1; 2; 3]%Z 3)) 1) 9%Z
             ltac:(vm_compute; lia)).
Defined.

(** X24 on the full container [1; 2; 3] and on the storage of an empty
    one. *)
Lemma null_iff_empty_kept_witness :
  let v := vector_of 1 [1; 2; 3]%Z 3 in
  let w := world_of [] 1 in
  null_iff_empty (data_ v) ∧
  null_iff_empty (RawMemory_move (data_ v)).1 ∧
  null_iff_empty (RawMemory_move (data_ v)).2 ∧
  storage_ok (Reserve (elem:=int_like) v 6 w) ∧
  storage_ok (Emplace (elem:=int_like) v (ptr_add (begin v) 1) 9%Z w) ∧
  null_iff_empty (data_ (PopBack v w).1).
Proof.
  assert (null_iff_empty (data_ (vector_of 1 [1; 2; 3]%Z 3))) as Hv
    by (vm_compute; lia).
  pose proof (null_iff_empty_kept (T:=Z) (elem:=int_like))
    as (_ & _ & _ & Hmove & _ & _ & Hvec).
  destruct (Hvec (vector_of 1 [1; 2; 3]%Z 3) Hv)
    as (Hres & _ & _ & Hins & _ & Hpop & _).
  split; [exact Hv|]. split_and!.
  - exact (proj1 (Hmove _ Hv)).
  - exact (proj2 (Hmove _ Hv)).
  - exact (Hres 6 (world_of [] 1)).
  - exact (Hins (ptr_add (begin (vector_of 1 [1; 2; 3]%Z 3)) 1) 9%Z
             (world_of [] 1)).
  - exact (Hpop (world_of [] 1)).
Defined.

